(** * gcp-emulator-auth: the permission-check client, its error classifier,
      the auth mode, the trace writer and the trace validator.

    A shallow embedding of the Go packages [emulatorauth] (client.go,
    config.go, errors.go, mode.go, principal.go) and [trace] (types.go,
    writer.go, validator.go).

    Go strings are byte sequences: they are Rocq [string]s, one [ascii]
    per byte.  What the program takes from Go's standard library and from
    gRPC ([strings.TrimSpace], [strings.ToLower], [status.Code],
    [encoding/json], [bufio], [grpc.ClientConn]) is modelled next to the
    package that uses it, each model with a comment that says what it
    covers. *)

From Stdlib Require Import ZArith NArith Lia Bool Ascii String List.
From stdpp Require Import base option list strings gmap pretty.

(** ** Package [strings] of the Go standard library *)

Module strings.

Definition bytes_of (s : string) : list ascii := list_ascii_of_string s.
Definition of_bytes (l : list ascii) : string := string_of_list_ascii l.

(** The UTF-8 encodings of the runes for which [unicode.IsSpace] holds:
    tab, line feed, vertical tab, form feed, carriage return, space,
    U+0085, U+00A0, U+1680, U+2000 to U+200A, U+2028, U+2029, U+202F,
    U+205F and U+3000.  Go decodes a string as UTF-8 both from the left
    ([range s]) and from the right ([utf8.DecodeLastRuneInString]); an
    ill-formed byte decodes as U+FFFD with width one, which is no space.
    A string therefore starts (ends) with a white-space rune exactly
    when one of these byte sequences is a prefix (suffix) of it. *)
Definition white_space : list (list ascii) :=
    [ ["009"]; ["010"]; ["011"]; ["012"]; ["013"]; ["032"]; ["194"; "133"];
      ["194"; "160"]; ["225"; "154"; "128"]; ["226"; "128"; "128"];
      ["226"; "128"; "129"]; ["226"; "128"; "130"]; ["226"; "128"; "131"];
      ["226"; "128"; "132"]; ["226"; "128"; "133"]; ["226"; "128"; "134"];
      ["226"; "128"; "135"]; ["226"; "128"; "136"]; ["226"; "128"; "137"];
      ["226"; "128"; "138"]; ["226"; "128"; "168"]; ["226"; "128"; "169"];
      ["226"; "128"; "175"]; ["226"; "129"; "159"];
      ["227"; "128"; "128"] ]%char.

(** [cut_prefix p s] is [Some r] when [s = p ++ r]. *)
Fixpoint cut_prefix (p s : list ascii) : option (list ascii) :=
  match p, s with
  | [], _ => Some s
  | a :: p', b :: s' => if Ascii.eqb a b then cut_prefix p' s' else None
  | _ :: _, [] => None
  end.

(** [cut_any codes s] removes the first of [codes] that is a prefix of [s]. *)
Fixpoint cut_any (codes : list (list ascii)) (s : list ascii)
  : option (list ascii) :=
  match codes with
  | [] => None
  | p :: codes' =>
      match cut_prefix p s with
      | Some r => Some r
      | None => cut_any codes' s
      end
  end.

(** The trimming loop: at most one iteration per byte. *)
Fixpoint trim_prefix (codes : list (list ascii)) (fuel : nat)
    (s : list ascii) : list ascii :=
  match fuel with
  | O => s
  | S fuel' =>
      match cut_any codes s with
      | Some r => trim_prefix codes fuel' r
      | None => s
      end
  end.

Definition trim_left (s : list ascii) : list ascii :=
  trim_prefix white_space (length s) s.

(** The same sequences, each from its last byte to its first. *)
Definition rev_white_space : list (list ascii) := map (@rev ascii) white_space.

Definition trim_right (s : list ascii) : list ascii :=
  rev (trim_prefix rev_white_space (length s) (rev s)).

(** [strings.TrimSpace]: the string without its leading and trailing
    white space, as defined by Unicode. *)
Definition TrimSpace (s : string) : string :=
  of_bytes (trim_right (trim_left (bytes_of s))).

(** Bytes below [utf8.RuneSelf] are the ASCII characters. *)
Definition is_ascii_byte (c : ascii) : bool := (N_of_ascii c <? 128)%N.

Definition is_upper_byte (c : ascii) : bool :=
  ((65 <=? N_of_ascii c) && (N_of_ascii c <=? 90))%N.

Definition is_letter (c : ascii) : bool :=
  ((65 <=? N_of_ascii c) && (N_of_ascii c <=? 90)
   || (97 <=? N_of_ascii c) && (N_of_ascii c <=? 122))%N.

(** ['A'..'Z'] are moved to ['a'..'z'] by [c += 'a' - 'A']. *)
Definition lower_byte (c : ascii) : ascii :=
  if is_upper_byte c then ascii_of_N (N_of_ascii c + 32) else c.

Definition isASCII (s : string) : bool :=
  forallb is_ascii_byte (bytes_of s).

Definition lower_ascii (s : string) : string :=
  of_bytes (map lower_byte (bytes_of s)).

(** [strings.ToLower].  A string of ASCII bytes is lowered byte by byte
    (the function's fast path).  For any other string Go returns
    [strings.Map(unicode.ToLower, s)], which reads the case tables of
    package [unicode]; these tables are a parameter of the model. *)
Definition ToLower (Map_unicode_ToLower : string -> string) (s : string)
  : string :=
  if isASCII s then lower_ascii s else Map_unicode_ToLower s.

(** A byte sequence of white space only: what both trims leave nothing
    of. *)
Definition blank (l : list ascii) : Prop := trim_right (trim_left l) = [].

End strings.

(** ** gRPC status codes and Go error values *)

Module codes.

(** [type Code uint32] of google.golang.org/grpc/codes. *)
Definition Code := N.

Definition OK : Code := 0%N.
Definition Canceled : Code := 1%N.
Definition Unknown : Code := 2%N.
Definition InvalidArgument : Code := 3%N.
Definition DeadlineExceeded : Code := 4%N.
Definition NotFound : Code := 5%N.
Definition AlreadyExists : Code := 6%N.
Definition PermissionDenied : Code := 7%N.
Definition ResourceExhausted : Code := 8%N.
Definition FailedPrecondition : Code := 9%N.
Definition Aborted : Code := 10%N.
Definition OutOfRange : Code := 11%N.
Definition Unimplemented : Code := 12%N.
Definition Internal : Code := 13%N.
Definition Unavailable : Code := 14%N.
Definition DataLoss : Code := 15%N.
Definition Unauthenticated : Code := 16%N.

Definition names : list string :=
  [ "OK"; "Canceled"; "Unknown"; "InvalidArgument"; "DeadlineExceeded";
    "NotFound"; "AlreadyExists"; "PermissionDenied"; "ResourceExhausted";
    "FailedPrecondition"; "Aborted"; "OutOfRange"; "Unimplemented";
    "Internal"; "Unavailable"; "DataLoss"; "Unauthenticated" ].

(** [Code.String]. *)
Definition String (c : Code) : string :=
  match names !! N.to_nat c with
  | Some n => n
  | None => "Code(" +:+ pretty c +:+ ")"
  end.

End codes.

(** The values of Go's interface type [error] that occur in this program.
    A variable of type [error] is an [option error]: [None] is [nil]. *)
Inductive error : Type :=
| errorString (msg : string)
    (** [errors.New(msg)], and [fmt.Errorf] without [%w] *)
| wrapError (msg : string) (err : error)
    (** [fmt.Errorf("...: %w", err)]; [msg] is the whole formatted text *)
| statusError (c : codes.Code) (desc : string)
    (** [status.Error(c, desc)], what a gRPC call returns when it fails *)
| ValidationError (Line : Z) (Msg : string).
    (** [trace.ValidationError{Line, Msg}] *)

(** The method [Error() string] of an error value. *)
Definition error_text (e : error) : string :=
  match e with
  | errorString msg => msg
  | wrapError msg _ => msg
  | statusError c desc =>
      "rpc error: code = " +:+ codes.String c +:+ " desc = " +:+ desc
  | ValidationError line msg =>
      "trace validation error at line " +:+ pretty line +:+ ": " +:+ msg
  end.

Definition Errorf_w (format : string) (err : error) : error :=
  wrapError (format +:+ error_text err) err.

Module status.

(** The status an error carries, itself or through its chain of wrapped
    errors ([status.FromError] looks through [errors.As]). *)
Fixpoint carried (e : error) : option codes.Code :=
  match e with
  | statusError c _ => Some c
  | wrapError _ e' => carried e'
  | errorString _ | ValidationError _ _ => None
  end.

(** [status.Code]: [OK] for [nil], the carried code of a status error,
    [Unknown] for every other error. *)
Definition Code (err : option error) : codes.Code :=
  match err with
  | None => codes.OK
  | Some e =>
      match carried e with
      | Some c => c
      | None => codes.Unknown
      end
  end.

(** An error is a status error when [status.FromError] reports [ok]. *)
Definition is_status_error (e : error) : bool :=
  match carried e with Some _ => true | None => false end.

End status.

(** ** Package [unicode/utf8] *)

Module utf8.

Definition byte (c : ascii) : N := N_of_ascii c.

Definition between (lo hi : N) (c : ascii) : bool :=
  ((lo <=? byte c) && (byte c <=? hi))%N.

(** A continuation byte, [10xxxxxx]. *)
Definition cont (c : ascii) : bool := between 128 191 c.

(** The number of bytes of the well-formed UTF-8 sequence that [s] starts
    with; [None] when [s] starts with no such sequence, the case in which
    [utf8.DecodeRune] returns [(RuneError, 1)].  The ranges are the ones of
    the package's [first] and [acceptRanges] tables: no overlong forms, no
    surrogates, nothing above U+10FFFF. *)
Definition width (s : list ascii) : option nat :=
  match s with
  | [] => None
  | b0 :: r =>
      let n := byte b0 in
      if (n <? 128)%N then Some 1%nat
      else if (n <? 194)%N then None
      else if (n <=? 223)%N then
        match r with
        | b1 :: _ => if cont b1 then Some 2%nat else None
        | _ => None
        end
      else if (n <=? 239)%N then
        match r with
        | b1 :: b2 :: _ =>
            if between (if (n =? 224)%N then 160 else 128)
                       (if (n =? 237)%N then 159 else 191) b1 && cont b2
            then Some 3%nat else None
        | _ => None
        end
      else if (n <=? 244)%N then
        match r with
        | b1 :: b2 :: b3 :: _ =>
            if between (if (n =? 240)%N then 144 else 128)
                       (if (n =? 244)%N then 143 else 191) b1
               && cont b2 && cont b3
            then Some 4%nat else None
        | _ => None
        end
      else None
  end.

(** The encoding of U+FFFD, [unicode.ReplacementChar]. *)
Definition replacement : list ascii := ["239"; "191"; "189"]%char.

(** [coerce skip s]: [s] with every byte that belongs to no well-formed
    sequence replaced by U+FFFD; the first [skip] bytes are the rest of a
    sequence already accepted. *)
Fixpoint coerce (skip : nat) (s : list ascii) : list ascii :=
  match s with
  | [] => []
  | b :: r =>
      match skip with
      | S k => b :: coerce k r
      | O =>
          match width s with
          | Some w => b :: coerce (pred w) r
          | None => replacement ++ coerce 0 r
          end
      end
  end.

(** [utf8.AppendRune]: the encoding of the code point [r]; a surrogate or
    a value above U+10FFFF is encoded as U+FFFD. *)
Definition encode (r : N) : list ascii :=
  let b (n : N) := ascii_of_N n in
  if (r <? 128)%N then [b r]
  else if (r <? 2048)%N then [b (192 + r / 64); b (128 + r mod 64)]%N
  else if ((55296 <=? r) && (r <=? 57343))%N then replacement
  else if (r <? 65536)%N then
    [b (224 + r / 4096); b (128 + (r / 64) mod 64); b (128 + r mod 64)]%N
  else if (r <=? 1114111)%N then
    [b (240 + r / 262144); b (128 + (r / 4096) mod 64);
     b (128 + (r / 64) mod 64); b (128 + r mod 64)]%N
  else replacement.

(** A byte above 127: a byte of a sequence of more than one byte, or no
    UTF-8 at all. *)
Definition high (c : ascii) : Prop := (byte c <? 128)%N = false.

End utf8.

(** ** Package [encoding/json] *)

Module json.

(** A JSON document.  A number keeps its literal, a string and a key
    hold the decoded text. *)
#[warning="-register-all"]
Inductive value : Type :=
| Null
| Bool (b : bool)
| Number (literal : list ascii)
| Str (s : list ascii)
| Array (elements : list value)
| Object (members : list (list ascii * value)).

Definition chr (s : string) : list ascii := list_ascii_of_string s.

(** The double quote. *)
Definition dquote : ascii := "034"%char.

(** *** Encoding, as [json.Marshal] writes it: compact, with HTML escaping *)

Definition hex_digit (n : N) : ascii :=
  match chr "0123456789abcdef" !! N.to_nat n with
  | Some c => c
  | None => "0"%char
  end.

(** The bytes that [htmlSafeSet] lets through unchanged. *)
Definition htmlSafe (c : ascii) : bool :=
  utf8.between 32 127 c &&
  negb (Ascii.eqb c dquote || Ascii.eqb c "\" || Ascii.eqb c "<"
        || Ascii.eqb c ">" || Ascii.eqb c "&")%char.

Definition escape_byte (c : ascii) : list ascii :=
  if (Ascii.eqb c "\" || Ascii.eqb c dquote)%char then ["\"%char; c]
  else if Ascii.eqb c "008"%char then chr "\b"
  else if Ascii.eqb c "012"%char then chr "\f"
  else if Ascii.eqb c "010"%char then chr "\n"
  else if Ascii.eqb c "013"%char then chr "\r"
  else if Ascii.eqb c "009"%char then chr "\t"
  else chr "\u00" ++ [hex_digit (utf8.byte c / 16); hex_digit (utf8.byte c mod 16)].

(** The body of [appendString]; [skip] counts the bytes of a multi-byte
    sequence that are still to be copied. *)
Fixpoint escape (skip : nat) (s : list ascii) : list ascii :=
  match s with
  | [] => []
  | c :: r =>
      match skip with
      | S k => c :: escape k r
      | O =>
          if (utf8.byte c <? 128)%N then
            (if htmlSafe c then [c] else escape_byte c) ++ escape 0 r
          else
            match utf8.width s with
            | None => chr "\u" ++ chr "fffd" ++ escape 0 r
            | Some w =>
                match r with
                | c1 :: c2 :: r' =>
                    if (Ascii.eqb c "226" && Ascii.eqb c1 "128"
                        && (Ascii.eqb c2 "168" || Ascii.eqb c2 "169"))%char
                    then chr "\u202" ++ [hex_digit (utf8.byte c2 mod 16)]
                         ++ escape 0 r'
                    else c :: escape (pred w) r
                | _ => c :: escape (pred w) r
                end
            end
      end
  end.

Definition quote (s : list ascii) : list ascii :=
  [dquote] ++ escape 0 s ++ [dquote].

Fixpoint join (sep : list ascii) (l : list (list ascii)) : list ascii :=
  match l with
  | [] => []
  | [x] => x
  | x :: l' => x ++ sep ++ join sep l'
  end.

Fixpoint render (v : value) : list ascii :=
  match v with
  | Null => chr "null"
  | Bool true => chr "true"
  | Bool false => chr "false"
  | Number lit => lit
  | Str s => quote s
  | Array l => chr "[" ++ join (chr ",") (map render l) ++ chr "]"
  | Object ms =>
      chr "{"
      ++ join (chr ",") (map (fun m => quote (fst m) ++ chr ":" ++ render (snd m)) ms)
      ++ chr "}"
  end.

(** *** Decoding, as [json.Unmarshal] reads a text *)

Definition is_ws (c : ascii) : bool :=
  (Ascii.eqb c " " || Ascii.eqb c "009" || Ascii.eqb c "013"
   || Ascii.eqb c "010")%char.

Fixpoint skip_ws (s : list ascii) : list ascii :=
  match s with
  | c :: r => if is_ws c then skip_ws r else s
  | [] => []
  end.

Definition hex_value (c : ascii) : option N :=
  if utf8.between 48 57 c then Some (utf8.byte c - 48)%N
  else if utf8.between 97 102 c then Some (utf8.byte c - 87)%N
  else if utf8.between 65 70 c then Some (utf8.byte c - 55)%N
  else None.

(** [getu4]: the value of four hexadecimal digits. *)
Definition getu4 (h1 h2 h3 h4 : ascii) : option N :=
  match hex_value h1, hex_value h2, hex_value h3, hex_value h4 with
  | Some a, Some b, Some c, Some d => Some (((a * 16 + b) * 16 + c) * 16 + d)%N
  | _, _, _, _ => None
  end.

Definition simple_escape (c : ascii) : option ascii :=
  if (Ascii.eqb c dquote || Ascii.eqb c "\" || Ascii.eqb c "/")%char then Some c
  else if Ascii.eqb c "b" then Some "008"%char
  else if Ascii.eqb c "f" then Some "012"%char
  else if Ascii.eqb c "n" then Some "010"%char
  else if Ascii.eqb c "r" then Some "013"%char
  else if Ascii.eqb c "t" then Some "009"%char
  else None.

Definition is_surrogate (r : N) : bool := ((55296 <=? r) && (r <=? 57343))%N.

(** [utf16.DecodeRune]. *)
Definition utf16_pair (r1 r2 : N) : option N :=
  if ((55296 <=? r1) && (r1 <=? 56319) && (56320 <=? r2) && (r2 <=? 57343))%N
  then Some ((r1 - 55296) * 1024 + (r2 - 56320) + 65536)%N
  else None.

Definition cons_to (c : ascii) (x : option (list ascii * list ascii))
  : option (list ascii * list ascii) :=
  match x with Some (t, rest) => Some (c :: t, rest) | None => None end.

Definition app_to (p : list ascii) (x : option (list ascii * list ascii))
  : option (list ascii * list ascii) :=
  match x with Some (t, rest) => Some (p ++ t, rest) | None => None end.

(** A string literal after its opening quote: the decoded text and what
    follows the closing quote.  A control character, an unknown escape or
    the end of the input before the closing quote is a syntax error;
    ill-formed UTF-8 is read as U+FFFD; [skip] counts the bytes of a
    multi-byte sequence still to be copied. *)
Fixpoint unquote (skip : nat) (s : list ascii)
  : option (list ascii * list ascii) :=
  match s with
  | [] => None
  | c :: r =>
      match skip with
      | S k => cons_to c (unquote k r)
      | O =>
          if Ascii.eqb c dquote then Some ([], r)
          else if Ascii.eqb c "\" then
            match r with
            | [] => None
            | e :: r1 =>
                if Ascii.eqb e "u" then
                  match r1 with
                  | h1 :: h2 :: h3 :: h4 :: r5 =>
                      match getu4 h1 h2 h3 h4 with
                      | None => None
                      | Some u =>
                          if is_surrogate u then
                            match r5 with
                            | b :: v :: g1 :: g2 :: g3 :: g4 :: r11 =>
                                match
                                  (if (Ascii.eqb b "\" && Ascii.eqb v "u")%char
                                   then getu4 g1 g2 g3 g4 else None)
                                  ≫= utf16_pair u
                                with
                                | Some d => app_to (utf8.encode d) (unquote 0 r11)
                                | None => app_to utf8.replacement (unquote 0 r5)
                                end
                            | _ => app_to utf8.replacement (unquote 0 r5)
                            end
                          else app_to (utf8.encode u) (unquote 0 r5)
                      end
                  | _ => None
                  end
                else
                  match simple_escape e with
                  | Some x => cons_to x (unquote 0 r1)
                  | None => None
                  end
            end
          else if (utf8.byte c <? 32)%N then None
          else if (utf8.byte c <? 128)%N then cons_to c (unquote 0 r)
          else
            match utf8.width s with
            | Some w => cons_to c (unquote (pred w) r)
            | None => app_to utf8.replacement (unquote 0 r)
            end
      end
  end.

Definition is_digit (c : ascii) : bool := utf8.between 48 57 c.

Fixpoint span_digits (s : list ascii) : list ascii * list ascii :=
  match s with
  | c :: r =>
      if is_digit c then let '(ds, rest) := span_digits r in (c :: ds, rest)
      else ([], s)
  | [] => ([], [])
  end.

(** A number literal: an optional minus sign; a zero, or a digit from 1
    to 9 and any digits; then optionally a point and one digit or more;
    then optionally [e] or [E], an optional sign and one digit or more. *)
Definition scan_number (s : list ascii) : option (list ascii * list ascii) :=
  let '(sign, s1) :=
    match s with
    | c :: r => if Ascii.eqb c "-" then ([c], r) else ([], s)
    | [] => ([], s)
    end in
  match s1 with
  | [] => None
  | c :: r =>
      (if Ascii.eqb c "0" then Some ([c], r)
       else if is_digit c then
         let '(ds, rest) := span_digits r in Some (c :: ds, rest)
       else None)
      ≫= fun '(int, s2) =>
      (match s2 with
       | c2 :: r2 =>
           if Ascii.eqb c2 "." then
             match span_digits r2 with
             | ([], _) => None
             | (ds, rest) => Some (c2 :: ds, rest)
             end
           else Some ([], s2)
       | [] => Some ([], s2)
       end)
      ≫= fun '(frac, s3) =>
      (match s3 with
       | c3 :: r3 =>
           if (Ascii.eqb c3 "e" || Ascii.eqb c3 "E")%char then
             let '(esign, r4) :=
               match r3 with
               | c4 :: r4 =>
                   if (Ascii.eqb c4 "+" || Ascii.eqb c4 "-")%char
                   then ([c4], r4) else ([], r3)
               | [] => ([], r3)
               end in
             match span_digits r4 with
             | ([], _) => None
             | (ds, rest) => Some (c3 :: esign ++ ds, rest)
             end
           else Some ([], s3)
       | [] => Some ([], s3)
       end)
      ≫= fun '(exp, s4) => Some (sign ++ int ++ frac ++ exp, s4)
  end.

(** [expect lit s]: [s] without its prefix [lit]. *)
Fixpoint expect (lit s : list ascii) : option (list ascii) :=
  match lit, s with
  | [], _ => Some s
  | a :: lit', b :: s' => if Ascii.eqb a b then expect lit' s' else None
  | _ :: _, [] => None
  end.

(** The scanner gives up beyond this nesting of arrays and objects. *)
Definition maxNestingDepth : nat := 100 * 100.

(** The members of an object after its opening brace, one per
    iteration: a key, a colon, a value read by [value], then a comma or
    the closing brace. *)
Fixpoint members_loop (value : list ascii -> option (value * list ascii))
    (fuel : nat) (s : list ascii)
  : option (list (list ascii * json.value) * list ascii) :=
  match fuel with
  | O => None
  | S fuel' =>
      s0 ← expect [dquote] (skip_ws s);
      '(k, s1) ← unquote 0 s0;
      s1' ← expect (chr ":") (skip_ws s1);
      '(v, s2) ← value s1';
      match skip_ws s2 with
      | c2 :: r2 =>
          if Ascii.eqb c2 "," then
            '(ms, s3) ← members_loop value fuel' r2;
            Some ((k, v) :: ms, s3)
          else if Ascii.eqb c2 "}" then Some ([(k, v)], r2)
          else None
      | [] => None
      end
  end.

(** The elements of an array after its opening bracket. *)
Fixpoint elements_loop (value : list ascii -> option (value * list ascii))
    (fuel : nat) (s : list ascii) : option (list json.value * list ascii) :=
  match fuel with
  | O => None
  | S fuel' =>
      '(v, s2) ← value s;
      match skip_ws s2 with
      | c2 :: r2 =>
          if Ascii.eqb c2 "," then
            '(vs, s3) ← elements_loop value fuel' r2;
            Some (v :: vs, s3)
          else if Ascii.eqb c2 "]" then Some ([v], r2)
          else None
      | [] => None
      end
  end.

(** One value at the head of [s], after white space; [depth] is the
    nesting still allowed.  The length of the input is fuel enough for
    the two loops, which take at least one byte per iteration. *)
Fixpoint parse_value (depth : nat) (s : list ascii)
  : option (value * list ascii) :=
  match skip_ws s with
  | [] => None
  | c :: r =>
      if Ascii.eqb c "{" then
        match depth with
        | O => None
        | S d =>
            match skip_ws r with
            | c1 :: r1 =>
                if Ascii.eqb c1 "}" then Some (Object [], r1)
                else
                  '(ms, rest) ← members_loop (parse_value d) (length r) (c1 :: r1);
                  Some (Object ms, rest)
            | [] => None
            end
        end
      else if Ascii.eqb c "[" then
        match depth with
        | O => None
        | S d =>
            match skip_ws r with
            | c1 :: r1 =>
                if Ascii.eqb c1 "]" then Some (Array [], r1)
                else
                  '(vs, rest) ← elements_loop (parse_value d) (length r) (c1 :: r1);
                  Some (Array vs, rest)
            | [] => None
            end
        end
      else if Ascii.eqb c dquote then
        '(t, rest) ← unquote 0 r; Some (Str t, rest)
      else if Ascii.eqb c "t" then
        rest ← expect (chr "rue") r; Some (Bool true, rest)
      else if Ascii.eqb c "f" then
        rest ← expect (chr "alse") r; Some (Bool false, rest)
      else if Ascii.eqb c "n" then
        rest ← expect (chr "ull") r; Some (Null, rest)
      else
        '(lit, rest) ← scan_number (c :: r); Some (Number lit, rest)
  end.

(** The syntax check and the reading of a whole text: one value, then
    nothing but white space. *)
Definition parse (text : list ascii) : option value :=
  match parse_value maxNestingDepth text with
  | Some (v, rest) =>
      match skip_ws rest with
      | [] => Some v
      | _ :: _ => None
      end
  | None => None
  end.

(** *** What a rendered value is read back as *)

(** The value that [parse] finds in the text of [render v]: the strings
    and the keys with their ill-formed bytes replaced by U+FFFD, as
    [render] writes them. *)
Fixpoint read_back (v : value) : value :=
  match v with
  | Str s => Str (utf8.coerce 0 s)
  | Array l => Array (map read_back l)
  | Object ms =>
      Object (map (fun m => (utf8.coerce 0 (fst m), read_back (snd m))) ms)
  | Null | Bool _ | Number _ => v
  end.

(** How deep the arrays and the objects of a value nest. *)
Fixpoint depth (v : value) : nat :=
  match v with
  | Array l => S (fold_right (fun x n => Nat.max (depth x) n) O l)
  | Object ms => S (fold_right (fun m n => Nat.max (depth (snd m)) n) O ms)
  | Null | Bool _ | Number _ | Str _ => O
  end.

(** What may follow a value inside a text: nothing, a comma or a closing
    bracket. *)
Definition delimited (rest : list ascii) : Prop :=
  match rest with
  | [] => True
  | c :: _ => c = ","%char \/ c = "}"%char \/ c = "]"%char
  end.

Definition nonzero_digit (c : ascii) : bool := utf8.between 49 57 c.

(** Bytes that are no control characters. *)
Definition plain (l : list ascii) : Prop :=
  Forall (fun c => (utf8.byte c <? 32)%N = false) l.

(** A literal that [scan_number] reads as a whole, that starts as a
    number does and that holds no control character. *)
Definition number_literal (lit : list ascii) : Prop :=
  (exists c l, lit = c :: l /\ (c = "-"%char \/ is_digit c = true))
  /\ (forall rest, delimited rest -> scan_number (lit ++ rest) = Some (lit, rest))
  /\ plain lit.

(** Every number of the value is such a literal. *)
Fixpoint numbers_ok (v : value) : Prop :=
  match v with
  | Number lit => number_literal lit
  | Array l => fold_right (fun x P => numbers_ok x /\ P) True l
  | Object ms => fold_right (fun m P => numbers_ok (snd m) /\ P) True ms
  | _ => True
  end.

(** The first byte of a rendered value. *)
Definition value_start (c : ascii) : Prop :=
  is_ws c = false /\ Ascii.eqb c "]" = false /\ Ascii.eqb c "}" = false.

(** One member of an object, as [render] writes it. *)
Definition render_member (m : list ascii * value) : list ascii :=
  quote (fst m) ++ chr ":" ++ render (snd m).

End json.

(** ** Package [os]: the environment *)

Module os.

(** The environment of the process, by variable name. *)
Definition Env := gmap string string.

(** [os.Getenv]: the empty string for a variable that is not set. *)
Definition Getenv (env : Env) (key : string) : string := default "" (env !! key).

End os.

(** ** Package [trace]: types.go *)

Module trace.

Definition SchemaV1_0 : string := "1.0".
Definition EventTypeAuthzCheck : string := "authz_check".
Definition EventTypeAuthzError : string := "authz_error".
Definition OutcomeAllow : string := "ALLOW".
Definition OutcomeDeny : string := "DENY".

(** A pointer field is an [option]: [None] is [nil]. *)

Record TraceContext := {
  TraceID : string; SpanID : string; ParentSpanID : string; RequestID : string }.

Record Source := { Channel : string; Name : string }.

Record Actor := {
  Principal : string; PrincipalType : string; Groups : list string;
  Actor_Source : option Source }.

Record Target := {
  Resource : string; ResourceType : string; Project : string;
  Location : option string; Service : string }.

Record APIDetails := { Protocol : string; Operation : string }.

Record Action := { Permission : string; Method : string; API : option APIDetails }.

Record Decision := {
  Outcome : string; Reason : string; EvaluatedBy : string; LatencyMS : Z }.

Record Condition := { Title : string; Expression : string; Result : bool }.

Record MatchedBinding := {
  Scope : string; ScopeID : string; Role : string; Member : string;
  MatchedBinding_Condition : option Condition }.

Record Policy := { PolicyHash : string; MatchedBindings : list MatchedBinding }.

Record CI := { Provider : string; RunID : string; Job : string }.

Record Environment := {
  Mode : string; Component : string; Cluster : string;
  Environment_CI : option CI }.

Record AuthzError := { Kind : string; Message : string; Retryable : bool }.

(** The union envelope. *)
Record AuthzEvent := {
  SchemaVersion : string;
  EventType : string;
  Timestamp : string;
  Trace : option TraceContext;
  AuthzEvent_Actor : option Actor;
  AuthzEvent_Target : option Target;
  AuthzEvent_Action : option Action;
  AuthzEvent_Decision : option Decision;
  AuthzEvent_Policy : option Policy;
  AuthzEvent_Environment : option Environment;
  Error : option AuthzError }.

(** The zero values of the struct types. *)
Definition zero_TraceContext : TraceContext :=
  {| TraceID := ""; SpanID := ""; ParentSpanID := ""; RequestID := "" |}.
Definition zero_Source : Source := {| Channel := ""; Name := "" |}.
Definition zero_Actor : Actor :=
  {| Principal := ""; PrincipalType := ""; Groups := []; Actor_Source := None |}.
Definition zero_Target : Target :=
  {| Resource := ""; ResourceType := ""; Project := ""; Location := None;
     Service := "" |}.
Definition zero_APIDetails : APIDetails := {| Protocol := ""; Operation := "" |}.
Definition zero_Action : Action :=
  {| Permission := ""; Method := ""; API := None |}.
Definition zero_Decision : Decision :=
  {| Outcome := ""; Reason := ""; EvaluatedBy := ""; LatencyMS := 0 |}.
Definition zero_Condition : Condition :=
  {| Title := ""; Expression := ""; Result := false |}.
Definition zero_MatchedBinding : MatchedBinding :=
  {| Scope := ""; ScopeID := ""; Role := ""; Member := "";
     MatchedBinding_Condition := None |}.
Definition zero_Policy : Policy := {| PolicyHash := ""; MatchedBindings := [] |}.
Definition zero_CI : CI := {| Provider := ""; RunID := ""; Job := "" |}.
Definition zero_Environment : Environment :=
  {| Mode := ""; Component := ""; Cluster := ""; Environment_CI := None |}.
Definition zero_AuthzError : AuthzError :=
  {| Kind := ""; Message := ""; Retryable := false |}.
Definition zero_AuthzEvent : AuthzEvent :=
  {| SchemaVersion := ""; EventType := ""; Timestamp := ""; Trace := None;
     AuthzEvent_Actor := None; AuthzEvent_Target := None;
     AuthzEvent_Action := None; AuthzEvent_Decision := None;
     AuthzEvent_Policy := None; AuthzEvent_Environment := None;
     Error := None |}.

(** A reading of the wall clock, in UTC. *)
Record Time := {
  year : Z; month : N; day : N; hour : N; minute : N; second : N;
  nanosecond : N }.

Fixpoint zeros (n : nat) : string :=
  match n with O => "" | S n' => String "0" (zeros n') end.

(** The decimal text of [n], at least [width] digits wide. *)
Definition pad (width : nat) (n : N) : string :=
  let d := pretty n in zeros (width - String.length d) +:+ d.

Fixpoint drop_trailing_zeros (s : string) : string :=
  match s with
  | "" => ""
  | String c r =>
      match drop_trailing_zeros r with
      | "" => if Ascii.eqb c "0" then "" else String c ""
      | r' => String c r'
      end
  end.

(** [t.Format(time.RFC3339Nano)] of a UTC time: the fraction of the
    second without its trailing zeros, and [Z] for the zone. *)
Definition Format_RFC3339Nano (t : Time) : string :=
  (if (year t <? 0)%Z then "-" else "") +:+ pad 4 (Z.abs_N (year t))
  +:+ "-" +:+ pad 2 (month t) +:+ "-" +:+ pad 2 (day t)
  +:+ "T" +:+ pad 2 (hour t) +:+ ":" +:+ pad 2 (minute t)
  +:+ ":" +:+ pad 2 (second t)
  +:+ (if (nanosecond t =? 0)%N then ""
       else "." +:+ drop_trailing_zeros (pad 9 (nanosecond t)))
  +:+ "Z".

(** [NowRFC3339Nano], given what [time.Now().UTC()] reads. *)
Definition NowRFC3339Nano (now : Time) : string := Format_RFC3339Nano now.

(** *** The struct tags: how [encoding/json] writes and reads the types *)

Definition bytes (s : string) : list ascii := list_ascii_of_string s.
Definition text (l : list ascii) : string := string_of_list_ascii l.

Definition members := list (list ascii * json.value).

Definition field (name : string) (v : json.value) : members := [(bytes name, v)].

(** [omitempty] leaves out an empty string, a zero, [false], a [nil]
    pointer and an empty slice. *)
Definition omitempty_string (name s : string) : members :=
  if String.eqb s "" then [] else field name (json.Str (bytes s)).

Definition omitempty_int64 (name : string) (n : Z) : members :=
  if (n =? 0)%Z then [] else field name (json.Number (bytes (pretty n))).

Definition omitempty_bool (name : string) (b : bool) : members :=
  if b then field name (json.Bool true) else [].

Definition omitempty_ptr {A} (name : string) (enc : A -> json.value)
    (p : option A) : members :=
  match p with Some a => field name (enc a) | None => [] end.

Definition omitempty_slice {A} (name : string) (enc : A -> json.value)
    (l : list A) : members :=
  match l with [] => [] | _ :: _ => field name (json.Array (map enc l)) end.

Definition enc_string (s : string) : json.value := json.Str (bytes s).

Definition enc_TraceContext (x : TraceContext) : json.value :=
  json.Object (omitempty_string "trace_id" (TraceID x)
    ++ omitempty_string "span_id" (SpanID x)
    ++ omitempty_string "parent_span_id" (ParentSpanID x)
    ++ omitempty_string "request_id" (RequestID x)).

Definition enc_Source (x : Source) : json.value :=
  json.Object (omitempty_string "channel" (Channel x)
    ++ omitempty_string "name" (Name x)).

Definition enc_Actor (x : Actor) : json.value :=
  json.Object (field "principal" (enc_string (Principal x))
    ++ omitempty_string "principal_type" (PrincipalType x)
    ++ omitempty_slice "groups" enc_string (Groups x)
    ++ omitempty_ptr "source" enc_Source (Actor_Source x)).

Definition enc_Target (x : Target) : json.value :=
  json.Object (field "resource" (enc_string (Resource x))
    ++ omitempty_string "resource_type" (ResourceType x)
    ++ omitempty_string "project" (Project x)
    ++ omitempty_ptr "location" enc_string (Location x)
    ++ omitempty_string "service" (Service x)).

Definition enc_APIDetails (x : APIDetails) : json.value :=
  json.Object (omitempty_string "protocol" (Protocol x)
    ++ omitempty_string "operation" (Operation x)).

Definition enc_Action (x : Action) : json.value :=
  json.Object (field "permission" (enc_string (Permission x))
    ++ omitempty_string "method" (Method x)
    ++ omitempty_ptr "api" enc_APIDetails (API x)).

Definition enc_Decision (x : Decision) : json.value :=
  json.Object (field "outcome" (enc_string (Outcome x))
    ++ omitempty_string "reason" (Reason x)
    ++ omitempty_string "evaluated_by" (EvaluatedBy x)
    ++ omitempty_int64 "latency_ms" (LatencyMS x)).

Definition enc_Condition (x : Condition) : json.value :=
  json.Object (omitempty_string "title" (Title x)
    ++ omitempty_string "expression" (Expression x)
    ++ omitempty_bool "result" (Result x)).

Definition enc_MatchedBinding (x : MatchedBinding) : json.value :=
  json.Object (omitempty_string "scope" (Scope x)
    ++ omitempty_string "scope_id" (ScopeID x)
    ++ omitempty_string "role" (Role x)
    ++ omitempty_string "member" (Member x)
    ++ omitempty_ptr "condition" enc_Condition (MatchedBinding_Condition x)).

Definition enc_Policy (x : Policy) : json.value :=
  json.Object (omitempty_string "policy_hash" (PolicyHash x)
    ++ omitempty_slice "matched_bindings" enc_MatchedBinding (MatchedBindings x)).

Definition enc_CI (x : CI) : json.value :=
  json.Object (omitempty_string "provider" (Provider x)
    ++ omitempty_string "run_id" (RunID x)
    ++ omitempty_string "job" (Job x)).

Definition enc_Environment (x : Environment) : json.value :=
  json.Object (omitempty_string "mode" (Mode x)
    ++ omitempty_string "component" (Component x)
    ++ omitempty_string "cluster" (Cluster x)
    ++ omitempty_ptr "ci" enc_CI (Environment_CI x)).

Definition enc_AuthzError (x : AuthzError) : json.value :=
  json.Object (field "kind" (enc_string (Kind x))
    ++ field "message" (enc_string (Message x))
    ++ omitempty_bool "retryable" (Retryable x)).

Definition enc_AuthzEvent (ev : AuthzEvent) : json.value :=
  json.Object (field "schema_version" (enc_string (SchemaVersion ev))
    ++ field "event_type" (enc_string (EventType ev))
    ++ field "timestamp" (enc_string (Timestamp ev))
    ++ omitempty_ptr "trace" enc_TraceContext (Trace ev)
    ++ omitempty_ptr "actor" enc_Actor (AuthzEvent_Actor ev)
    ++ omitempty_ptr "target" enc_Target (AuthzEvent_Target ev)
    ++ omitempty_ptr "action" enc_Action (AuthzEvent_Action ev)
    ++ omitempty_ptr "decision" enc_Decision (AuthzEvent_Decision ev)
    ++ omitempty_ptr "policy" enc_Policy (AuthzEvent_Policy ev)
    ++ omitempty_ptr "environment" enc_Environment (AuthzEvent_Environment ev)
    ++ omitempty_ptr "error" enc_AuthzError (Error ev)).

(** [json.Marshal(ev)].  No value of the type makes it fail. *)
Definition json_Marshal (ev : AuthzEvent) : list ascii * option error :=
  (json.render (enc_AuthzEvent ev), None).

(** [foldName]: a key matches a field name when both fold to the same
    text.  ASCII letters fold to upper case; U+017F (long s) folds to [S]
    and U+212A (Kelvin sign) to [K].  The other runes fold among
    themselves, never to ASCII; they are left as they are here, which is
    all the same for a comparison with the ASCII names of the tags. *)
Fixpoint foldName (s : list ascii) : list ascii :=
  match s with
  | [] => []
  | c :: r =>
      if utf8.between 97 122 c then ascii_of_N (utf8.byte c - 32) :: foldName r
      else
        match r with
        | c1 :: r1 =>
            if (Ascii.eqb c "197" && Ascii.eqb c1 "191")%char
            then "S"%char :: foldName r1
            else
              match r1 with
              | c2 :: r2 =>
                  if (Ascii.eqb c "226" && Ascii.eqb c1 "132"
                      && Ascii.eqb c2 "170")%char
                  then "K"%char :: foldName r2
                  else c :: foldName r
              | [] => c :: foldName r
              end
        | [] => c :: foldName r
        end
  end.

Fixpoint bytes_eqb (x y : list ascii) : bool :=
  match x, y with
  | [], [] => true
  | a :: x', b :: y' => Ascii.eqb a b && bytes_eqb x' y'
  | _, _ => false
  end.

Definition key_is (name : string) (key : list ascii) : bool :=
  bytes_eqb (foldName key) (foldName (bytes name)).

(** The members of an object are read in their order; each one whose key
    matches [name] is stored by [set] into the field, a later one over an
    earlier one.  [None] is a type error. *)
Fixpoint read_field {A} (name : string) (set : json.value -> A -> option A)
    (ms : members) (cur : A) : option A :=
  match ms with
  | [] => Some cur
  | (k, v) :: ms' =>
      if key_is name k
      then cur' ← set v cur; read_field name set ms' cur'
      else read_field name set ms' cur
  end.

(** [null] leaves a string, a number, a boolean and a struct as they
    are, and makes a pointer and a slice [nil]. *)
Definition set_string (v : json.value) (cur : string) : option string :=
  match v with
  | json.Str s => Some (text s)
  | json.Null => Some cur
  | _ => None
  end.

Definition is_digit_string (s : list ascii) : bool :=
  negb (bool_decide (s = [])) && forallb json.is_digit s.

Definition digits_value (s : list ascii) : N :=
  fold_left (fun acc c => (acc * 10 + (utf8.byte c - 48))%N) s 0%N.

(** [strconv.ParseInt(lit, 10, 64)] on a number literal: a fraction, an
    exponent or a value outside of [int64] is an error. *)
Definition ParseInt64 (lit : list ascii) : option Z :=
  match lit with
  | c :: ds =>
      if Ascii.eqb c "-" then
        if is_digit_string ds && (digits_value ds <=? 2 ^ 63)%N
        then Some (- Z.of_N (digits_value ds))%Z else None
      else
        if is_digit_string lit && (digits_value lit <? 2 ^ 63)%N
        then Some (Z.of_N (digits_value lit)) else None
  | [] => None
  end.

Definition set_int64 (v : json.value) (cur : Z) : option Z :=
  match v with
  | json.Number lit => ParseInt64 lit
  | json.Null => Some cur
  | _ => None
  end.

Definition set_bool (v : json.value) (cur : bool) : option bool :=
  match v with
  | json.Bool b => Some b
  | json.Null => Some cur
  | _ => None
  end.

(** A value for a pointer field is read into what the pointer already
    points to, or into a new zero value. *)
Definition set_ptr {A} (zero : A) (set : json.value -> A -> option A)
    (v : json.value) (cur : option A) : option (option A) :=
  match v with
  | json.Null => Some None
  | _ => a ← set v (default zero cur); Some (Some a)
  end.

Definition set_slice {A} (zero : A) (set : json.value -> A -> option A)
    (v : json.value) (cur : list A) : option (list A) :=
  match v with
  | json.Null => Some []
  | json.Array l => mapM (fun x => set x zero) l
  | _ => None
  end.

Definition set_struct {A} (read : members -> A -> option A)
    (v : json.value) (cur : A) : option A :=
  match v with
  | json.Object ms => read ms cur
  | json.Null => Some cur
  | _ => None
  end.

Definition dec_TraceContext : json.value -> TraceContext -> option TraceContext :=
  set_struct (fun ms x =>
    a ← read_field "trace_id" set_string ms (TraceID x);
    b ← read_field "span_id" set_string ms (SpanID x);
    c ← read_field "parent_span_id" set_string ms (ParentSpanID x);
    d ← read_field "request_id" set_string ms (RequestID x);
    Some {| TraceID := a; SpanID := b; ParentSpanID := c; RequestID := d |}).

Definition dec_Source : json.value -> Source -> option Source :=
  set_struct (fun ms x =>
    a ← read_field "channel" set_string ms (Channel x);
    b ← read_field "name" set_string ms (Name x);
    Some {| Channel := a; Name := b |}).

Definition dec_Actor : json.value -> Actor -> option Actor :=
  set_struct (fun ms x =>
    a ← read_field "principal" set_string ms (Principal x);
    b ← read_field "principal_type" set_string ms (PrincipalType x);
    c ← read_field "groups" (set_slice "" set_string) ms (Groups x);
    d ← read_field "source" (set_ptr zero_Source dec_Source) ms (Actor_Source x);
    Some {| Principal := a; PrincipalType := b; Groups := c; Actor_Source := d |}).

Definition dec_Target : json.value -> Target -> option Target :=
  set_struct (fun ms x =>
    a ← read_field "resource" set_string ms (Resource x);
    b ← read_field "resource_type" set_string ms (ResourceType x);
    c ← read_field "project" set_string ms (Project x);
    d ← read_field "location" (set_ptr "" set_string) ms (Location x);
    e ← read_field "service" set_string ms (Service x);
    Some {| Resource := a; ResourceType := b; Project := c; Location := d;
            Service := e |}).

Definition dec_APIDetails : json.value -> APIDetails -> option APIDetails :=
  set_struct (fun ms x =>
    a ← read_field "protocol" set_string ms (Protocol x);
    b ← read_field "operation" set_string ms (Operation x);
    Some {| Protocol := a; Operation := b |}).

Definition dec_Action : json.value -> Action -> option Action :=
  set_struct (fun ms x =>
    a ← read_field "permission" set_string ms (Permission x);
    b ← read_field "method" set_string ms (Method x);
    c ← read_field "api" (set_ptr zero_APIDetails dec_APIDetails) ms (API x);
    Some {| Permission := a; Method := b; API := c |}).

Definition dec_Decision : json.value -> Decision -> option Decision :=
  set_struct (fun ms x =>
    a ← read_field "outcome" set_string ms (Outcome x);
    b ← read_field "reason" set_string ms (Reason x);
    c ← read_field "evaluated_by" set_string ms (EvaluatedBy x);
    d ← read_field "latency_ms" set_int64 ms (LatencyMS x);
    Some {| Outcome := a; Reason := b; EvaluatedBy := c; LatencyMS := d |}).

Definition dec_Condition : json.value -> Condition -> option Condition :=
  set_struct (fun ms x =>
    a ← read_field "title" set_string ms (Title x);
    b ← read_field "expression" set_string ms (Expression x);
    c ← read_field "result" set_bool ms (Result x);
    Some {| Title := a; Expression := b; Result := c |}).

Definition dec_MatchedBinding
  : json.value -> MatchedBinding -> option MatchedBinding :=
  set_struct (fun ms x =>
    a ← read_field "scope" set_string ms (Scope x);
    b ← read_field "scope_id" set_string ms (ScopeID x);
    c ← read_field "role" set_string ms (Role x);
    d ← read_field "member" set_string ms (Member x);
    e ← read_field "condition" (set_ptr zero_Condition dec_Condition) ms
          (MatchedBinding_Condition x);
    Some {| Scope := a; ScopeID := b; Role := c; Member := d;
            MatchedBinding_Condition := e |}).

Definition dec_Policy : json.value -> Policy -> option Policy :=
  set_struct (fun ms x =>
    a ← read_field "policy_hash" set_string ms (PolicyHash x);
    b ← read_field "matched_bindings"
          (set_slice zero_MatchedBinding dec_MatchedBinding) ms
          (MatchedBindings x);
    Some {| PolicyHash := a; MatchedBindings := b |}).

Definition dec_CI : json.value -> CI -> option CI :=
  set_struct (fun ms x =>
    a ← read_field "provider" set_string ms (Provider x);
    b ← read_field "run_id" set_string ms (RunID x);
    c ← read_field "job" set_string ms (Job x);
    Some {| Provider := a; RunID := b; Job := c |}).

Definition dec_Environment : json.value -> Environment -> option Environment :=
  set_struct (fun ms x =>
    a ← read_field "mode" set_string ms (Mode x);
    b ← read_field "component" set_string ms (Component x);
    c ← read_field "cluster" set_string ms (Cluster x);
    d ← read_field "ci" (set_ptr zero_CI dec_CI) ms (Environment_CI x);
    Some {| Mode := a; Component := b; Cluster := c; Environment_CI := d |}).

Definition dec_AuthzError : json.value -> AuthzError -> option AuthzError :=
  set_struct (fun ms x =>
    a ← read_field "kind" set_string ms (Kind x);
    b ← read_field "message" set_string ms (Message x);
    c ← read_field "retryable" set_bool ms (Retryable x);
    Some {| Kind := a; Message := b; Retryable := c |}).

Definition dec_AuthzEvent : json.value -> AuthzEvent -> option AuthzEvent :=
  set_struct (fun ms ev =>
    a ← read_field "schema_version" set_string ms (SchemaVersion ev);
    b ← read_field "event_type" set_string ms (EventType ev);
    c ← read_field "timestamp" set_string ms (Timestamp ev);
    d ← read_field "trace" (set_ptr zero_TraceContext dec_TraceContext) ms
          (Trace ev);
    e ← read_field "actor" (set_ptr zero_Actor dec_Actor) ms
          (AuthzEvent_Actor ev);
    f ← read_field "target" (set_ptr zero_Target dec_Target) ms
          (AuthzEvent_Target ev);
    g ← read_field "action" (set_ptr zero_Action dec_Action) ms
          (AuthzEvent_Action ev);
    h ← read_field "decision" (set_ptr zero_Decision dec_Decision) ms
          (AuthzEvent_Decision ev);
    i ← read_field "policy" (set_ptr zero_Policy dec_Policy) ms
          (AuthzEvent_Policy ev);
    j ← read_field "environment" (set_ptr zero_Environment dec_Environment) ms
          (AuthzEvent_Environment ev);
    k ← read_field "error" (set_ptr zero_AuthzError dec_AuthzError) ms
          (Error ev);
    Some {| SchemaVersion := a; EventType := b; Timestamp := c; Trace := d;
            AuthzEvent_Actor := e; AuthzEvent_Target := f;
            AuthzEvent_Action := g; AuthzEvent_Decision := h;
            AuthzEvent_Policy := i; AuthzEvent_Environment := j;
            Error := k |}).

(** What [json.Unmarshal] reports for a text that is no JSON value or
    whose values do not fit the struct; the wording of the library's
    messages is not modelled. *)
Definition json_error : error := errorString "json: cannot unmarshal".

(** [var ev AuthzEvent; err := json.Unmarshal(data, &ev)]. *)
Definition json_Unmarshal (data : list ascii) : AuthzEvent * option error :=
  match json.parse data ≫= fun v => dec_AuthzEvent v zero_AuthzEvent with
  | Some ev => (ev, None)
  | None => (zero_AuthzEvent, Some json_error)
  end.

(** ** Package [trace]: writer.go *)

(** The sink, an [io.WriteCloser]: [os.Stdout] or a file opened for
    appending.  [content] is what has been written to it.  [room] bounds
    what the device still takes (no bound when [None]): a write that does
    not fit is cut short and fails. *)
Record File := {
  is_stdout : bool;
  content : list ascii;
  file_closed : bool;
  room : option nat }.

Definition ErrClosed : error := errorString "file already closed".
Definition ErrNoSpace : error := errorString "no space left on device".
Definition ErrShortWrite : error := errorString "short write".

(** [os.File.Write]: the updated file, the number of bytes written
    and the error. *)
Definition File_Write (f : File) (p : list ascii) : File * nat * option error :=
  if file_closed f then (f, O, Some ErrClosed)
  else
    match room f with
    | None =>
        ({| is_stdout := is_stdout f; content := content f ++ p;
            file_closed := false; room := None |}, length p, None)
    | Some k =>
        if (length p <=? k)%nat then
          ({| is_stdout := is_stdout f; content := content f ++ p;
              file_closed := false; room := Some (k - length p)%nat |},
           length p, None)
        else
          ({| is_stdout := is_stdout f; content := content f ++ take k p;
              file_closed := false; room := Some O |}, k, Some ErrNoSpace)
    end.

(** [os.File.Close]. *)
Definition File_Close (f : File) : File * option error :=
  if file_closed f then (f, Some ErrClosed)
  else ({| is_stdout := is_stdout f; content := content f;
           file_closed := true; room := room f |}, None).

(** [bufio.Writer]: the bytes not yet written to the sink and the error
    of the first failed write, which every later call returns again.
    The sink it wraps is passed to each operation. *)
Record bufio_Writer := { buf : list ascii; err : option error }.

Definition defaultBufSize : nat := 4096.

Definition Available (b : bufio_Writer) : nat := defaultBufSize - length (buf b).

(** [bufio.Writer.Flush]. *)
Definition bufio_Flush (b : bufio_Writer) (wr : File)
  : bufio_Writer * File * option error :=
  match err b with
  | Some e => (b, wr, Some e)
  | None =>
      match buf b with
      | [] => (b, wr, None)
      | _ :: _ =>
          let '(wr', n, e) := File_Write wr (buf b) in
          let e' :=
            match e with
            | None => if (n <? length (buf b))%nat then Some ErrShortWrite else None
            | Some _ => e
            end in
          match e' with
          | Some _ => ({| buf := drop n (buf b); err := e' |}, wr', e')
          | None => ({| buf := []; err := None |}, wr', None)
          end
      end
  end.

(** The loop of [bufio.Writer.Write], [for len(p) > b.Available() &&
    b.err == nil]: a write to an empty buffer goes straight to the sink,
    otherwise the buffer is filled and flushed.  It runs at most three
    times (fill a full buffer, flush it, write the rest to the sink),
    which is the fuel [bufio_Write] gives it. *)
Fixpoint write_loop (fuel : nat) (b : bufio_Writer) (wr : File)
    (p : list ascii) (nn : nat) : bufio_Writer * File * list ascii * nat :=
  match fuel with
  | O => (b, wr, p, nn)
  | S fuel' =>
      if (Available b <? length p)%nat && bool_decide (err b = None) then
        match buf b with
        | [] =>
            let '(wr', n, e) := File_Write wr p in
            write_loop fuel' {| buf := []; err := e |} wr' (drop n p) (nn + n)
        | _ :: _ =>
            let n := Available b in
            let '(b', wr', _) :=
              bufio_Flush {| buf := buf b ++ take n p; err := None |} wr in
            write_loop fuel' b' wr' (drop n p) (nn + n)
        end
      else (b, wr, p, nn)
  end.

(** [bufio.Writer.Write]. *)
Definition bufio_Write (b : bufio_Writer) (wr : File) (p : list ascii)
  : bufio_Writer * File * nat * option error :=
  let '(b', wr', p', nn) := write_loop 3 b wr p O in
  match err b' with
  | Some e => (b', wr', nn, Some e)
  | None => ({| buf := buf b' ++ p'; err := None |}, wr', (nn + length p')%nat, None)
  end.

(** [bufio.Writer.WriteByte]. *)
Definition bufio_WriteByte (b : bufio_Writer) (wr : File) (c : ascii)
  : bufio_Writer * File * option error :=
  match err b with
  | Some e => (b, wr, Some e)
  | None =>
      if (Available b <=? 0)%nat then
        match bufio_Flush b wr with
        | (b', wr', Some e) => (b', wr', Some e)
        | (b', wr', None) => ({| buf := buf b' ++ [c]; err := None |}, wr', None)
        end
      else ({| buf := buf b ++ [c]; err := None |}, wr, None)
  end.

(** The writer; its mutex is not modelled, the calls are taken one after
    the other.  A [*Writer] is an [option Writer]: [None] is [nil]. *)
Record Writer := { out : File; bw : bufio_Writer; closed : bool }.

(** What [NewWriter] returns once the sink is open:
    [&Writer{out: out, bw: bufio.NewWriter(out)}]. *)
Definition NewWriter_on (sink : File) : Writer :=
  {| out := sink; bw := {| buf := []; err := None |}; closed := false |}.

(** [Writer.Emit]: the writer after the call and the error. *)
Definition Writer_Emit (w : option Writer) (ev : AuthzEvent)
  : option Writer * option error :=
  match w with
  | None => (None, None)
  | Some w =>
      if closed w then (Some w, Some (errorString "writer is closed"))
      else
        match json_Marshal ev with
        | (_, Some e) =>
            (Some w, Some (Errorf_w "failed to marshal trace event: " e))
        | (data, None) =>
            match bufio_Write (bw w) (out w) data with
            | (b1, o1, _, Some e) =>
                (Some {| out := o1; bw := b1; closed := closed w |},
                 Some (Errorf_w "failed to write trace event: " e))
            | (b1, o1, _, None) =>
                match bufio_WriteByte b1 o1 "010" with
                | (b2, o2, Some e) =>
                    (Some {| out := o2; bw := b2; closed := closed w |},
                     Some (Errorf_w "failed to write newline: " e))
                | (b2, o2, None) =>
                    (Some {| out := o2; bw := b2; closed := closed w |}, None)
                end
            end
        end
  end.

(** [Writer.Flush]. *)
Definition Writer_Flush (w : option Writer) : option Writer * option error :=
  match w with
  | None => (None, None)
  | Some w =>
      if closed w then (Some w, None)
      else
        let '(b1, o1, e) := bufio_Flush (bw w) (out w) in
        (Some {| out := o1; bw := b1; closed := closed w |}, e)
  end.

(** [Writer.Close]. *)
Definition Writer_Close (w : option Writer) : option Writer * option error :=
  match w with
  | None => (None, None)
  | Some w =>
      if closed w then (Some w, None)
      else
        match bufio_Flush (bw w) (out w) with
        | (b1, o1, Some e) =>
            (Some {| out := o1; bw := b1; closed := true |}, Some e)
        | (b1, o1, None) =>
            if negb (is_stdout o1) then
              let '(o2, e) := File_Close o1 in
              (Some {| out := o2; bw := b1; closed := true |}, e)
            else (Some {| out := o1; bw := b1; closed := true |}, None)
        end
  end.

(** ** Package [trace]: validator.go *)

Record Validator := { SupportedSchemaVersions : gmap string bool }.

Definition NewValidator : Validator :=
  {| SupportedSchemaVersions := {[ SchemaV1_0 := true ]} |}.

(** [m[key]] on a [map[string]bool]: [false] for a missing key. *)
Definition map_index (m : gmap string bool) (key : string) : bool :=
  default false (m !! key).

(** [p == nil || strings.TrimSpace(p.f) == ""]. *)
Definition nil_or_blank {A} (p : option A) (f : A -> string) : bool :=
  match p with
  | None => true
  | Some x => String.eqb (strings.TrimSpace (f x)) ""
  end.

Definition Errorf (msg : string) : option error := Some (errorString msg).

(** [Validator.ValidateEvent]. *)
Definition ValidateEvent (v : Validator) (ev : AuthzEvent) : option error :=
  if String.eqb (SchemaVersion ev) "" then Errorf "missing schema_version"
  else if negb (map_index (SupportedSchemaVersions v) (SchemaVersion ev)) then
    Errorf ("unsupported schema_version: " +:+ SchemaVersion ev)
  else if String.eqb (EventType ev) "" then Errorf "missing event_type"
  else if String.eqb (Timestamp ev) "" then Errorf "missing timestamp"
  else if String.eqb (EventType ev) EventTypeAuthzCheck then
    if nil_or_blank (AuthzEvent_Actor ev) Principal then
      Errorf "missing actor.principal"
    else if nil_or_blank (AuthzEvent_Target ev) Resource then
      Errorf "missing target.resource"
    else if nil_or_blank (AuthzEvent_Action ev) Permission then
      Errorf "missing action.permission"
    else if nil_or_blank (AuthzEvent_Decision ev) Outcome then
      Errorf "missing decision.outcome"
    else
      match AuthzEvent_Decision ev with
      | Some d =>
          if negb (String.eqb (Outcome d) OutcomeAllow)
             && negb (String.eqb (Outcome d) OutcomeDeny)
          then Errorf ("invalid decision.outcome: " +:+ Outcome d)
          else None
      | None => None
      end
  else if String.eqb (EventType ev) EventTypeAuthzError then
    match Error ev with
    | None => Errorf "missing error object"
    | Some e =>
        if String.eqb (strings.TrimSpace (Kind e)) "" then
          Errorf "missing error.kind"
        else if String.eqb (strings.TrimSpace (Message e)) "" then
          Errorf "missing error.message"
        else None
    end
  else Errorf ("unknown event_type: " +:+ EventType ev).

(** [filepath.Ext]: the suffix of the last path element that starts at
    its last dot. *)
Fixpoint ext_from_end (rev_path acc : list ascii) : list ascii :=
  match rev_path with
  | [] => []
  | c :: r =>
      if Ascii.eqb c "/" then []
      else if Ascii.eqb c "." then c :: acc
      else ext_from_end r (c :: acc)
  end.

Definition filepath_Ext (path : string) : string :=
  text (ext_from_end (rev (bytes path)) []).

(** The files that can be opened for reading, by path. *)
Definition Files := gmap string (list ascii).

(** What a reader yields: its bytes, and the error other than [io.EOF]
    that ends them, if any. *)
Definition stream := (list ascii * option error)%type.

(** [openMaybeGzip].  [gunzip] stands for package [compress/gzip]: on
    the bytes of a file it is [None] when [gzip.NewReader] rejects them,
    and otherwise the stream that the reader decompresses. *)
Definition openMaybeGzip (gunzip : list ascii -> option stream)
    (fs : Files) (path : string) : stream + error :=
  match fs !! path with
  | None => inr (errorString ("open " +:+ path +:+ ": no such file or directory"))
  | Some f =>
      if String.eqb (filepath_Ext path) ".gz" then
        match gunzip f with
        | None => inr (errorString "gzip: invalid header")
        | Some r => inl r
        end
      else inl (f, None)
  end.

(** [bufio.Scanner] with its default split function, [ScanLines]. *)
Definition MaxScanTokenSize : nat := 64 * 1024.
Definition ErrTooLong : error := errorString "bufio.Scanner: token too long".

(** The bytes before the first line feed, and what follows it, if there
    is one. *)
Fixpoint break_line (s : list ascii) : list ascii * option (list ascii) :=
  match s with
  | [] => ([], None)
  | c :: r =>
      if Ascii.eqb c "010" then ([], Some r)
      else let '(l, rest) := break_line r in (c :: l, rest)
  end.

(** [dropCR]. *)
Definition dropCR (l : list ascii) : list ascii :=
  match last l with
  | Some c => if Ascii.eqb c "013" then removelast l else l
  | None => l
  end.

(** The lines that [scanner.Scan] yields, and the error that stops it: a
    line that, with its line feed, does not fit the buffer.  One
    iteration per line: the length of the input is fuel enough. *)
Fixpoint scan_lines (fuel : nat) (s : list ascii)
  : list (list ascii) * option error :=
  match fuel, s with
  | O, _ | _, [] => ([], None)
  | S fuel', _ :: _ =>
      let '(l, rest) := break_line s in
      if (MaxScanTokenSize <=? length l)%nat then ([], Some ErrTooLong)
      else
        match rest with
        | None => ([dropCR l], None)
        | Some r => let '(ls, e) := scan_lines fuel' r in (dropCR l :: ls, e)
        end
  end.

(** The body of the loop [for scanner.Scan()], over the lines that are
    left; [lineNum] counts the lines read so far. *)
Fixpoint validate_lines (v : Validator) (lineNum : Z)
    (lines : list (list ascii)) : option error :=
  match lines with
  | [] => None
  | l :: ls =>
      let lineNum := (lineNum + 1)%Z in
      let line := strings.TrimSpace (text l) in
      if String.eqb line "" then validate_lines v lineNum ls
      else
        match json_Unmarshal (bytes line) with
        | (_, Some e) =>
            Some (ValidationError lineNum ("invalid JSON: " +:+ error_text e))
        | (ev, None) =>
            match ValidateEvent v ev with
            | Some e => Some (ValidationError lineNum (error_text e))
            | None => validate_lines v lineNum ls
            end
        end
  end.

(** [Validator.ValidateJSONLFile]. *)
Definition ValidateJSONLFile (gunzip : list ascii -> option stream)
    (fs : Files) (v : Validator) (path : string) : option error :=
  match openMaybeGzip gunzip fs path with
  | inr e => Some e
  | inl (data, read_err) =>
      let '(lines, scan_err) := scan_lines (length data) data in
      match validate_lines v 0 lines with
      | Some e => Some e
      | None =>
          match (match scan_err with Some e => Some e | None => read_err end) with
          | Some e => Some (Errorf_w "scanner error: " e)
          | None => None
          end
      end
  end.

(** *** What the decoder makes of an encoded value *)

(** [int64]: the values of the type. *)
Definition int64 (n : Z) : Prop := (- 2 ^ 63 <= n < 2 ^ 63)%Z.

(** A string as it comes back from its JSON text: the encoder writes
    each byte that is no part of a well-formed UTF-8 sequence as U+FFFD. *)
Definition coerced (s : string) : string := text (utf8.coerce 0 (bytes s)).

Definition decoded_TraceContext (x : TraceContext) : TraceContext :=
  {| TraceID := coerced (TraceID x); SpanID := coerced (SpanID x);
     ParentSpanID := coerced (ParentSpanID x);
     RequestID := coerced (RequestID x) |}.

Definition decoded_Source (x : Source) : Source :=
  {| Channel := coerced (Channel x); Name := coerced (Name x) |}.

Definition decoded_Actor (x : Actor) : Actor :=
  {| Principal := coerced (Principal x);
     PrincipalType := coerced (PrincipalType x);
     Groups := map coerced (Groups x);
     Actor_Source := option_map decoded_Source (Actor_Source x) |}.

Definition decoded_Target (x : Target) : Target :=
  {| Resource := coerced (Resource x);
     ResourceType := coerced (ResourceType x);
     Project := coerced (Project x);
     Location := option_map coerced (Location x);
     Service := coerced (Service x) |}.

Definition decoded_APIDetails (x : APIDetails) : APIDetails :=
  {| Protocol := coerced (Protocol x); Operation := coerced (Operation x) |}.

Definition decoded_Action (x : Action) : Action :=
  {| Permission := coerced (Permission x); Method := coerced (Method x);
     API := option_map decoded_APIDetails (API x) |}.

Definition decoded_Decision (x : Decision) : Decision :=
  {| Outcome := coerced (Outcome x); Reason := coerced (Reason x);
     EvaluatedBy := coerced (EvaluatedBy x); LatencyMS := LatencyMS x |}.

Definition decoded_Condition (x : Condition) : Condition :=
  {| Title := coerced (Title x); Expression := coerced (Expression x);
     Result := Result x |}.

Definition decoded_MatchedBinding (x : MatchedBinding) : MatchedBinding :=
  {| Scope := coerced (Scope x); ScopeID := coerced (ScopeID x);
     Role := coerced (Role x); Member := coerced (Member x);
     MatchedBinding_Condition :=
       option_map decoded_Condition (MatchedBinding_Condition x) |}.

Definition decoded_Policy (x : Policy) : Policy :=
  {| PolicyHash := coerced (PolicyHash x);
     MatchedBindings := map decoded_MatchedBinding (MatchedBindings x) |}.

Definition decoded_CI (x : CI) : CI :=
  {| Provider := coerced (Provider x); RunID := coerced (RunID x);
     Job := coerced (Job x) |}.

Definition decoded_Environment (x : Environment) : Environment :=
  {| Mode := coerced (Mode x); Component := coerced (Component x);
     Cluster := coerced (Cluster x);
     Environment_CI := option_map decoded_CI (Environment_CI x) |}.

Definition decoded_AuthzError (x : AuthzError) : AuthzError :=
  {| Kind := coerced (Kind x); Message := coerced (Message x);
     Retryable := Retryable x |}.

Definition decoded_AuthzEvent (ev : AuthzEvent) : AuthzEvent :=
  {| SchemaVersion := coerced (SchemaVersion ev);
     EventType := coerced (EventType ev);
     Timestamp := coerced (Timestamp ev);
     Trace := option_map decoded_TraceContext (Trace ev);
     AuthzEvent_Actor := option_map decoded_Actor (AuthzEvent_Actor ev);
     AuthzEvent_Target := option_map decoded_Target (AuthzEvent_Target ev);
     AuthzEvent_Action := option_map decoded_Action (AuthzEvent_Action ev);
     AuthzEvent_Decision :=
       option_map decoded_Decision (AuthzEvent_Decision ev);
     AuthzEvent_Policy := option_map decoded_Policy (AuthzEvent_Policy ev);
     AuthzEvent_Environment :=
       option_map decoded_Environment (AuthzEvent_Environment ev);
     Error := option_map decoded_AuthzError (Error ev) |}.

(** The latency of the decision of an event, if it has one, is an
    [int64]. *)
Definition latency_fits (ev : AuthzEvent) : Prop :=
  forall d, AuthzEvent_Decision ev = Some d -> int64 (LatencyMS d).

(** The members of an object as they are read back. *)
Definition read_back_members (ms : members) : members :=
  map (fun m => (utf8.coerce 0 (fst m), json.read_back (snd m))) ms.

(** Members that are nothing, or one member named [name]: what a field
    of a struct contributes to its object. *)
Definition slot (name : string) (ms : members) : Prop :=
  ms = [] \/ exists v, ms = [(bytes name, v)].

(** A value with numbers that read back and with at most [k] levels of
    arrays and objects. *)
Definition fits (k : nat) (v : json.value) : Prop :=
  json.numbers_ok v /\ json.depth v <= k.

(** *** The writer on a sink that takes every write *)

(** The text of an event in the trace: its JSON and a line feed. *)
Definition line (ev : AuthzEvent) : list ascii := (json_Marshal ev).1 ++ ["010"%char].

(** The trace of a list of events. *)
Definition jsonl (evs : list AuthzEvent) : list ascii := flat_map line evs.

(** A sink that is open and has no bound on what it takes. *)
Definition sound_sink (f : File) : Prop := file_closed f = false /\ room f = None.

(** A writer that is open, on such a sink, and that no write has failed. *)
Definition sound (w : Writer) : Prop :=
  closed w = false /\ sound_sink (out w) /\ err (bw w) = None
  /\ length (buf (bw w)) <= defaultBufSize.

(** What the writer has taken so far: what is in the sink and what is
    still in the buffer. *)
Definition written (w : Writer) : list ascii := content (out w) ++ buf (bw w).

(** [for _, ev := range evs { if err := w.Emit(ev); err != nil { return err } }]:
    the events are emitted one by one, up to the first error. *)
Fixpoint Emit_all (w : option Writer) (evs : list AuthzEvent)
  : option Writer * option error :=
  match evs with
  | [] => (w, None)
  | ev :: rest =>
      match Writer_Emit w ev with
      | (w', Some e) => (w', Some e)
      | (w', None) => Emit_all w' rest
      end
  end.

(** *** Reading a trace *)

(** The file at [path] holds [data], as it is or, under a name that
    ends in [.gz], compressed. *)
Definition holds (gunzip : list ascii -> option stream) (fs : Files)
    (path : string) (data : list ascii) : Prop :=
  (filepath_Ext path <> ".gz" /\ fs !! path = Some data)
  \/ (filepath_Ext path = ".gz"
      /\ exists z, fs !! path = Some z /\ gunzip z = Some (data, None)).

(** An event that the trace can carry: its latency is an [int64] and its
    JSON fits the buffer of the scanner. *)
Definition carried (ev : AuthzEvent) : Prop :=
  latency_fits ev /\ length (json_Marshal ev).1 < MaxScanTokenSize.

(** *** writer.go: opening a writer *)

Definition EnvTraceOutput : string := "IAM_TRACE_OUTPUT".

(** [NewWriter].  [Stdout] is the file [os.Stdout]; [OpenFile] is what
    [os.OpenFile(dest, O_CREATE|O_APPEND|O_WRONLY, 0644)] returns, the
    file with what it holds already or the error. *)
Definition NewWriter (Map_unicode_ToLower : string -> string) (Stdout : File)
    (OpenFile : string -> File + error) (dest : string)
  : option Writer * option error :=
  if String.eqb dest "" then
    (None, Some (errorString "trace destination cannot be empty"))
  else if String.eqb (strings.ToLower Map_unicode_ToLower dest) "stdout" then
    (Some (NewWriter_on Stdout), None)
  else
    match OpenFile dest with
    | inr e => (None, Some (Errorf_w "failed to open trace file: " e))
    | inl f => (Some (NewWriter_on f), None)
    end.

(** [NewWriterFromEnv]. *)
Definition NewWriterFromEnv (Map_unicode_ToLower : string -> string)
    (Stdout : File) (OpenFile : string -> File + error) (env : os.Env)
  : option Writer * option error :=
  let dest := os.Getenv env EnvTraceOutput in
  if String.eqb dest "" then (None, None)
  else NewWriter Map_unicode_ToLower Stdout OpenFile dest.

(** A row of a trace file: the bytes of the line without its line feed
    and the event that the line holds, if it holds one.  The line is
    the text of the event, or nothing, once its carriage return and the
    white space around it are taken off; it has no line feed in it and
    it fits the buffer of the scanner. *)
Definition row_reads (row : list ascii * option AuthzEvent) : Prop :=
  ~ In "010"%char row.1 /\ length row.1 < MaxScanTokenSize
  /\ strings.TrimSpace (text (dropCR row.1))
     = match row.2 with
       | Some ev => text (json_Marshal ev).1
       | None => ""
       end.

End trace.

(** ** Package [emulatorauth] *)

Module emulatorauth.

(** *** mode.go *)

(** [type AuthMode string]. *)
Definition AuthMode := string.

Definition AuthModeOff : AuthMode := "off".
Definition AuthModePermissive : AuthMode := "permissive".
Definition AuthModeStrict : AuthMode := "strict".

(** [ParseAuthMode]; [Map_unicode_ToLower] is the parameter of
    [strings.ToLower]. *)
Definition ParseAuthMode (Map_unicode_ToLower : string -> string) (s : string)
  : AuthMode :=
  let x := strings.ToLower Map_unicode_ToLower (strings.TrimSpace s) in
  if String.eqb x "permissive" then AuthModePermissive
  else if String.eqb x "strict" then AuthModeStrict
  else AuthModeOff.

(** [AuthMode.String]. *)
Definition AuthMode_String (m : AuthMode) : string := m.

(** [AuthMode.IsEnabled]. *)
Definition IsEnabled (m : AuthMode) : bool := negb (String.eqb m AuthModeOff).

(** *** errors.go *)

(** [IsConnectivityError]. *)
Definition IsConnectivityError (err : option error) : bool :=
  match err with
  | None => false
  | Some _ =>
      let code := status.Code err in
      (code =? codes.Unavailable)%N
      || (code =? codes.DeadlineExceeded)%N
      || (code =? codes.Canceled)%N
  end.

(** [IsConfigError]. *)
Definition IsConfigError (err : option error) : bool :=
  match err with
  | None => false
  | Some _ =>
      let code := status.Code err in
      (code =? codes.InvalidArgument)%N
      || (code =? codes.Internal)%N
      || (code =? codes.Unimplemented)%N
  end.

(** *** principal.go, as far as the client uses it *)

(** A [context.Context]: the outgoing gRPC metadata it carries, the time
    left until its deadline (in nanoseconds, [None] without a deadline)
    and whether it is cancelled. *)
Record Context := {
  outgoing : list (string * string);
  time_left : option Z;
  cancelled : bool }.

Definition PrincipalMetadataKey : string := "x-emulator-principal".

(** [InjectPrincipalToContext]. *)
Definition InjectPrincipalToContext (ctx : Context) (principal : string)
  : Context :=
  if String.eqb principal "" then ctx
  else {| outgoing := outgoing ctx ++ [(PrincipalMetadataKey, principal)];
          time_left := time_left ctx; cancelled := cancelled ctx |}.

(** [context.WithTimeout]: the earlier of the two deadlines. *)
Definition WithTimeout (ctx : Context) (timeout : Z) : Context :=
  {| outgoing := outgoing ctx;
     time_left := Some (match time_left ctx with
                        | Some t => Z.min t timeout
                        | None => timeout
                        end);
     cancelled := cancelled ctx |}.

(** *** client.go *)

Record TestIamPermissionsRequest := {
  Resource : string; Permissions : list string }.

(** What the generated stub [TestIamPermissions] returns: a response
    with the granted permissions and a [nil] error, or a [nil] response
    and the error of the call. *)
Inductive reply :=
| Response (Permissions : list string)
| Failure (err : error).

(** The interface [iampb.IAMPolicyClient], its one method that the
    client calls. *)
Definition IAMPolicyClient := Context -> TestIamPermissionsRequest -> reply.

(** A [grpc.ClientConn]: once closed, [Close] returns
    [ErrClientConnClosing]. *)
Record ClientConn := { conn_closed : bool }.

Definition ErrClientConnClosing : error :=
  statusError codes.Canceled "grpc: the client connection is closing".

Definition ClientConn_Close (cc : ClientConn) : ClientConn * option error :=
  if conn_closed cc then (cc, Some ErrClientConnClosing)
  else ({| conn_closed := true |}, None).

Record Client := {
  client : IAMPolicyClient;
  conn : option ClientConn;
  mode : AuthMode;
  timeout : Z;
  traceWriter : option trace.Writer }.

Definition Second : Z := 1000000000.

(** What [NewClient] builds around an open connection and the writer
    that [trace.NewWriterFromEnv] returned. *)
Definition NewClient_on (stub : IAMPolicyClient) (cc : ClientConn)
    (m : AuthMode) (w : option trace.Writer) : Client :=
  {| client := stub; conn := Some cc; mode := m; timeout := 2 * Second;
     traceWriter := w |}.

(** What the clock tells during one call: [time.Since(start)] in
    nanoseconds and the time that [trace.NowRFC3339Nano] reads. *)
Record Clock := { elapsed : Z; now : trace.Time }.

(** [time.Duration.Milliseconds]. *)
Definition Milliseconds (d : Z) : Z := Z.quot d 1000000.

Definition with_traceWriter (c : Client) (w : option trace.Writer) : Client :=
  {| client := client c; conn := conn c; mode := mode c;
     timeout := timeout c; traceWriter := w |}.

(** The event that [emitAuthzTrace] builds. *)
Definition authz_check_event (c : Client) (principal resource permission : string)
    (allowed : bool) (clk : Clock) : trace.AuthzEvent :=
  let outcome := if allowed then trace.OutcomeAllow else trace.OutcomeDeny in
  let reason := if allowed then "binding_match" else "no_matching_binding" in
  {| trace.SchemaVersion := trace.SchemaV1_0;
     trace.EventType := trace.EventTypeAuthzCheck;
     trace.Timestamp := trace.NowRFC3339Nano (now clk);
     trace.Trace := None;
     trace.AuthzEvent_Actor :=
       Some {| trace.Principal := principal; trace.PrincipalType := "";
               trace.Groups := []; trace.Actor_Source := None |};
     trace.AuthzEvent_Target :=
       Some {| trace.Resource := resource; trace.ResourceType := "";
               trace.Project := ""; trace.Location := None;
               trace.Service := "" |};
     trace.AuthzEvent_Action :=
       Some {| trace.Permission := permission;
               trace.Method := "CheckPermission"; trace.API := None |};
     trace.AuthzEvent_Decision :=
       Some {| trace.Outcome := outcome; trace.Reason := reason;
               trace.EvaluatedBy := "gcp-emulator-auth";
               trace.LatencyMS := Milliseconds (elapsed clk) |};
     trace.AuthzEvent_Policy := None;
     trace.AuthzEvent_Environment :=
       Some {| trace.Mode := mode c; trace.Component := "gcp-emulator-auth";
               trace.Cluster := ""; trace.Environment_CI := None |};
     trace.Error := None |}.

(** [emitAuthzTrace]: the client with its writer after the call.  The
    errors of [Emit] and [Flush] are dropped. *)
Definition emitAuthzTrace (c : Client) (principal resource permission : string)
    (allowed : bool) (clk : Clock) : Client :=
  match traceWriter c with
  | None => c
  | Some _ =>
      let event := authz_check_event c principal resource permission allowed clk in
      let '(w1, _) := trace.Writer_Emit (traceWriter c) event in
      let '(w2, _) := trace.Writer_Flush w1 in
      with_traceWriter c w2
  end.

(** The event that [emitErrorTrace] builds. *)
Definition authz_error_event (c : Client) (err : error) (clk : Clock)
  : trace.AuthzEvent :=
  let '(kind, retryable) :=
    if IsConnectivityError (Some err) then ("iam_unreachable", true)
    else if IsConfigError (Some err) then ("invalid_request", false)
    else ("policy_error", false) in
  {| trace.SchemaVersion := trace.SchemaV1_0;
     trace.EventType := trace.EventTypeAuthzError;
     trace.Timestamp := trace.NowRFC3339Nano (now clk);
     trace.Trace := None;
     trace.AuthzEvent_Actor := None;
     trace.AuthzEvent_Target := None;
     trace.AuthzEvent_Action := None;
     trace.AuthzEvent_Decision := None;
     trace.AuthzEvent_Policy := None;
     trace.AuthzEvent_Environment :=
       Some {| trace.Mode := mode c; trace.Component := "gcp-emulator-auth";
               trace.Cluster := ""; trace.Environment_CI := None |};
     trace.Error :=
       Some {| trace.Kind := kind; trace.Message := error_text err;
               trace.Retryable := retryable |} |}.

(** [emitErrorTrace]. *)
Definition emitErrorTrace (c : Client) (principal resource permission : string)
    (err : error) (clk : Clock) : Client :=
  match traceWriter c with
  | None => c
  | Some _ =>
      let event := authz_error_event c err clk in
      let '(w1, _) := trace.Writer_Emit (traceWriter c) event in
      let '(w2, _) := trace.Writer_Flush w1 in
      with_traceWriter c w2
  end.

(** The one remote call of [CheckPermission]: the principal goes into the
    outgoing metadata, the context gets the client's timeout, the request
    names the resource and the single permission. *)
Definition remote_call (c : Client) (ctx : Context)
    (principal resource permission : string) : reply :=
  let ctx := InjectPrincipalToContext ctx principal in
  let ctx := WithTimeout ctx (timeout c) in
  client c ctx {| Resource := resource; Permissions := [permission] |}.

(** [Client.CheckPermission]: the pair that the call returns, and the
    client with the trace writer as the call leaves it. *)
Definition CheckPermission (c : Client) (ctx : Context)
    (principal resource permission : string) (clk : Clock)
  : (bool * option error) * Client :=
  match remote_call c ctx principal resource permission with
  | Failure err =>
      let c' := emitErrorTrace c principal resource permission err clk in
      if IsConnectivityError (Some err) then
        if String.eqb (mode c) AuthModePermissive then ((true, None), c')
        else ((false, Some err), c')
      else ((false, Some err), c')
  | Response perms =>
      let allowed := (length perms =? 1)%nat in
      let c' := emitAuthzTrace c principal resource permission allowed clk in
      ((allowed, None), c')
  end.

(** [Client.Close]: the client after the call and the error. *)
Definition Client_Close (c : Client) : Client * option error :=
  match conn c with
  | Some cc =>
      let '(cc', e) := ClientConn_Close cc in
      ({| client := client c; conn := Some cc'; mode := mode c;
          timeout := timeout c; traceWriter := traceWriter c |}, e)
  | None => (c, None)
  end.

(** The event that one call of [CheckPermission] hands to the trace
    writer: an [authz_check] when the evaluator answers, an
    [authz_error] when the call fails. *)
Definition traced (c : Client) (ctx : Context)
    (principal resource permission : string) (clk : Clock) : trace.AuthzEvent :=
  match remote_call c ctx principal resource permission with
  | Response perms =>
      authz_check_event c principal resource permission
        (length perms =? 1)%nat clk
  | Failure err => authz_error_event c err clk
  end.

(** *** config.go *)

Record Config := { Mode : AuthMode; Host : string; Trace : bool }.

(** [getEnvWithDefault]. *)
Definition getEnvWithDefault (env : os.Env) (key defaultValue : string)
  : string :=
  let value := os.Getenv env key in
  if negb (String.eqb value "") then value else defaultValue.

(** [LoadFromEnv]. *)
Definition LoadFromEnv (Map_unicode_ToLower : string -> string) (env : os.Env)
  : Config :=
  {| Mode := ParseAuthMode Map_unicode_ToLower (os.Getenv env "IAM_MODE");
     Host := getEnvWithDefault env "IAM_EMULATOR_HOST" "localhost:8080";
     Trace := String.eqb (os.Getenv env "IAM_TRACE") "true" |}.

(** *** principal.go: the receiving side *)

Definition PrincipalHeaderKey : string := "X-Emulator-Principal".

(** [metadata.MD], a [map[string][]string] whose keys are in lower
    case. *)
Definition MD := gmap string (list string).

(** [MD.Get]: the values under the key in lower case, none for a key
    that is not there. *)
Definition MD_Get (Map_unicode_ToLower : string -> string) (md : MD)
    (k : string) : list string :=
  default [] (md !! strings.ToLower Map_unicode_ToLower k).

(** [ExtractPrincipalFromContext], on what [metadata.FromIncomingContext]
    finds in the context: [None] when it reports no metadata. *)
Definition ExtractPrincipalFromContext (Map_unicode_ToLower : string -> string)
    (incoming : option MD) : string :=
  match incoming with
  | None => ""
  | Some md =>
      match MD_Get Map_unicode_ToLower md PrincipalMetadataKey with
      | [] => ""
      | p :: _ => p
      end
  end.

(** [http.Header], with its keys in canonical form. *)
Definition Header := gmap string (list string).

(** [ExtractPrincipalFromRequest], on the header of the request:
    [Header.Get] looks up the canonical form of its key, which
    [PrincipalHeaderKey] is, and gives the first value. *)
Definition ExtractPrincipalFromRequest (h : Header) : string :=
  match h !! PrincipalHeaderKey with
  | Some (p :: _) => p
  | _ => ""
  end.

(** [metadata.FromOutgoingContext]: the pairs that were appended to the
    context, joined by key in lower case, the values of a key in the
    order in which they were appended. *)
Definition FromOutgoingContext (Map_unicode_ToLower : string -> string)
    (ctx : Context) : MD :=
  fold_left
    (fun md kv =>
       let key := strings.ToLower Map_unicode_ToLower kv.1 in
       <[key := default [] (md !! key) ++ [kv.2]]> md)
    (outgoing ctx) ∅.

(** *** client.go: making a client *)

(** [NewClient].  [dial] is what [grpc.NewClient] returns for the host,
    [stub] is [iampb.NewIAMPolicyClient]; the rest is what
    [trace.NewWriterFromEnv] needs. *)
Definition NewClient (Map_unicode_ToLower : string -> string)
    (dial : string -> ClientConn + error)
    (stub : ClientConn -> IAMPolicyClient)
    (Stdout : trace.File) (OpenFile : string -> trace.File + error)
    (env : os.Env) (host : string) (m : AuthMode)
  : option Client * option error :=
  match dial host with
  | inr e => (None, Some e)
  | inl cc =>
      let '(traceWriter, _) :=
        trace.NewWriterFromEnv Map_unicode_ToLower Stdout OpenFile env in
      (Some (NewClient_on (stub cc) cc m traceWriter), None)
  end.

(** The values that the pairs of a context carry under a key in lower
    case, in their order. *)
Definition outgoing_values (Map_unicode_ToLower : string -> string)
    (ctx : Context) (key : string) : list string :=
  map snd
    (filter (fun kv => strings.ToLower Map_unicode_ToLower kv.1 = key)
       (outgoing ctx)).

(** One call of [CheckPermission]: its context, principal, resource and
    permission, and the clock during the call. *)
Record Call := {
  call_ctx : Context;
  call_principal : string;
  call_resource : string;
  call_permission : string;
  call_clock : Clock }.

(** The client after a list of calls, one after the other. *)
Definition after_calls (c : Client) (calls : list Call) : Client :=
  fold_left
    (fun c x =>
       (CheckPermission c (call_ctx x) (call_principal x) (call_resource x)
          (call_permission x) (call_clock x)).2)
    calls c.

(** *** The handler of the README: how a service uses the client *)

(** The server of the example, as far as the check goes: its client,
    [nil] when IAM is not enabled. *)
Record Server := { iamClient : option Client }.

(** What the handler does in the end: it proceeds to the storage, or it
    returns [status.Error(code, msg)]. *)
Inductive answer : Type :=
| Proceeds
| Refuses (c : codes.Code) (msg : string).

(** [Server.GetSecret] of the README up to its last line, for a request
    that names [name]: the answer, and the server with its client after
    the call.  The context is given by what
    [metadata.FromIncomingContext] finds in it and by what the client
    reads of it. *)
Definition GetSecret (Map_unicode_ToLower : string -> string) (s : Server)
    (incoming : option MD) (ctx : Context) (name : string) (clk : Clock)
  : answer * Server :=
  let principal := ExtractPrincipalFromContext Map_unicode_ToLower incoming in
  match iamClient s with
  | Some c =>
      let '((allowed, err), c') :=
        CheckPermission c ctx principal name "secretmanager.secrets.get" clk in
      let s' := {| iamClient := Some c' |} in
      match err with
      | Some _ => (Refuses codes.Internal "IAM check failed", s')
      | None =>
          if negb allowed then
            (Refuses codes.PermissionDenied "Permission denied", s')
          else (Proceeds, s')
      end
  | None => (Proceeds, s)
  end.

End emulatorauth.

(** ** Concrete values, for the examples *)

Module example.

Import emulatorauth.

Definition empty_file : trace.File :=
  {| trace.is_stdout := false; trace.content := []; trace.file_closed := false;
     trace.room := None |}.

Definition stdout : trace.File :=
  {| trace.is_stdout := true; trace.content := []; trace.file_closed := false;
     trace.room := None |}.

Definition ctx : Context :=
  {| outgoing := []; time_left := None; cancelled := false |}.

Definition clock : Clock :=
  {| elapsed := 3500000;
     now := {| trace.year := 2026; trace.month := 1; trace.day := 27;
               trace.hour := 18; trace.minute := 3; trace.second := 12;
               trace.nanosecond := 483000000 |} |}.

(** An evaluator that grants what is asked, one that grants nothing, one
    that answers with a permission that was not asked, and evaluators
    that fail. *)
Definition grants_all : IAMPolicyClient := fun _ req => Response (Permissions req).
Definition grants_nothing : IAMPolicyClient := fun _ _ => Response [].
Definition grants_other : IAMPolicyClient :=
  fun _ _ => Response ["resourcemanager.projects.get"].
Definition fails_with (e : error) : IAMPolicyClient := fun _ _ => Failure e.

Definition unavailable : error :=
  statusError codes.Unavailable "connection refused".
Definition generic_error : error := errorString "generic error".

Definition new_client (stub : IAMPolicyClient) (m : AuthMode) : Client :=
  NewClient_on stub {| conn_closed := false |} m
    (Some (trace.NewWriter_on empty_file)).

Definition principal : string := "user:alice@example.com".
Definition resource : string := "projects/test-project/secrets/test-secret".
Definition permission : string := "secretmanager.secrets.get".

(** An [authz_error] event whose kind is a single space. *)
Definition blank_kind_event : trace.AuthzEvent :=
  {| trace.SchemaVersion := "1.0"; trace.EventType := "authz_error";
     trace.Timestamp := "2026-01-27T18:03:12.490Z"; trace.Trace := None;
     trace.AuthzEvent_Actor := None; trace.AuthzEvent_Target := None;
     trace.AuthzEvent_Action := None; trace.AuthzEvent_Decision := None;
     trace.AuthzEvent_Policy := None; trace.AuthzEvent_Environment := None;
     trace.Error :=
       Some {| trace.Kind := " "; trace.Message := "connection refused";
               trace.Retryable := true |} |}.

(** A strict client with a trace writer on an empty file, and the two
    events that it emits. *)
Definition strict_client : Client := new_client grants_all AuthModeStrict.

Definition fresh_writer : trace.Writer := trace.NewWriter_on empty_file.

Definition allow_event : trace.AuthzEvent :=
  authz_check_event strict_client principal resource permission true clock.

Definition error_event : trace.AuthzEvent :=
  authz_error_event strict_client unavailable clock.

(** The [authz_check] event of a call without a principal. *)
Definition anonymous_event : trace.AuthzEvent :=
  authz_check_event strict_client "" resource permission false clock.

(** A stand-in for [compress/gzip]: it takes the two bytes of the gzip
    magic number off a file and gives the rest as it is. *)
Definition stored (z : list ascii) : option trace.stream :=
  match z with
  | "031"%char :: "139"%char :: data => Some (data, None)
  | _ => None
  end.

(** A writer with one event in its buffer, on a device that has room for
    ten bytes, and the same writer after a write has failed. *)
Definition small_file : trace.File :=
  {| trace.is_stdout := false; trace.content := []; trace.file_closed := false;
     trace.room := Some 10%nat |}.

Definition full_disk_writer : trace.Writer :=
  {| trace.out := small_file;
     trace.bw := {| trace.buf := trace.line allow_event; trace.err := None |};
     trace.closed := false |}.

Definition broken_writer : trace.Writer :=
  {| trace.out := small_file;
     trace.bw := {| trace.buf := []; trace.err := Some trace.ErrNoSpace |};
     trace.closed := false |}.

(** A plain trace file and a compressed one. *)
Definition trace_files (data : list ascii) : trace.Files :=
  {[ "authz.jsonl" := data;
     "authz.jsonl.gz" := "031"%char :: "139"%char :: data ]}.

(** An event whose principal has 65536 bytes. *)
Definition oversized_event : trace.AuthzEvent :=
  authz_check_event strict_client
    (string_of_list_ascii (repeat "a"%char (64 * 1024))) resource permission
    true clock.

(** An environment that sends the trace to a file, a file system that
    refuses to open it, and a connection that is open. *)
Definition trace_env : os.Env := {[ "IAM_TRACE_OUTPUT" := "/var/log/authz.jsonl" ]}.

Definition read_only (dest : string) : trace.File + error :=
  inr (errorString ("open " +:+ dest +:+ ": permission denied")).

Definition dials (host : string) : ClientConn + error :=
  inl {| conn_closed := false |}.

(** The stub over a connection to a host where no evaluator runs. *)
Definition fails_with_conn (cc : ClientConn) : IAMPolicyClient :=
  fails_with unavailable.

(** A context that carries another metadata key already, and one that
    carries a principal. *)
Definition ctx_with_key : Context :=
  {| outgoing := [("other-key", "other-value")]; time_left := None;
     cancelled := false |}.

Definition ctx_of_bob : Context :=
  {| outgoing := [("X-Emulator-Principal", "user:bob@example.com")];
     time_left := None; cancelled := false |}.

(** A trace file as an editor on another system may leave it: the first
    event indented and with a carriage return at the end of its line, a
    line of one tab, the second event. *)
Definition edited_rows : list (list ascii * option trace.AuthzEvent) :=
  [ (trace.bytes "  " ++ (trace.json_Marshal allow_event).1 ++ ["013"%char],
     Some allow_event);
    (["009"%char], None);
    ((trace.json_Marshal error_event).1, Some error_event) ].

(** Two calls, one that the evaluator answers and one without a
    principal. *)
Definition two_calls : list Call :=
  [ {| call_ctx := ctx; call_principal := principal;
       call_resource := resource; call_permission := permission;
       call_clock := clock |};
    {| call_ctx := ctx; call_principal := "";
       call_resource := resource; call_permission := permission;
       call_clock := clock |} ].

End example.

(** ** The well-formed events, in the words of the specification *)

Module spec.

Import trace.

(** Non-empty once the surrounding white space is taken off. *)
Definition nonblank (s : string) : Prop := strings.TrimSpace s <> "".

(** What an [authz_check] event must carry. *)
Definition check_fields (ev : AuthzEvent) : Prop :=
  (exists a, AuthzEvent_Actor ev = Some a /\ nonblank (Principal a))
  /\ (exists t, AuthzEvent_Target ev = Some t /\ nonblank (Resource t))
  /\ (exists a, AuthzEvent_Action ev = Some a /\ nonblank (Permission a))
  /\ (exists d, AuthzEvent_Decision ev = Some d
                /\ (Outcome d = "ALLOW" \/ Outcome d = "DENY")).

(** The events that pass, as the claim words them: the kind and the
    message of an [authz_error] are non-empty. *)
Definition valid_as_claimed (ev : AuthzEvent) : Prop :=
  SchemaVersion ev = "1.0" /\ Timestamp ev <> ""
  /\ ((EventType ev = "authz_check" /\ check_fields ev)
      \/ (EventType ev = "authz_error"
          /\ exists e, Error ev = Some e /\ Kind e <> "" /\ Message e <> "")).

(** The same, with the kind and the message of an [authz_error]
    non-empty after trimming. *)
Definition valid (ev : AuthzEvent) : Prop :=
  SchemaVersion ev = "1.0" /\ Timestamp ev <> ""
  /\ ((EventType ev = "authz_check" /\ check_fields ev)
      \/ (EventType ev = "authz_error"
          /\ exists e, Error ev = Some e
                       /\ nonblank (Kind e) /\ nonblank (Message e))).

(** The trimmed, lowered form of a mode string, on which [ParseAuthMode]
    decides. *)
Definition normal (Map_unicode_ToLower : string -> string) (s : string)
  : string :=
  strings.ToLower Map_unicode_ToLower (strings.TrimSpace s).

End spec.

(** * Properties *)

Import emulatorauth.

(** ** Trimming and lowering *)

Section Trim.

Variable codes : list (list ascii).

Lemma cut_prefix_Some p s r : strings.cut_prefix p s = Some r <-> s = p ++ r.
Proof.
  revert s. induction p as [| a p IH]; intros s; simpl.
  - split; [intros [= ->]; reflexivity | intros ->; reflexivity].
  - destruct s as [| b s]; [split; discriminate |].
    destruct (Ascii.eqb_spec a b) as [-> | Hab].
    + rewrite IH. split; [intros ->; reflexivity | intros [= ->]; reflexivity].
    + split; [discriminate | intros [= -> _]; contradiction].
Qed.

Lemma cut_any_Some s r :
  strings.cut_any codes s = Some r -> exists p, In p codes /\ s = p ++ r.
Proof.
  induction codes as [| p l IH]; simpl; [discriminate |].
  destruct (strings.cut_prefix p s) as [r' |] eqn:Hp.
  - intros [= ->]. apply cut_prefix_Some in Hp. eauto.
  - intros H. destruct (IH H) as (q & Hq & ->). eauto.
Qed.

Lemma cut_any_None s p r :
  strings.cut_any codes s = None -> In p codes -> s <> p ++ r.
Proof.
  induction codes as [| q l IH]; simpl; [tauto |].
  destruct (strings.cut_prefix q s) as [r' |] eqn:Hq; [discriminate |].
  intros H [-> | Hin] Hs.
  - apply cut_prefix_Some in Hs. congruence.
  - exact (IH H Hin Hs).
Qed.

Lemma trim_prefix_fixed n s :
  strings.cut_any codes s = None -> strings.trim_prefix codes n s = s.
Proof. intros H. destruct n; simpl; [reflexivity |]. rewrite H. reflexivity. Qed.

Lemma trim_prefix_suffix n s : exists p, s = p ++ strings.trim_prefix codes n s.
Proof.
  revert s. induction n as [| n IH]; intros s; simpl; [exists []; reflexivity |].
  destruct (strings.cut_any codes s) as [r |] eqn:H; [| exists []; reflexivity].
  destruct (cut_any_Some s r H) as (p & _ & ->).
  destruct (IH r) as (q & Hq). exists (p ++ q).
  rewrite <- app_assoc, <- Hq. reflexivity.
Qed.

Hypothesis codes_nonempty : forall p, In p codes -> p <> [].

Lemma trim_prefix_done n s :
  length s <= n -> strings.cut_any codes (strings.trim_prefix codes n s) = None.
Proof.
  revert s. induction n as [| n IH]; intros s Hn; simpl.
  - destruct s; [| simpl in Hn; lia].
    destruct (strings.cut_any codes []) as [r |] eqn:H; [| reflexivity].
    destruct (cut_any_Some [] r H) as (p & Hp & Heq).
    destruct p; [exfalso; exact (codes_nonempty [] Hp eq_refl) | discriminate].
  - destruct (strings.cut_any codes s) as [r |] eqn:H; [| exact H].
    destruct (cut_any_Some s r H) as (p & Hp & ->).
    apply IH. rewrite length_app in Hn.
    destruct p; [exfalso; exact (codes_nonempty [] Hp eq_refl) |].
    simpl in Hn. lia.
Qed.

(** A map on bytes that neither makes nor unmakes a byte of the codes
    commutes with the trimming. *)
Variable f : ascii -> ascii.
Hypothesis f_codes :
  forall p b c, In p codes -> In b p -> Ascii.eqb b (f c) = Ascii.eqb b c.

Lemma cut_prefix_map p s :
  (forall b c, In b p -> Ascii.eqb b (f c) = Ascii.eqb b c) ->
  strings.cut_prefix p (map f s) = option_map (map f) (strings.cut_prefix p s).
Proof.
  revert s. induction p as [| a p IH]; intros s Hp; simpl; [reflexivity |].
  destruct s as [| b s]; simpl; [reflexivity |].
  rewrite (Hp a b) by (left; reflexivity).
  destruct (Ascii.eqb a b); [| reflexivity].
  apply IH. intros b' c' Hin. apply Hp. right. exact Hin.
Qed.

Lemma cut_any_map s :
  strings.cut_any codes (map f s) = option_map (map f) (strings.cut_any codes s).
Proof.
  revert f_codes. clear codes_nonempty.
  induction codes as [| p l IH]; intros Hf; simpl; [reflexivity |].
  rewrite cut_prefix_map by (intros b c Hb; apply (Hf p); [left; reflexivity | exact Hb]).
  destruct (strings.cut_prefix p s); simpl; [reflexivity |].
  apply IH. intros q b c Hq. apply Hf. right. exact Hq.
Qed.

Lemma trim_prefix_map n s :
  strings.trim_prefix codes n (map f s) = map f (strings.trim_prefix codes n s).
Proof.
  revert s. induction n as [| n IH]; intros s; simpl; [reflexivity |].
  rewrite cut_any_map. destruct (strings.cut_any codes s); simpl; auto.
Qed.

End Trim.

Lemma white_space_nonempty p : In p strings.white_space -> p <> [].
Proof.
  intros H ->. revert H. vm_compute. intuition discriminate.
Qed.

Lemma rev_white_space_nonempty p :
  In p strings.rev_white_space -> p <> [].
Proof.
  intros H ->. revert H. vm_compute. intuition discriminate.
Qed.

Lemma trim_left_done s :
  strings.cut_any strings.white_space (strings.trim_left s) = None.
Proof. apply trim_prefix_done; [exact white_space_nonempty | lia]. Qed.

Lemma trim_right_prefix s : exists x, s = strings.trim_right s ++ x.
Proof.
  unfold strings.trim_right.
  destruct (trim_prefix_suffix strings.rev_white_space
              (length s) (rev s)) as (p & Hp).
  exists (rev p). rewrite <- rev_app_distr, <- Hp, rev_involutive. reflexivity.
Qed.

Lemma trim_right_fixed s :
  strings.trim_right (strings.trim_right s) = strings.trim_right s.
Proof.
  unfold strings.trim_right at 1. unfold strings.trim_right at 2.
  rewrite rev_involutive. rewrite trim_prefix_fixed; [reflexivity |].
  apply trim_prefix_done; [exact rev_white_space_nonempty |].
  rewrite length_rev. lia.
Qed.

Lemma trim_left_of_trimmed s :
  strings.cut_any strings.white_space s = None ->
  strings.trim_left (strings.trim_right s) = strings.trim_right s.
Proof.
  intros H. unfold strings.trim_left. apply trim_prefix_fixed.
  destruct (strings.cut_any strings.white_space (strings.trim_right s))
    as [r |] eqn:Hr; [| reflexivity].
  exfalso. destruct (cut_any_Some _ _ _ Hr) as (p & Hp & Heq).
  destruct (trim_right_prefix s) as (x & Hx).
  apply (cut_any_None strings.white_space s p (r ++ x) H Hp).
  rewrite Hx at 1. rewrite Heq, <- app_assoc. reflexivity.
Qed.

Lemma bytes_of_bytes l : strings.bytes_of (strings.of_bytes l) = l.
Proof. apply list_ascii_of_string_of_list_ascii. Qed.

Lemma of_bytes_of s : strings.of_bytes (strings.bytes_of s) = s.
Proof. apply string_of_list_ascii_of_string. Qed.

(** [TrimSpace] leaves a trimmed string as it is. *)
Lemma TrimSpace_idempotent s :
  strings.TrimSpace (strings.TrimSpace s) = strings.TrimSpace s.
Proof.
  unfold strings.TrimSpace. rewrite bytes_of_bytes. f_equal.
  rewrite trim_left_of_trimmed by apply trim_left_done.
  apply trim_right_fixed.
Qed.

Lemma letter_differs b x :
  strings.is_letter b = false -> strings.is_letter x = true ->
  Ascii.eqb b x = false.
Proof. intros Hb Hx. destruct (Ascii.eqb_spec b x); [congruence | reflexivity]. Qed.

Lemma lower_byte_other b c :
  strings.is_letter b = false -> Ascii.eqb b (strings.lower_byte c) = Ascii.eqb b c.
Proof.
  intros Hb.
  destruct (strings.is_upper_byte c) eqn:Hu.
  - rewrite !(letter_differs b) by
      (try exact Hb; revert Hu; destruct c as [[] [] [] [] [] [] [] []];
       intros Hu; try discriminate Hu; reflexivity).
    reflexivity.
  - unfold strings.lower_byte. rewrite Hu. reflexivity.
Qed.

Lemma white_space_no_letter p b :
  In p strings.white_space \/ In p strings.rev_white_space -> In b p ->
  strings.is_letter b = false.
Proof.
  intros Hp Hb.
  assert (H : forallb (forallb (fun x => negb (strings.is_letter x)))
                (strings.white_space ++ strings.rev_white_space) = true)
    by (vm_compute; reflexivity).
  rewrite forallb_forall in H. specialize (H p (proj2 (in_app_iff _ _ _) Hp)).
  rewrite forallb_forall in H. apply negb_true_iff. exact (H b Hb).
Qed.

Lemma trim_left_lower s :
  strings.trim_left (map strings.lower_byte s)
  = map strings.lower_byte (strings.trim_left s).
Proof.
  unfold strings.trim_left. rewrite length_map. apply trim_prefix_map.
  intros p b c Hp Hb. apply lower_byte_other.
  apply (white_space_no_letter p b); auto.
Qed.

Lemma trim_right_lower s :
  strings.trim_right (map strings.lower_byte s)
  = map strings.lower_byte (strings.trim_right s).
Proof.
  unfold strings.trim_right. rewrite length_map, <- map_rev.
  rewrite trim_prefix_map, map_rev; [reflexivity |].
  intros p b c Hp Hb. apply lower_byte_other.
  apply (white_space_no_letter p b); auto.
Qed.

(** Lowering the ASCII letters commutes with [TrimSpace]. *)
Lemma TrimSpace_lower_ascii s :
  strings.TrimSpace (strings.lower_ascii s)
  = strings.lower_ascii (strings.TrimSpace s).
Proof.
  unfold strings.TrimSpace, strings.lower_ascii.
  rewrite !bytes_of_bytes, trim_left_lower, trim_right_lower. reflexivity.
Qed.

Lemma lower_byte_idempotent c :
  strings.lower_byte (strings.lower_byte c) = strings.lower_byte c.
Proof. destruct c as [[] [] [] [] [] [] [] []]; reflexivity. Qed.

Lemma lower_byte_ascii c :
  strings.is_ascii_byte (strings.lower_byte c) = strings.is_ascii_byte c.
Proof. destruct c as [[] [] [] [] [] [] [] []]; reflexivity. Qed.

Lemma lower_ascii_idempotent s :
  strings.lower_ascii (strings.lower_ascii s) = strings.lower_ascii s.
Proof.
  unfold strings.lower_ascii. rewrite bytes_of_bytes, map_map. f_equal.
  apply map_ext. exact lower_byte_idempotent.
Qed.

Lemma isASCII_lower_ascii s :
  strings.isASCII (strings.lower_ascii s) = strings.isASCII s.
Proof.
  unfold strings.isASCII, strings.lower_ascii. rewrite bytes_of_bytes.
  induction (strings.bytes_of s) as [| c l IH]; simpl; [reflexivity |].
  rewrite lower_byte_ascii, IH. reflexivity.
Qed.


(** ** The error classifier *)

Lemma Code_of_status_error c desc : status.Code (Some (statusError c desc)) = c.
Proof. reflexivity. Qed.

Lemma Code_of_plain_error e :
  status.is_status_error e = false -> status.Code (Some e) = codes.Unknown.
Proof.
  unfold status.is_status_error, status.Code.
  destruct (status.carried e); [discriminate | reflexivity].
Qed.

Lemma IsConnectivityError_iff err :
  IsConnectivityError err = true <->
  err <> None /\
  (status.Code err = codes.Unavailable
   \/ status.Code err = codes.DeadlineExceeded
   \/ status.Code err = codes.Canceled).
Proof.
  destruct err as [e|]; simpl.
  - rewrite !orb_true_iff, !N.eqb_eq. split.
    + intros H. split; [discriminate | tauto].
    + intros [_ H]. tauto.
  - split; [discriminate | intros [H _]; congruence].
Qed.

Lemma IsConfigError_iff err :
  IsConfigError err = true <->
  err <> None /\
  (status.Code err = codes.InvalidArgument
   \/ status.Code err = codes.Internal
   \/ status.Code err = codes.Unimplemented).
Proof.
  destruct err as [e|]; simpl.
  - rewrite !orb_true_iff, !N.eqb_eq. split.
    + intros H. split; [discriminate | tauto].
    + intros [_ H]. tauto.
  - split; [discriminate | intros [H _]; congruence].
Qed.

Lemma classifiers_disjoint err :
  ~ (IsConnectivityError err = true /\ IsConfigError err = true).
Proof.
  rewrite IsConnectivityError_iff, IsConfigError_iff.
  intros [[_ H1] [_ H2]].
  destruct H1 as [H1|[H1|H1]], H2 as [H2|[H2|H2]];
    rewrite H1 in H2; discriminate.
Qed.

(** C3.  The two classifiers are the fixed sets of codes, they are both
    false on [nil], no error satisfies both, and a status error with the
    code PermissionDenied, NotFound or Unauthenticated satisfies
    neither. *)
Theorem classifiers_are_the_code_sets :
  (forall err, IsConnectivityError err = true <->
     err <> None /\
     (status.Code err = codes.Unavailable
      \/ status.Code err = codes.DeadlineExceeded
      \/ status.Code err = codes.Canceled))
  /\ (forall err, IsConfigError err = true <->
     err <> None /\
     (status.Code err = codes.InvalidArgument
      \/ status.Code err = codes.Internal
      \/ status.Code err = codes.Unimplemented))
  /\ IsConnectivityError None = false
  /\ IsConfigError None = false
  /\ (forall err, ~ (IsConnectivityError err = true /\ IsConfigError err = true))
  /\ (forall c desc,
        c = codes.PermissionDenied \/ c = codes.NotFound
        \/ c = codes.Unauthenticated ->
        IsConnectivityError (Some (statusError c desc)) = false
        /\ IsConfigError (Some (statusError c desc)) = false).
Proof.
  split; [exact IsConnectivityError_iff |].
  split; [exact IsConfigError_iff |].
  split; [reflexivity |]. split; [reflexivity |].
  split; [exact classifiers_disjoint |].
  intros c desc [-> | [-> | ->]]; split; reflexivity.
Qed.

Lemma classifiers_are_the_code_sets_witness :
  IsConnectivityError
    (Some (statusError codes.PermissionDenied "permission denied")) = false
  /\ IsConfigError
       (Some (statusError codes.PermissionDenied "permission denied")) = false.
Proof.
  destruct classifiers_are_the_code_sets as (_ & _ & _ & _ & _ & H).
  apply H. left. reflexivity.
Defined.

(** ** The decision of [CheckPermission] *)

Section Decision.

Variables (c : Client) (ctx : Context).
Variables (principal resource permission : string) (clk : Clock).

Let result : bool * option error :=
  fst (CheckPermission c ctx principal resource permission clk).

Lemma decision_on_failure e :
  remote_call c ctx principal resource permission = Failure e ->
  result =
    if IsConnectivityError (Some e) && String.eqb (mode c) AuthModePermissive
    then (true, None) else (false, Some e).
Proof.
  intros H. unfold result, CheckPermission. rewrite H.
  destruct (IsConnectivityError (Some e)); simpl; [| reflexivity].
  destruct (String.eqb (mode c) AuthModePermissive); reflexivity.
Qed.

Lemma decision_on_response perms :
  remote_call c ctx principal resource permission = Response perms ->
  result = ((length perms =? 1)%nat, None).
Proof.
  intros H. unfold result, CheckPermission. rewrite H. reflexivity.
Qed.

(** C1.  When the remote call fails with [e]: a connectivity error gives
    [(true, nil)] in permissive mode and [(false, e)] in strict mode, in
    off mode and in any other mode that is not permissive; an error that
    is no connectivity error gives [(false, e)] in every mode. *)
Theorem CheckPermission_when_the_call_fails e :
  remote_call c ctx principal resource permission = Failure e ->
  (IsConnectivityError (Some e) = true -> mode c = AuthModePermissive ->
   result = (true, None))
  /\ (IsConnectivityError (Some e) = true ->
      mode c = AuthModeStrict \/ mode c = AuthModeOff ->
      result = (false, Some e))
  /\ (IsConnectivityError (Some e) = true -> mode c <> AuthModePermissive ->
      result = (false, Some e))
  /\ (IsConnectivityError (Some e) = false -> result = (false, Some e)).
Proof.
  intros H. rewrite (decision_on_failure e H).
  repeat split.
  - intros -> ->. reflexivity.
  - intros -> [-> | ->]; reflexivity.
  - intros -> Hm. apply String.eqb_neq in Hm. rewrite Hm. reflexivity.
  - intros ->. reflexivity.
Qed.

(** C5.  The call returns [(true, nil)], [(false, nil)] or [(false, e)]
    with [e] the very error of the remote call; never [true] together
    with an error. *)
Theorem CheckPermission_result_shapes :
  (result = (true, None)
   \/ result = (false, None)
   \/ exists e, remote_call c ctx principal resource permission = Failure e
                /\ result = (false, Some e))
  /\ (forall e, result <> (true, Some e)).
Proof.
  destruct (remote_call c ctx principal resource permission) as [perms | e] eqn:H.
  - rewrite (decision_on_response perms H).
    destruct (length perms =? 1)%nat; split; auto; discriminate.
  - rewrite (decision_on_failure e H).
    destruct (IsConnectivityError (Some e) && String.eqb (mode c) AuthModePermissive);
      split; eauto; discriminate.
Qed.

(** C10.  An error that is no gRPC status error has the code Unknown, is
    neither a connectivity nor a configuration error, and as the error of
    the remote call it makes the call return [(false, e)], whatever the
    mode. *)
Theorem plain_error_always_denies e :
  status.is_status_error e = false ->
  status.Code (Some e) = codes.Unknown
  /\ IsConnectivityError (Some e) = false
  /\ IsConfigError (Some e) = false
  /\ (remote_call c ctx principal resource permission = Failure e ->
      result = (false, Some e)).
Proof.
  intros Hplain. pose proof (Code_of_plain_error e Hplain) as Hcode.
  assert (Hconn : IsConnectivityError (Some e) = false).
  { unfold IsConnectivityError. rewrite Hcode. reflexivity. }
  repeat split; auto.
  - unfold IsConfigError. rewrite Hcode. reflexivity.
  - intros H. rewrite (decision_on_failure e H), Hconn. reflexivity.
Qed.

(** C2, as amended.  When the remote call succeeds with the list
    [perms], the call returns [(allowed, nil)] where [allowed] tells
    whether [perms] has exactly one element.  For a list that holds
    nothing but the requested permission, at most once ([perms] is a
    sublist of the request), that is the case exactly when [perms] is the
    requested permission alone.  An empty list gives [(false, nil)] in
    every mode. *)
Theorem CheckPermission_when_the_call_succeeds perms :
  remote_call c ctx principal resource permission = Response perms ->
  result = (bool_decide (length perms = 1%nat), None)
  /\ (sublist perms [permission] ->
      (result = (true, None) <-> perms = [permission]))
  /\ (perms = [] -> result = (false, None)).
Proof.
  intros H. rewrite (decision_on_response perms H).
  split; [| split].
  - f_equal. destruct perms as [| p [| q l]]; reflexivity.
  - intros Hsub. split.
    + intros Heq. destruct perms as [| p [| q l]]; try discriminate.
      apply sublist_length in Hsub as Hlen.
      inversion Hsub as [| ? ? ? Hs | ? ? ? Hs]; subst; [reflexivity |].
      inversion Hs.
    + intros ->. reflexivity.
  - intros ->. reflexivity.
Qed.

End Decision.

Lemma CheckPermission_when_the_call_fails_witness :
  fst (CheckPermission
         (example.new_client (example.fails_with example.unavailable)
            AuthModePermissive)
         example.ctx example.principal example.resource example.permission
         example.clock) = (true, None).
Proof.
  destruct (CheckPermission_when_the_call_fails
              (example.new_client (example.fails_with example.unavailable)
                 AuthModePermissive)
              example.ctx example.principal example.resource
              example.permission example.clock example.unavailable eq_refl)
    as (H & _).
  apply H; reflexivity.
Defined.

Lemma plain_error_always_denies_witness :
  fst (CheckPermission
         (example.new_client (example.fails_with example.generic_error)
            AuthModePermissive)
         example.ctx example.principal example.resource example.permission
         example.clock) = (false, Some example.generic_error).
Proof.
  destruct (plain_error_always_denies
              (example.new_client (example.fails_with example.generic_error)
                 AuthModePermissive)
              example.ctx example.principal example.resource
              example.permission example.clock example.generic_error eq_refl)
    as (_ & _ & _ & H).
  apply H; reflexivity.
Defined.

Lemma CheckPermission_when_the_call_succeeds_witness :
  fst (CheckPermission (example.new_client example.grants_all AuthModeStrict)
         example.ctx example.principal example.resource example.permission
         example.clock) = (true, None).
Proof.
  destruct (CheckPermission_when_the_call_succeeds
              (example.new_client example.grants_all AuthModeStrict)
              example.ctx example.principal example.resource
              example.permission example.clock [example.permission] eq_refl)
    as (_ & H & _).
  apply H; reflexivity.
Defined.

(** C2 as it is stated fails: the evaluator answers with one permission
    that is not the requested one, and the call allows. *)
Lemma allowed_on_another_permission :
  remote_call (example.new_client example.grants_other AuthModeStrict)
    example.ctx example.principal example.resource example.permission
  = Response ["resourcemanager.projects.get"]
  /\ fst (CheckPermission (example.new_client example.grants_other AuthModeStrict)
            example.ctx example.principal example.resource example.permission
            example.clock)
     <> (bool_decide (["resourcemanager.projects.get"] = [example.permission]),
         None).
Proof. split; [reflexivity | vm_compute; discriminate]. Qed.

(** C4.  The pair that [CheckPermission] returns does not depend on the
    trace writer of the client (absent, closed, failing or working), nor
    on what the clock reads: an error of [Emit] or [Flush] never reaches
    the caller. *)
Theorem decision_independent_of_the_trace_writer
    (c : Client) (w1 w2 : option trace.Writer) (ctx : Context)
    (principal resource permission : string) (clk1 clk2 : Clock) :
  fst (CheckPermission (with_traceWriter c w1) ctx principal resource
         permission clk1)
  = fst (CheckPermission (with_traceWriter c w2) ctx principal resource
           permission clk2).
Proof.
  unfold CheckPermission.
  change (remote_call (with_traceWriter c w1) ctx principal resource permission)
    with (remote_call c ctx principal resource permission).
  change (remote_call (with_traceWriter c w2) ctx principal resource permission)
    with (remote_call c ctx principal resource permission).
  destruct (remote_call c ctx principal resource permission) as [perms | e];
    [reflexivity |].
  simpl mode.
  destruct (IsConnectivityError (Some e)); [| reflexivity].
  destruct (String.eqb (mode c) AuthModePermissive); reflexivity.
Qed.

(** A writer that is closed makes [Emit] fail, and the check returns
    what it returns with a working writer. *)
Example closed_writer_does_not_change_the_decision :
  let closed_writer :=
    Some {| trace.out := example.empty_file;
            trace.bw := {| trace.buf := []; trace.err := None |};
            trace.closed := true |} in
  let c := example.new_client example.grants_all AuthModeStrict in
  snd (trace.Writer_Emit closed_writer trace.zero_AuthzEvent)
  = Some (errorString "writer is closed")
  /\ fst (CheckPermission (with_traceWriter c closed_writer) example.ctx
            example.principal example.resource example.permission example.clock)
     = (true, None).
Proof. split; reflexivity. Qed.

(** ** Closing *)

Lemma File_Write_keeps_the_handle f p :
  trace.is_stdout (trace.File_Write f p).1.1 = trace.is_stdout f
  /\ trace.file_closed (trace.File_Write f p).1.1 = trace.file_closed f.
Proof.
  unfold trace.File_Write.
  destruct (trace.file_closed f) eqn:Hc; [auto |].
  destruct (trace.room f) as [k |]; [| auto].
  destruct (length p <=? k)%nat; auto.
Qed.

Lemma bufio_Flush_keeps_the_handle b f :
  trace.is_stdout (trace.bufio_Flush b f).1.2 = trace.is_stdout f
  /\ trace.file_closed (trace.bufio_Flush b f).1.2 = trace.file_closed f.
Proof.
  unfold trace.bufio_Flush.
  destruct (trace.err b); [auto |].
  destruct (trace.buf b) as [| a l] eqn:Hb; [auto |].
  pose proof (File_Write_keeps_the_handle f (a :: l)) as H.
  destruct (trace.File_Write f (a :: l)) as [[f' n] e]. simpl in H.
  destruct e; simpl; [exact H |].
  destruct (n <? S (length l))%nat; exact H.
Qed.

Lemma Writer_Close_closes w w' e :
  trace.Writer_Close (Some w) = (w', e) ->
  exists x, w' = Some x /\ trace.closed x = true.
Proof.
  unfold trace.Writer_Close.
  destruct (trace.closed w) eqn:Hc.
  - intros [= <- <-]. eauto.
  - destruct (trace.bufio_Flush (trace.bw w) (trace.out w)) as [[b1 o1] [e1 |]].
    + intros [= <- <-]. eauto.
    + destruct (negb (trace.is_stdout o1)).
      * destruct (trace.File_Close o1) as [o2 e2]. intros [= <- <-]. eauto.
      * intros [= <- <-]. eauto.
Qed.

Lemma Writer_Close_again w :
  trace.Writer_Close (trace.Writer_Close w).1 = ((trace.Writer_Close w).1, None).
Proof.
  destruct w as [w |]; [| reflexivity].
  destruct (trace.Writer_Close (Some w)) as [w' e] eqn:H.
  destruct (Writer_Close_closes w w' e H) as (x & -> & Hx).
  simpl. rewrite Hx. reflexivity.
Qed.

Lemma Writer_Close_spares_stdout w :
  trace.is_stdout (trace.out w) = true ->
  exists w', (trace.Writer_Close (Some w)).1 = Some w'
             /\ trace.is_stdout (trace.out w') = true
             /\ trace.file_closed (trace.out w') = trace.file_closed (trace.out w).
Proof.
  intros Hs. unfold trace.Writer_Close.
  destruct (trace.closed w); [eauto |].
  pose proof (bufio_Flush_keeps_the_handle (trace.bw w) (trace.out w)) as [H1 H2].
  destruct (trace.bufio_Flush (trace.bw w) (trace.out w)) as [[b1 o1] [e1 |]];
    simpl in H1, H2.
  - eexists. split; [reflexivity |]. simpl. rewrite H1, H2. auto.
  - rewrite H1, Hs. simpl. eexists. split; [reflexivity |]. simpl.
    rewrite H1, H2. auto.
Qed.

Lemma Writer_Emit_closed w ev :
  trace.closed w = true ->
  trace.Writer_Emit (Some w) ev = (Some w, Some (errorString "writer is closed")).
Proof. intros H. unfold trace.Writer_Emit. rewrite H. reflexivity. Qed.

(** C6.  A second [Writer.Close] returns [nil] and changes nothing; a
    writer on the standard output leaves it open; [Emit] on a closed
    writer returns an error and writes nothing.  [Client.Close] is
    different: it closes the connection again, and the second call on a
    client with a connection returns the error of the closed connection;
    only a client without a connection closes without an error. *)
Theorem closing_twice :
  (forall w,
     trace.Writer_Close (trace.Writer_Close w).1
     = ((trace.Writer_Close w).1, None))
  /\ (forall w, trace.is_stdout (trace.out w) = true ->
        exists w', (trace.Writer_Close (Some w)).1 = Some w'
          /\ trace.is_stdout (trace.out w') = true
          /\ trace.file_closed (trace.out w') = trace.file_closed (trace.out w))
  /\ (forall w ev, trace.closed w = true ->
        trace.Writer_Emit (Some w) ev
        = (Some w, Some (errorString "writer is closed")))
  /\ (forall c cc, conn c = Some cc -> conn_closed cc = false ->
        (Client_Close c).2 = None
        /\ (Client_Close (Client_Close c).1).2 = Some ErrClientConnClosing)
  /\ (forall c, conn c = None -> Client_Close c = (c, None)).
Proof.
  split; [exact Writer_Close_again |].
  split; [exact Writer_Close_spares_stdout |].
  split; [exact Writer_Emit_closed |].
  split.
  - intros c cc Hc Hcc. unfold Client_Close. rewrite Hc.
    unfold ClientConn_Close. rewrite Hcc. simpl. auto.
  - intros c Hc. unfold Client_Close. rewrite Hc. reflexivity.
Qed.

(** ** The validator *)

Lemma supported_version s :
  trace.map_index (trace.SupportedSchemaVersions trace.NewValidator) s = true
  <-> s = "1.0".
Proof.
  unfold trace.map_index, trace.NewValidator, trace.SchemaV1_0. simpl.
  destruct (decide (s = "1.0")) as [-> | Hne].
  - rewrite lookup_singleton_eq. simpl. tauto.
  - rewrite lookup_singleton_ne by congruence. simpl. split; [discriminate | tauto].
Qed.

Lemma nil_or_blank_false {A} (p : option A) (f : A -> string) :
  trace.nil_or_blank p f = false <-> exists x, p = Some x /\ spec.nonblank (f x).
Proof.
  unfold trace.nil_or_blank, spec.nonblank. destruct p as [x |].
  - rewrite String.eqb_neq. split; [eauto |]. intros (y & [= <-] & H). exact H.
  - split; [discriminate |]. intros (y & [=] & _).
Qed.

Lemma ValidateEvent_check ev :
  trace.SchemaVersion ev = "1.0" -> trace.Timestamp ev <> "" ->
  trace.EventType ev = "authz_check" ->
  (trace.ValidateEvent trace.NewValidator ev = None <-> spec.check_fields ev).
Proof.
  intros Hv Ht He. unfold trace.ValidateEvent, spec.check_fields.
  rewrite Hv, He. apply String.eqb_neq in Ht. rewrite Ht. simpl.
  destruct (trace.nil_or_blank (trace.AuthzEvent_Actor ev) trace.Principal) eqn:H1.
  { split; [discriminate |]. intros (H & _). apply nil_or_blank_false in H. congruence. }
  destruct (trace.nil_or_blank (trace.AuthzEvent_Target ev) trace.Resource) eqn:H2.
  { split; [discriminate |]. intros (_ & H & _). apply nil_or_blank_false in H. congruence. }
  destruct (trace.nil_or_blank (trace.AuthzEvent_Action ev) trace.Permission) eqn:H3.
  { split; [discriminate |]. intros (_ & _ & H & _). apply nil_or_blank_false in H. congruence. }
  apply nil_or_blank_false in H1, H2, H3.
  destruct (trace.AuthzEvent_Decision ev) as [d |]; simpl.
  2:{ split; [discriminate |]. intros (_ & _ & _ & d & [=] & _). }
  unfold trace.OutcomeAllow, trace.OutcomeDeny.
  destruct (String.eqb_spec (trace.Outcome d) "ALLOW") as [Ha | Ha].
  { rewrite Ha. simpl. split; [| reflexivity]. intros _. repeat split; eauto. }
  destruct (String.eqb_spec (trace.Outcome d) "DENY") as [Hd | Hd].
  { rewrite Hd. simpl. split; [| reflexivity]. intros _. repeat split; eauto. }
  destruct (String.eqb (strings.TrimSpace (trace.Outcome d)) ""); simpl;
    (split; [discriminate |]);
    intros (_ & _ & _ & d' & [= <-] & [H | H]); contradiction.
Qed.

Lemma ValidateEvent_error ev :
  trace.SchemaVersion ev = "1.0" -> trace.Timestamp ev <> "" ->
  trace.EventType ev = "authz_error" ->
  (trace.ValidateEvent trace.NewValidator ev = None <->
   exists e, trace.Error ev = Some e
             /\ spec.nonblank (trace.Kind e) /\ spec.nonblank (trace.Message e)).
Proof.
  intros Hv Ht He. unfold trace.ValidateEvent, spec.nonblank.
  rewrite Hv, He. apply String.eqb_neq in Ht. rewrite Ht. simpl.
  destruct (trace.Error ev) as [e |].
  2:{ split; [discriminate |]. intros (e & [=] & _). }
  destruct (String.eqb_spec (strings.TrimSpace (trace.Kind e)) "") as [Hk | Hk].
  { split; [discriminate |]. intros (e' & [= <-] & H & _). contradiction. }
  destruct (String.eqb_spec (strings.TrimSpace (trace.Message e)) "") as [Hm | Hm].
  { split; [discriminate |]. intros (e' & [= <-] & _ & H). contradiction. }
  split; [eauto | reflexivity].
Qed.

(** C7, as amended.  [ValidateEvent] of the validator that [NewValidator]
    makes returns [nil] exactly for the events that carry the schema
    version 1.0, a non-empty timestamp and the event type [authz_check] or
    [authz_error]; with, for [authz_check], a principal, a resource and a
    permission that are non-empty after trimming and the outcome ALLOW or
    DENY; and, for [authz_error], a kind and a message that are non-empty
    after trimming. *)
Theorem ValidateEvent_accepts_the_valid_events (ev : trace.AuthzEvent) :
  trace.ValidateEvent trace.NewValidator ev = None <-> spec.valid ev.
Proof.
  unfold spec.valid.
  destruct (decide (trace.SchemaVersion ev = "1.0")) as [Hv | Hv].
  2:{ split; [| tauto]. unfold trace.ValidateEvent.
      destruct (String.eqb (trace.SchemaVersion ev) ""); [discriminate |].
      destruct (trace.map_index _ _) eqn:Hs; [| discriminate].
      apply supported_version in Hs. contradiction. }
  destruct (decide (trace.Timestamp ev = "")) as [Ht | Ht].
  { split; [| tauto]. unfold trace.ValidateEvent. rewrite Hv, Ht. simpl.
    destruct (String.eqb (trace.EventType ev) ""); discriminate. }
  destruct (decide (trace.EventType ev = "authz_check")) as [Hc | Hc].
  { rewrite (ValidateEvent_check ev Hv Ht Hc). split; [tauto |].
    intros (_ & _ & [[_ H] | [H _]]); [exact H | congruence]. }
  destruct (decide (trace.EventType ev = "authz_error")) as [He | He].
  { rewrite (ValidateEvent_error ev Hv Ht He). split; [tauto |].
    intros (_ & _ & [[H _] | [_ H]]); [congruence | exact H]. }
  split; [| tauto]. unfold trace.ValidateEvent. rewrite Hv.
  apply String.eqb_neq in Ht, Hc, He.
  unfold trace.EventTypeAuthzCheck, trace.EventTypeAuthzError.
  rewrite Ht, Hc, He. simpl.
  destruct (String.eqb (trace.EventType ev) ""); discriminate.
Qed.

(** C7 as it is stated fails: an [authz_error] event whose kind is one
    space has a non-empty kind, and the validator rejects it. *)
Lemma blank_error_kind_is_rejected :
  ~ (trace.ValidateEvent trace.NewValidator example.blank_kind_event = None
     <-> spec.valid_as_claimed example.blank_kind_event).
Proof.
  intros [_ H].
  assert (Hv : spec.valid_as_claimed example.blank_kind_event).
  { split; [reflexivity |]. split; [discriminate |]. right.
    split; [reflexivity |]. eexists. split; [reflexivity |].
    split; discriminate. }
  specialize (H Hv). vm_compute in H. discriminate.
Qed.

(** ** The auth mode *)

Section Mode.

(** [strings.Map(unicode.ToLower, s)], and what is taken of it: a
    lowered string is left as it is by [strings.ToLower], and lowering
    puts no white space at the ends of a string that has none. *)
Variable Map_unicode_ToLower : string -> string.

Hypothesis lowered_is_lower : forall s,
  strings.isASCII s = false ->
  strings.ToLower Map_unicode_ToLower (Map_unicode_ToLower s)
  = Map_unicode_ToLower s.

Hypothesis lowered_is_trimmed : forall s,
  strings.isASCII s = false -> strings.TrimSpace s = s ->
  strings.TrimSpace (Map_unicode_ToLower s) = Map_unicode_ToLower s.

Let normal : string -> string := spec.normal Map_unicode_ToLower.

Lemma normal_idempotent s : normal (normal s) = normal s.
Proof.
  unfold normal, spec.normal.
  pose proof (TrimSpace_idempotent s) as Ht.
  set (t := strings.TrimSpace s) in *.
  unfold strings.ToLower at 2 3.
  destruct (strings.isASCII t) eqn:Ha.
  - rewrite TrimSpace_lower_ascii, Ht. unfold strings.ToLower.
    rewrite isASCII_lower_ascii, Ha. apply lower_ascii_idempotent.
  - rewrite (lowered_is_trimmed t Ha Ht). apply lowered_is_lower. exact Ha.
Qed.

Lemma ParseAuthMode_normal s :
  ParseAuthMode Map_unicode_ToLower s
  = if String.eqb (normal s) "permissive" then AuthModePermissive
    else if String.eqb (normal s) "strict" then AuthModeStrict
    else AuthModeOff.
Proof. reflexivity. Qed.

(** C9.  [ParseAuthMode] of a string is [ParseAuthMode] of its trimmed,
    lowered form; it is [permissive] when that form is "permissive",
    [strict] when it is "strict" and [off] for every other form, among
    them the empty string and "off"; [IsEnabled] is false for [off] only. *)
Theorem ParseAuthMode_decides_on_the_normal_form :
  (forall s, ParseAuthMode Map_unicode_ToLower s
             = ParseAuthMode Map_unicode_ToLower (normal s))
  /\ (forall s, normal s = "permissive" ->
                ParseAuthMode Map_unicode_ToLower s = AuthModePermissive)
  /\ (forall s, normal s = "strict" ->
                ParseAuthMode Map_unicode_ToLower s = AuthModeStrict)
  /\ (forall s, normal s <> "permissive" -> normal s <> "strict" ->
                ParseAuthMode Map_unicode_ToLower s = AuthModeOff)
  /\ ParseAuthMode Map_unicode_ToLower "permissive" = AuthModePermissive
  /\ ParseAuthMode Map_unicode_ToLower "strict" = AuthModeStrict
  /\ ParseAuthMode Map_unicode_ToLower "" = AuthModeOff
  /\ ParseAuthMode Map_unicode_ToLower "off" = AuthModeOff
  /\ (forall m, IsEnabled m = false <-> m = AuthModeOff)
  /\ IsEnabled AuthModePermissive = true
  /\ IsEnabled AuthModeStrict = true.
Proof.
  split.
  { intros s. rewrite !ParseAuthMode_normal, normal_idempotent. reflexivity. }
  split.
  { intros s H. rewrite ParseAuthMode_normal, H. reflexivity. }
  split.
  { intros s H. rewrite ParseAuthMode_normal, H. reflexivity. }
  split.
  { intros s H1 H2. rewrite ParseAuthMode_normal.
    apply String.eqb_neq in H1, H2. rewrite H1, H2. reflexivity. }
  repeat (split; [reflexivity |]).
  split; [| split; reflexivity].
  intros m. unfold IsEnabled. rewrite negb_false_iff. apply String.eqb_eq.
Qed.

End Mode.

(** The hypotheses on the Unicode case tables hold, for one, of the map
    that lowers the ASCII letters alone. *)
Lemma lower_ascii_is_lower s :
  strings.ToLower strings.lower_ascii (strings.lower_ascii s)
  = strings.lower_ascii s.
Proof.
  unfold strings.ToLower.
  destruct (strings.isASCII (strings.lower_ascii s)); apply lower_ascii_idempotent.
Qed.

Lemma lower_ascii_is_trimmed s :
  strings.TrimSpace s = s ->
  strings.TrimSpace (strings.lower_ascii s) = strings.lower_ascii s.
Proof. intros H. rewrite TrimSpace_lower_ascii, H. reflexivity. Qed.

Lemma ParseAuthMode_decides_on_the_normal_form_witness :
  ParseAuthMode strings.lower_ascii "  StRiCt "
  = ParseAuthMode strings.lower_ascii
      (spec.normal strings.lower_ascii "  StRiCt ")
  /\ ParseAuthMode strings.lower_ascii "  StRiCt " = AuthModeStrict.
Proof.
  destruct (ParseAuthMode_decides_on_the_normal_form strings.lower_ascii
              (fun s _ => lower_ascii_is_lower s)
              (fun s _ => lower_ascii_is_trimmed s))
    as (H1 & _ & H2 & _).
  split; [apply H1 | apply H2; reflexivity].
Defined.

(** * The trace: lemmas *)

(** ** UTF-8 and the string literals of JSON *)


Lemma between_high lo hi c :
  (128 <= lo)%N -> utf8.between lo hi c = true -> utf8.high c.
Proof.
  unfold utf8.between, utf8.high. intros Hlo H.
  apply andb_true_iff in H as [H _]. apply N.leb_le in H.
  apply N.ltb_ge. lia.
Qed.

(** A well-formed sequence is one ASCII byte, or a byte above 127 and
    the bytes, all above 127, that the width counts; the width reads no
    byte beyond them. *)
Lemma width_Some c r w :
  utf8.width (c :: r) = Some w ->
  (w = 1%nat /\ (utf8.byte c <? 128)%N = true)
  \/ (utf8.high c /\ exists p q, r = p ++ q /\ length p = pred w /\ Forall utf8.high p
                /\ forall q', utf8.width (c :: p ++ q') = Some w).
Proof.
  unfold utf8.width.
  destruct (utf8.byte c <? 128)%N eqn:H1; [intros [= <-]; auto |].
  right. split; [exact H1 |]. revert H.
  destruct (utf8.byte c <? 194)%N; [discriminate |].
  destruct (utf8.byte c <=? 223)%N.
  { destruct r as [| b1 r]; [discriminate |].
    destruct (utf8.cont b1) eqn:Hb1; [| discriminate]. intros [= <-].
    exists [b1], r. repeat split.
    - constructor; [| constructor]. exact (between_high 128 191 _ ltac:(lia) Hb1).
    - intros q'. simpl. rewrite Hb1. reflexivity. }
  destruct (utf8.byte c <=? 239)%N.
  { destruct r as [| b1 [| b2 r]]; try discriminate.
    destruct (utf8.between _ _ b1) eqn:Hb1; [| discriminate].
    destruct (utf8.cont b2) eqn:Hb2; [| discriminate]. intros [= <-].
    exists [b1; b2], r. repeat split.
    - constructor; [| constructor; [| constructor]].
      + eapply between_high; [| exact Hb1].
        destruct (utf8.byte c =? 224)%N; lia.
      + exact (between_high 128 191 _ ltac:(lia) Hb2).
    - intros q'. simpl. rewrite Hb1, Hb2. reflexivity. }
  destruct (utf8.byte c <=? 244)%N; [| discriminate].
  destruct r as [| b1 [| b2 [| b3 r]]]; try discriminate.
  destruct (utf8.between _ _ b1) eqn:Hb1; [| discriminate].
  destruct (utf8.cont b2) eqn:Hb2; [| discriminate].
  destruct (utf8.cont b3) eqn:Hb3; [| discriminate]. intros [= <-].
  exists [b1; b2; b3], r. repeat split.
  - constructor; [| constructor; [| constructor; [| constructor]]].
    + eapply between_high; [| exact Hb1].
      destruct (utf8.byte c =? 240)%N; lia.
    + exact (between_high 128 191 _ ltac:(lia) Hb2).
    + exact (between_high 128 191 _ ltac:(lia) Hb3).
  - intros q'. simpl. rewrite Hb1, Hb2, Hb3. reflexivity.
Qed.

Lemma coerce_skip p q : utf8.coerce (length p) (p ++ q) = p ++ utf8.coerce 0 q.
Proof. induction p as [| a p IH]; simpl; [reflexivity | rewrite IH; reflexivity]. Qed.

Lemma escape_skip p q : json.escape (length p) (p ++ q) = p ++ json.escape 0 q.
Proof. induction p as [| a p IH]; simpl; [reflexivity | rewrite IH; reflexivity]. Qed.

Lemma unquote_skip p x :
  json.unquote (length p) (p ++ x) = json.app_to p (json.unquote 0 x).
Proof.
  induction p as [| a p IH]; simpl.
  - destruct (json.unquote 0 x) as [[t r] |]; reflexivity.
  - rewrite IH. destruct (json.unquote 0 x) as [[t r] |]; reflexivity.
Qed.

Lemma high_is_plain c :
  utf8.high c ->
  Ascii.eqb c json.dquote = false /\ Ascii.eqb c "\" = false
  /\ (utf8.byte c <? 32)%N = false.
Proof.
  unfold utf8.high.
  destruct c as [[] [] [] [] [] [] [] []]; intros H; try discriminate H;
    repeat split; reflexivity.
Qed.

Lemma unquote_ascii c x :
  (utf8.byte c <? 128)%N = true ->
  json.unquote 0 ((if json.htmlSafe c then [c] else json.escape_byte c) ++ x)
  = json.cons_to c (json.unquote 0 x).
Proof.
  destruct c as [[] [] [] [] [] [] [] []]; intros H; try discriminate H;
    reflexivity.
Qed.

Lemma unquote_high c x :
  utf8.high c ->
  json.unquote 0 (c :: x)
  = match utf8.width (c :: x) with
    | Some w => json.cons_to c (json.unquote (pred w) x)
    | None => json.app_to utf8.replacement (json.unquote 0 x)
    end.
Proof.
  intros H. destruct (high_is_plain c H) as (H1 & H2 & H3).
  cbn [json.unquote]. rewrite H1, H2, H3, H. reflexivity.
Qed.

Lemma escape_ascii c r :
  (utf8.byte c <? 128)%N = true ->
  json.escape 0 (c :: r)
  = (if json.htmlSafe c then [c] else json.escape_byte c) ++ json.escape 0 r.
Proof. intros H. cbn [json.escape]. rewrite H. reflexivity. Qed.

Lemma coerce_ascii c r :
  (utf8.byte c <? 128)%N = true -> utf8.coerce 0 (c :: r) = c :: utf8.coerce 0 r.
Proof.
  intros H. cbn [utf8.coerce]. unfold utf8.width. rewrite H. reflexivity.
Qed.

(** Reading back a string literal gives the text that was written, with
    its ill-formed bytes replaced. *)
Lemma unquote_escape n : forall s rest,
  length s <= n ->
  json.unquote 0 (json.escape 0 s ++ json.dquote :: rest)
  = Some (utf8.coerce 0 s, rest).
Proof.
  induction n as [| n IH]; intros s rest Hn.
  { destruct s; [reflexivity | simpl in Hn; lia]. }
  destruct s as [| c r]; [reflexivity |]. simpl in Hn.
  destruct (utf8.byte c <? 128)%N eqn:Hc.
  { rewrite escape_ascii, coerce_ascii by exact Hc.
    rewrite <- app_assoc, unquote_ascii by exact Hc.
    rewrite IH by lia. reflexivity. }
  destruct (utf8.width (c :: r)) as [w |] eqn:Hw.
  2:{ cbn [json.escape utf8.coerce]. rewrite Hc, Hw.
      rewrite <- !app_assoc.
      change (json.unquote 0 (json.chr "\u" ++ json.chr "fffd"
                ++ json.escape 0 r ++ json.dquote :: rest))
        with (json.app_to utf8.replacement
                (json.unquote 0 (json.escape 0 r ++ json.dquote :: rest))).
      rewrite IH by lia. reflexivity. }
  destruct (width_Some c r w Hw) as [[_ H] | (Hh & p & q & -> & Hp & _ & Hwid)];
    [congruence |].
  assert (Hcoerce : utf8.coerce 0 (c :: p ++ q) = c :: p ++ utf8.coerce 0 q).
  { cbn [utf8.coerce]. rewrite Hw, <- Hp, coerce_skip. reflexivity. }
  rewrite Hcoerce. rewrite length_app in Hn.
  assert (Hgen : json.unquote 0 ((c :: json.escape (pred w) (p ++ q))
                                 ++ json.dquote :: rest)
                 = Some (c :: p ++ utf8.coerce 0 q, rest)).
  { rewrite <- Hp, escape_skip. simpl app. rewrite <- app_assoc.
    rewrite unquote_high, Hwid, <- Hp, unquote_skip by exact Hh.
    rewrite IH by lia. reflexivity. }
  cbn [json.escape]. rewrite Hc, Hw.
  destruct (p ++ q) as [| c1 [| c2 r']] eqn:Hr; try exact Hgen.
  destruct (Ascii.eqb c "226" && Ascii.eqb c1 "128"
            && (Ascii.eqb c2 "168" || Ascii.eqb c2 "169"))%char eqn:Hsep;
    [| exact Hgen].
  apply andb_true_iff in Hsep as [Hsep H3].
  apply andb_true_iff in Hsep as [H1 H2].
  apply Ascii.eqb_eq in H1, H2. subst c c1.
  assert (Hw3 : w = 3%nat).
  { apply orb_true_iff in H3 as [H3 | H3]; apply Ascii.eqb_eq in H3; subst c2;
      vm_compute in Hw; congruence. }
  subst w. destruct p as [| a [| b [| ? ?]]]; try discriminate Hp.
  injection Hr as -> -> <-.
  rewrite <- !app_assoc.
  assert (Hq : json.unquote 0 (json.escape 0 q ++ json.dquote :: rest)
               = Some (utf8.coerce 0 q, rest)) by (apply IH; simpl in Hn; lia).
  apply orb_true_iff in H3 as [H3 | H3]; apply Ascii.eqb_eq in H3; subst c2.
  - change (json.unquote 0 (json.chr "\u202" ++ [json.hex_digit (utf8.byte "168" mod 16)]
              ++ json.escape 0 q ++ json.dquote :: rest))
      with (json.app_to ["226"; "128"; "168"]%char
              (json.unquote 0 (json.escape 0 q ++ json.dquote :: rest))).
    rewrite Hq. reflexivity.
  - change (json.unquote 0 (json.chr "\u202" ++ [json.hex_digit (utf8.byte "169" mod 16)]
              ++ json.escape 0 q ++ json.dquote :: rest))
      with (json.app_to ["226"; "128"; "169"]%char
              (json.unquote 0 (json.escape 0 q ++ json.dquote :: rest))).
    rewrite Hq. reflexivity.
Qed.

(** ** Number literals *)

(** What may follow a value inside a text that [render] writes. *)


Lemma pretty_N_char_digit x :
  (x < 10)%N ->
  json.is_digit (pretty_N_char x) = true
  /\ (utf8.byte (pretty_N_char x) - 48 = x)%N
  /\ ((0 < x)%N -> json.nonzero_digit (pretty_N_char x) = true).
Proof.
  intros H.
  assert (x = 0 \/ x = 1 \/ x = 2 \/ x = 3 \/ x = 4 \/ x = 5 \/ x = 6 \/ x = 7
          \/ x = 8 \/ x = 9)%N as Hx by lia.
  repeat (destruct Hx as [-> | Hx]); try subst x;
    (split; [reflexivity | split; [reflexivity | intros H0; first [reflexivity | lia]]]).
Qed.

Lemma digits_value_snoc l c :
  trace.digits_value (l ++ [c])
  = (trace.digits_value l * 10 + (utf8.byte c - 48))%N.
Proof. unfold trace.digits_value. rewrite fold_left_app. reflexivity. Qed.

(** The decimal text of a positive number: a digit that is not zero,
    then digits, with the number as their value. *)
Lemma pretty_N_go_digits x :
  (0 < x)%N ->
  exists d ds,
    (forall s, trace.bytes (pretty_N_go x s) = d :: ds ++ trace.bytes s)
    /\ json.nonzero_digit d = true /\ forallb json.is_digit ds = true
    /\ trace.digits_value (d :: ds) = x.
Proof.
  induction (N.lt_wf_0 x) as [x _ IH]. intros Hx.
  assert (Hmod : (x mod 10 < 10)%N) by (apply N.mod_lt; lia).
  destruct (pretty_N_char_digit (x mod 10) Hmod) as (Hd & Hv & Hnz).
  destruct (N.eq_dec (x / 10)%N 0%N) as [Hq | Hq].
  - exists (pretty_N_char (x mod 10)), []. split; [| split; [| split]].
    + intros s. rewrite pretty_N_go_step by exact Hx.
      rewrite Hq, pretty_N_go_0. reflexivity.
    + apply Hnz. pose proof (N.div_mod x 10 ltac:(lia)). lia.
    + reflexivity.
    + unfold trace.digits_value. simpl. rewrite Hv.
      pose proof (N.div_mod x 10 ltac:(lia)). lia.
  - destruct (IH (x / 10)%N) as (d & ds & Hs & Hnzd & Hds & Hval).
    { apply N.div_lt; lia. }
    { apply N.neq_0_lt_0. exact Hq. }
    exists d, (ds ++ [pretty_N_char (x mod 10)]). split; [| split; [| split]].
    + intros s. rewrite pretty_N_go_step by exact Hx. rewrite Hs.
      rewrite <- app_assoc. reflexivity.
    + exact Hnzd.
    + rewrite forallb_app, Hds. simpl. rewrite Hd. reflexivity.
    + change (d :: ds ++ [pretty_N_char (x mod 10)])
        with ((d :: ds) ++ [pretty_N_char (x mod 10)]).
      rewrite digits_value_snoc, Hval, Hv.
      pose proof (N.div_mod x 10 ltac:(lia)). lia.
Qed.

Lemma pretty_positive_digits p :
  exists d ds,
    trace.bytes (pretty (Npos p)) = d :: ds
    /\ json.nonzero_digit d = true /\ forallb json.is_digit ds = true
    /\ trace.digits_value (d :: ds) = Npos p.
Proof.
  destruct (pretty_N_go_digits (Npos p)) as (d & ds & Hs & H); [lia |].
  exists d, ds. split; [| exact H].
  unfold pretty, pretty_N. destruct (decide (N.pos p = 0%N)); [discriminate |].
  rewrite Hs. change (trace.bytes "") with (@nil ascii).
  rewrite app_nil_r. reflexivity.
Qed.

Lemma nonzero_digit_facts c :
  json.nonzero_digit c = true ->
  json.is_digit c = true /\ Ascii.eqb c "0" = false /\ Ascii.eqb c "-" = false.
Proof.
  destruct c as [[] [] [] [] [] [] [] []]; intros H; try discriminate H;
    repeat split; reflexivity.
Qed.

Lemma span_digits_app ds rest :
  forallb json.is_digit ds = true -> json.delimited rest ->
  json.span_digits (ds ++ rest) = (ds, rest).
Proof.
  intros Hds Hrest. induction ds as [| c ds IH]; simpl.
  - destruct rest as [| c r]; [reflexivity |].
    destruct Hrest as [-> | [-> | ->]]; reflexivity.
  - simpl in Hds. apply andb_true_iff in Hds as [Hc Hds].
    rewrite Hc, (IH Hds). reflexivity.
Qed.

Lemma scan_digits d ds rest :
  json.nonzero_digit d = true -> forallb json.is_digit ds = true -> json.delimited rest ->
  json.scan_number (d :: ds ++ rest) = Some (d :: ds, rest)
  /\ json.scan_number ("-"%char :: d :: ds ++ rest) = Some ("-"%char :: d :: ds, rest).
Proof.
  intros Hd Hds Hrest.
  destruct (nonzero_digit_facts d Hd) as (H1 & H2 & H3).
  unfold json.scan_number. rewrite H3. cbn [Ascii.eqb Bool.eqb].
  change (Ascii.eqb "-" "-") with true. cbv iota.
  rewrite H2, H1, (span_digits_app ds rest Hds Hrest).
  destruct rest as [| c r]; simpl.
  - rewrite !app_nil_r. auto.
  - destruct Hrest as [-> | [-> | ->]]; simpl; rewrite !app_nil_r; auto.
Qed.

(** ** Reading back what [render] writes *)




Lemma value_induction (P : json.value -> Prop) :
  P json.Null -> (forall b, P (json.Bool b)) -> (forall l, P (json.Number l)) ->
  (forall s, P (json.Str s)) ->
  (forall l, Forall P l -> P (json.Array l)) ->
  (forall ms, Forall (fun m => P (snd m)) ms -> P (json.Object ms)) ->
  forall v, P v.
Proof.
  intros HN HB HNum HS HA HO.
  fix IH 1. intros [| b | l | s | l | ms].
  - exact HN.
  - apply HB.
  - apply HNum.
  - apply HS.
  - apply HA. induction l as [| x l IHl]; constructor; [apply IH | exact IHl].
  - apply HO. induction ms as [| [k x] ms IHms]; constructor; [apply IH | exact IHms].
Qed.

Lemma parse_value_unfold d s :
  json.parse_value d s =
  match json.skip_ws s with
  | [] => None
  | c :: r =>
      if Ascii.eqb c "{" then
        match d with
        | O => None
        | S d =>
            match json.skip_ws r with
            | c1 :: r1 =>
                if Ascii.eqb c1 "}" then Some (json.Object [], r1)
                else
                  '(ms, rest) ← json.members_loop (json.parse_value d) (length r) (c1 :: r1);
                  Some (json.Object ms, rest)
            | [] => None
            end
        end
      else if Ascii.eqb c "[" then
        match d with
        | O => None
        | S d =>
            match json.skip_ws r with
            | c1 :: r1 =>
                if Ascii.eqb c1 "]" then Some (json.Array [], r1)
                else
                  '(vs, rest) ← json.elements_loop (json.parse_value d) (length r) (c1 :: r1);
                  Some (json.Array vs, rest)
            | [] => None
            end
        end
      else if Ascii.eqb c json.dquote then
        '(t, rest) ← json.unquote 0 r; Some (json.Str t, rest)
      else if Ascii.eqb c "t" then
        rest ← json.expect (json.chr "rue") r; Some (json.Bool true, rest)
      else if Ascii.eqb c "f" then
        rest ← json.expect (json.chr "alse") r; Some (json.Bool false, rest)
      else if Ascii.eqb c "n" then
        rest ← json.expect (json.chr "ull") r; Some (json.Null, rest)
      else
        '(lit, rest) ← json.scan_number (c :: r); Some (json.Number lit, rest)
  end.
Proof. destruct d; reflexivity. Qed.


Lemma digit_or_minus_start c :
  c = "-"%char \/ json.is_digit c = true ->
  json.value_start c
  /\ Ascii.eqb c "{" = false /\ Ascii.eqb c "[" = false
  /\ Ascii.eqb c json.dquote = false /\ Ascii.eqb c "t" = false
  /\ Ascii.eqb c "f" = false /\ Ascii.eqb c "n" = false.
Proof.
  intros [-> | H]; [repeat split; reflexivity |].
  revert H. destruct c as [[] [] [] [] [] [] [] []]; intros H;
    try discriminate H; repeat split; reflexivity.
Qed.

Lemma render_start v :
  json.numbers_ok v -> exists c t, json.render v = c :: t /\ json.value_start c.
Proof.
  destruct v as [| [|] | l | s | l | ms]; simpl; intros H;
    try (eexists _, _; split; [reflexivity | repeat split; reflexivity]).
  destruct H as [(c & t & -> & Hc) _]. exists c, t. split; [reflexivity |].
  apply digit_or_minus_start. exact Hc.
Qed.

Lemma skip_ws_start c t : json.value_start c -> json.skip_ws (c :: t) = c :: t.
Proof. intros (H & _). simpl. rewrite H. reflexivity. Qed.

Lemma skip_ws_delimiter rest :
  json.delimited rest -> json.skip_ws rest = rest.
Proof.
  destruct rest as [| c r]; [reflexivity |].
  intros [-> | [-> | ->]]; reflexivity.
Qed.

Section Loops.

Variable d : nat.
Variable rest : list ascii.

(** The elements of an array and the members of an object are read back
    one by one when each value is. *)
Lemma elements_loop_render l :
  Forall (fun v => forall r, json.delimited r ->
            json.parse_value d (json.render v ++ r) = Some (json.read_back v, r)) l ->
  l <> [] ->
  forall fuel, length l <= fuel ->
  json.elements_loop (json.parse_value d) fuel
    (json.join (json.chr ",") (map json.render l) ++ "]"%char :: rest)
  = Some (map json.read_back l, rest).
Proof.
  induction 1 as [| v l Hv Hl IH]; [congruence |]. intros _ fuel Hfuel.
  destruct fuel as [| fuel]; [simpl in Hfuel; lia |].
  cbn [json.elements_loop]. destruct l as [| v' l'].
  - simpl json.join. rewrite (Hv ("]"%char :: rest)) by (simpl; auto).
    reflexivity.
  - change (json.join (json.chr ",") (map json.render (v :: v' :: l')))
      with (json.render v ++ json.chr ","
            ++ json.join (json.chr ",") (map json.render (v' :: l'))).
    rewrite <- !app_assoc.
    rewrite (Hv (json.chr "," ++ _)) by (simpl; auto).
    cbn [mbind option_bind]. simpl json.skip_ws.
    change (Ascii.eqb "," ",") with true. cbv iota.
    rewrite IH by (try discriminate; simpl in Hfuel |- *; lia).
    reflexivity.
Qed.


Lemma members_loop_render ms :
  Forall (fun m => forall r, json.delimited r ->
            json.parse_value d (json.render (snd m) ++ r)
            = Some (json.read_back (snd m), r)) ms ->
  ms <> [] ->
  forall fuel, length ms <= fuel ->
  json.members_loop (json.parse_value d) fuel
    (json.join (json.chr ",") (map json.render_member ms) ++ "}"%char :: rest)
  = Some (map (fun m => (utf8.coerce 0 (fst m), json.read_back (snd m))) ms, rest).
Proof.
  induction 1 as [| [k v] l Hv Hl IH]; [congruence |]. intros _ fuel Hfuel.
  destruct fuel as [| fuel]; [simpl in Hfuel; lia |].
  simpl in Hv.
  assert (Hone : forall tail, json.delimited tail ->
    (s0 ← json.expect [json.dquote] (json.skip_ws (json.render_member (k, v) ++ tail));
     '(k', s1) ← json.unquote 0 s0;
     s1' ← json.expect (json.chr ":") (json.skip_ws s1);
     json.parse_value d s1' ≫= fun '(v', s2) => Some (k', v', s2))
    = Some (utf8.coerce 0 k, json.read_back v, tail)).
  { intros tail Htail. unfold json.render_member, json.quote. simpl fst. simpl snd.
    rewrite <- !app_assoc. simpl app at 1.
    change (json.skip_ws (json.dquote :: ?x)) with (json.dquote :: x).
    cbn [json.expect]. change (Ascii.eqb json.dquote json.dquote) with true.
    cbv iota. cbn [mbind option_bind].
    rewrite (unquote_escape (length k) k _ (le_n _)).
    cbn [mbind option_bind]. simpl app. simpl json.skip_ws.
    cbn [json.expect json.chr list_ascii_of_string].
    change (Ascii.eqb ":" ":") with true. cbv iota. cbn [mbind option_bind].
    rewrite (Hv tail Htail). reflexivity. }
  cbn [json.members_loop]. destruct l as [| m' l'].
  - simpl json.join. simpl map.
    specialize (Hone ("}"%char :: rest) ltac:(simpl; auto)).
    destruct (json.expect [json.dquote] _) as [s0 |]; [| discriminate Hone].
    cbn [mbind option_bind] in Hone |- *.
    destruct (json.unquote 0 s0) as [[k' s1] |]; [| discriminate Hone].
    cbn [mbind option_bind] in Hone |- *.
    destruct (json.expect (json.chr ":") _) as [s1' |]; [| discriminate Hone].
    cbn [mbind option_bind] in Hone |- *.
    destruct (json.parse_value d s1') as [[v' s2] |]; [| discriminate Hone].
    cbn [mbind option_bind] in Hone |- *.
    injection Hone as -> -> ->. reflexivity.
  - change (json.join (json.chr ",") (map json.render_member ((k, v) :: m' :: l')))
      with (json.render_member (k, v) ++ json.chr ","
            ++ json.join (json.chr ",") (map json.render_member (m' :: l'))).
    rewrite <- !app_assoc.
    specialize (Hone (json.chr "," ++ json.join (json.chr ",")
                        (map json.render_member (m' :: l')) ++ "}"%char :: rest)
                  ltac:(simpl; auto)).
    destruct (json.expect [json.dquote] _) as [s0 |]; [| discriminate Hone].
    cbn [mbind option_bind] in Hone |- *.
    destruct (json.unquote 0 s0) as [[k' s1] |]; [| discriminate Hone].
    cbn [mbind option_bind] in Hone |- *.
    destruct (json.expect (json.chr ":") _) as [s1' |]; [| discriminate Hone].
    cbn [mbind option_bind] in Hone |- *.
    destruct (json.parse_value d s1') as [[v' s2] |]; [| discriminate Hone].
    cbn [mbind option_bind] in Hone |- *.
    injection Hone as -> -> ->.
    simpl json.skip_ws. change (Ascii.eqb "," ",") with true. cbv iota.
    rewrite IH by (try discriminate; simpl in Hfuel |- *; lia).
    reflexivity.
Qed.

End Loops.

Lemma join_length sep (l : list (list ascii)) :
  Forall (fun x => x <> []) l -> length l <= length (json.join sep l).
Proof.
  induction 1 as [| x l Hx Hl IH]; [simpl; lia |].
  destruct l as [| y l'].
  - simpl. destruct x; [congruence | simpl; lia].
  - change (json.join sep (x :: y :: l')) with (x ++ sep ++ json.join sep (y :: l')).
    rewrite !length_app. destruct x; [congruence |]. simpl in IH |- *. lia.
Qed.

Lemma join_start sep x (l : list (list ascii)) c t :
  x = c :: t -> exists t', json.join sep (x :: l) = c :: t'.
Proof.
  intros ->. destruct l; simpl; eauto.
Qed.

Lemma numbers_ok_elements l :
  fold_right (fun x P => json.numbers_ok x /\ P) True l -> Forall json.numbers_ok l.
Proof. induction l; simpl; intros H; constructor; tauto. Qed.

Lemma numbers_ok_members (ms : list (list ascii * json.value)) :
  fold_right (fun m P => json.numbers_ok (snd m) /\ P) True ms ->
  Forall (fun m => json.numbers_ok (snd m)) ms.
Proof. induction ms; simpl; intros H; constructor; tauto. Qed.

Lemma depth_elements l n :
  fold_right (fun x n => Nat.max (json.depth x) n) O l <= n ->
  Forall (fun x => json.depth x <= n) l.
Proof.
  induction l; simpl; intros H; constructor; [lia | apply IHl; lia].
Qed.

Lemma depth_members (ms : list (list ascii * json.value)) n :
  fold_right (fun m n => Nat.max (json.depth (snd m)) n) O ms <= n ->
  Forall (fun m => json.depth (snd m) <= n) ms.
Proof.
  induction ms; simpl; intros H; constructor; [lia | apply IHms; lia].
Qed.

(** Reading a rendered document gives the document back, its strings
    coerced to well-formed UTF-8. *)
Lemma parse_value_render v :
  json.numbers_ok v -> forall d rest, json.depth v <= d -> json.delimited rest ->
  json.parse_value d (json.render v ++ rest) = Some (json.read_back v, rest).
Proof.
  induction v as [| b | lit | s | l IH | ms IH] using value_induction;
    intros Hok d rest Hd Hrest; rewrite parse_value_unfold.
  - reflexivity.
  - destruct b; reflexivity.
  - destruct Hok as [(c & t & -> & Hc) [Hscan _]].
    destruct (digit_or_minus_start c Hc) as (Hs & H1 & H2 & H3 & H4 & H5 & H6).
    simpl json.render. simpl app. rewrite (skip_ws_start c _ Hs).
    rewrite H1, H2, H3, H4, H5, H6.
    change (c :: t ++ rest) with ((c :: t) ++ rest).
    rewrite (Hscan rest Hrest). reflexivity.
  - simpl json.render. unfold json.quote. rewrite <- ?app_assoc. simpl app. rewrite <- ?app_assoc.
    change (json.skip_ws (json.dquote :: ?x)) with (json.dquote :: x).
    change (Ascii.eqb json.dquote "{") with false.
    change (Ascii.eqb json.dquote "[") with false.
    change (Ascii.eqb json.dquote json.dquote) with true. cbv iota.
    rewrite (unquote_escape (length s) s rest (le_n _)). reflexivity.
  - simpl in Hok, Hd. apply numbers_ok_elements in Hok.
    destruct d as [| d]; [lia |]. apply le_S_n, depth_elements in Hd.
    destruct l as [| v l]; [reflexivity |].
    change (json.render (json.Array (v :: l)))
      with ("["%char :: (json.join (json.chr ",") (map json.render (v :: l))
                         ++ json.chr "]")).
    change (("["%char :: ?x) ++ rest) with ("["%char :: (x ++ rest)).
    rewrite <- app_assoc.
    change (json.chr "]" ++ rest) with ("]"%char :: rest).
    assert (Hfuel : length (v :: l)
                    <= length (json.join (json.chr ",") (map json.render (v :: l))
                               ++ "]"%char :: rest)).
    { rewrite length_app, <- (length_map json.render (v :: l)).
      pose proof (join_length (json.chr ",") (map json.render (v :: l))) as Hj.
      assert (Forall (fun x => x <> []) (map json.render (v :: l))) as Hne.
      { apply Forall_map. eapply Forall_impl; [exact Hok |].
        intros x Hx. simpl. destruct (render_start x Hx) as (c & t & -> & _).
        discriminate. }
      specialize (Hj Hne). lia. }
    assert (Hall : Forall (fun v => forall r, json.delimited r ->
              json.parse_value d (json.render v ++ r) = Some (json.read_back v, r))
              (v :: l)).
    { rewrite Forall_forall in IH, Hok, Hd |- *. intros x Hx r Hr.
      apply IH; auto. }
    pose proof (elements_loop_render d rest (v :: l) Hall ltac:(discriminate)
                  _ Hfuel) as Hloop.
    destruct (render_start v (Forall_inv Hok)) as (c & t & Hv & Hc).
    destruct (join_start (json.chr ",") (json.render v) (map json.render l) c t Hv)
      as (t' & Hj).
    change (map json.render (v :: l)) with (json.render v :: map json.render l) in *.
    rewrite Hj in Hloop |- *.
    change ((c :: t') ++ "]"%char :: rest) with (c :: t' ++ "]"%char :: rest) in *.
    change (json.skip_ws ("["%char :: ?x)) with ("["%char :: x).
    cbv beta iota.
    change (Ascii.eqb "[" "{") with false.
    change (Ascii.eqb "[" "[") with true. cbv beta iota.
    rewrite (skip_ws_start c _ Hc). destruct Hc as (_ & Hc & _). rewrite Hc.
    rewrite Hloop. reflexivity.
  - simpl in Hok, Hd. apply numbers_ok_members in Hok.
    destruct d as [| d]; [lia |]. apply le_S_n, depth_members in Hd.
    destruct ms as [| m ms]; [reflexivity |].
    change (json.render (json.Object (m :: ms)))
      with ("{"%char :: (json.join (json.chr ",") (map json.render_member (m :: ms))
                         ++ json.chr "}")).
    change (("{"%char :: ?x) ++ rest) with ("{"%char :: (x ++ rest)).
    rewrite <- app_assoc.
    change (json.chr "}" ++ rest) with ("}"%char :: rest).
    assert (Hfuel : length (m :: ms)
                    <= length (json.join (json.chr ",") (map json.render_member (m :: ms))
                               ++ "}"%char :: rest)).
    { rewrite length_app, <- (length_map json.render_member (m :: ms)).
      pose proof (join_length (json.chr ",") (map json.render_member (m :: ms))) as Hj.
      assert (Forall (fun x => x <> []) (map json.render_member (m :: ms))) as Hne.
      { apply Forall_map, Forall_forall. intros x _. discriminate. }
      specialize (Hj Hne). lia. }
    assert (Hall : Forall (fun m => forall r, json.delimited r ->
              json.parse_value d (json.render (snd m) ++ r)
              = Some (json.read_back (snd m), r)) (m :: ms)).
    { rewrite Forall_forall in IH, Hok, Hd |- *. intros x Hx r Hr.
      apply IH; auto. }
    pose proof (members_loop_render d rest (m :: ms) Hall ltac:(discriminate)
                  _ Hfuel) as Hloop.
    destruct (join_start (json.chr ",") (json.render_member m) (map json.render_member ms)
                json.dquote (json.escape 0 (fst m) ++ [json.dquote] ++ json.chr ":"
                             ++ json.render (snd m)))
      as (t' & Hj).
    { unfold json.render_member, json.quote. rewrite <- !app_assoc. reflexivity. }
    change (map json.render_member (m :: ms))
      with (json.render_member m :: map json.render_member ms) in *.
    rewrite Hj in Hloop |- *.
    change ((json.dquote :: t') ++ "}"%char :: rest)
      with (json.dquote :: t' ++ "}"%char :: rest) in *.
    change (json.skip_ws ("{"%char :: ?x)) with ("{"%char :: x).
    cbv beta iota.
    change (Ascii.eqb "{" "{") with true. cbv beta iota.
    change (json.skip_ws (json.dquote :: ?x)) with (json.dquote :: x).
    cbv beta iota.
    change (Ascii.eqb json.dquote "}") with false. cbv beta iota.
    rewrite Hloop. reflexivity.
Qed.

(** ** White space and the coercion of strings *)

Lemma trim_prefix_fuel codes :
  (forall p, In p codes -> p <> []) ->
  forall n m s, length s <= n -> length s <= m ->
  strings.trim_prefix codes n s = strings.trim_prefix codes m s.
Proof.
  intros Hne. induction n as [| n IH]; intros m s Hn Hm.
  - destruct s; [| simpl in Hn; lia]. destruct m; simpl; [reflexivity |].
    destruct (strings.cut_any codes []) as [r |] eqn:H; [| reflexivity].
    destruct (cut_any_Some codes [] r H) as (p & Hp & Heq).
    destruct p; [exfalso; exact (Hne [] Hp eq_refl) | discriminate].
  - destruct m as [| m].
    + destruct s; [| simpl in Hm; lia]. simpl.
      destruct (strings.cut_any codes []) as [r |] eqn:H; [| reflexivity].
      destruct (cut_any_Some codes [] r H) as (p & Hp & Heq).
      destruct p; [exfalso; exact (Hne [] Hp eq_refl) | discriminate].
    + simpl. destruct (strings.cut_any codes s) as [r |] eqn:H; [| reflexivity].
      destruct (cut_any_Some codes s r H) as (p & Hp & ->).
      rewrite length_app in Hn, Hm.
      destruct p; [exfalso; exact (Hne [] Hp eq_refl) |].
      simpl in Hn, Hm. apply IH; lia.
Qed.

Lemma trim_prefix_nil codes n s :
  strings.trim_prefix codes n s = [] ->
  s = [] \/ exists r q, In q codes /\ s = r ++ q.
Proof.
  revert s. induction n as [| n IH]; intros s; simpl; [auto |].
  destruct (strings.cut_any codes s) as [r |] eqn:H; [| auto].
  destruct (cut_any_Some codes s r H) as (p & Hp & ->).
  intros Hr. right. destruct (IH r Hr) as [-> | (r' & q & Hq & ->)].
  - exists [], p. rewrite app_nil_r. auto.
  - exists (p ++ r'), q. rewrite app_assoc. auto.
Qed.

(** A list with no white space in front that the right trim empties is
    empty. *)
Lemma trim_right_nil u :
  strings.cut_any strings.white_space u = None ->
  strings.trim_right u = [] -> u = [].
Proof.
  intros Hu H. unfold strings.trim_right in H.
  assert (H' : strings.trim_prefix strings.rev_white_space (length u) (rev u) = []).
  { rewrite <- (rev_involutive (strings.trim_prefix _ _ _)), H. reflexivity. }
  destruct (trim_prefix_nil _ _ _ H') as [Hr | (r & q & Hq & Hr)].
  - rewrite <- (rev_involutive u), Hr. reflexivity.
  - exfalso. unfold strings.rev_white_space in Hq.
    apply in_map_iff in Hq as (p & <- & Hp).
    apply (cut_any_None strings.white_space u p (rev r) Hu Hp).
    rewrite <- (rev_involutive u), Hr, rev_app_distr, rev_involutive.
    reflexivity.
Qed.


Lemma blank_iff l : strings.blank l <-> strings.trim_left l = [].
Proof.
  unfold strings.blank. split.
  - apply trim_right_nil, trim_left_done.
  - intros ->. reflexivity.
Qed.

Lemma cut_white_space p x :
  In p strings.white_space ->
  strings.cut_any strings.white_space (p ++ x) = Some x
  /\ utf8.coerce 0 (p ++ x) = p ++ utf8.coerce 0 x.
Proof.
  unfold strings.white_space. simpl In.
  intros H. repeat (destruct H as [<- | H]; [split; reflexivity |]).
  contradiction.
Qed.

Lemma coerce_nil l : utf8.coerce 0 l = [] -> l = [].
Proof.
  destruct l as [| c r]; [reflexivity |]. cbn [utf8.coerce].
  destruct (utf8.width (c :: r)); discriminate.
Qed.

Lemma no_space_ascii c x y :
  (utf8.byte c <? 128)%N = true ->
  strings.cut_any strings.white_space (c :: x) = None ->
  strings.cut_any strings.white_space (c :: y) = None.
Proof.
  destruct c as [[] [] [] [] [] [] [] []]; intros H; try discriminate H;
    intros H'; try discriminate H'; reflexivity.
Qed.

Ltac split_byte b :=
  destruct b as [[] [] [] [] [] [] [] []];
  try (intros _; reflexivity);
  try (let H := fresh in intros H; vm_compute in H; discriminate H).

Lemma no_space_high c p q q' w :
  utf8.width (c :: p ++ q) = Some w -> length p = pred w -> utf8.high c ->
  strings.cut_any strings.white_space (c :: p ++ q) = None ->
  strings.cut_any strings.white_space (c :: p ++ q') = None.
Proof.
  intros Hw Hp Hc.
  destruct (Ascii.eqb_spec c "194") as [-> | H194].
  { destruct p as [| b1 p].
    - simpl app in *. intros _. simpl in Hw.
      destruct q as [| ? ?]; try discriminate.
      destruct (utf8.cont _) in Hw; [| discriminate]. injection Hw as <-. discriminate.
    - assert (w = 2%nat) as ->.
      { simpl in Hw. destruct (utf8.cont b1); congruence. }
      destruct p; [| discriminate]. simpl app. split_byte b1. }
  destruct (Ascii.eqb_spec c "225") as [-> | H225].
  { destruct p as [| b1 [| b2 p]].
    - simpl app in *. intros _. simpl in Hw.
      destruct q as [| ? [| ? ?]]; try discriminate.
      destruct (_ && _) in Hw; [| discriminate]. injection Hw as <-. discriminate.
    - simpl app in *. simpl in Hw. destruct q as [| ? ?]; [discriminate |].
      destruct (_ && _) in Hw; [| discriminate]. injection Hw as <-. discriminate.
    - assert (w = 3%nat) as ->.
      { simpl in Hw. destruct (_ && _) in Hw; congruence. }
      destruct p; [| discriminate]. simpl app.
      split_byte b1; split_byte b2. }
  destruct (Ascii.eqb_spec c "226") as [-> | H226].
  { destruct p as [| b1 [| b2 p]].
    - simpl app in *. intros _. simpl in Hw.
      destruct q as [| ? [| ? ?]]; try discriminate.
      destruct (_ && _) in Hw; [| discriminate]. injection Hw as <-. discriminate.
    - simpl app in *. simpl in Hw. destruct q as [| ? ?]; [discriminate |].
      destruct (_ && _) in Hw; [| discriminate]. injection Hw as <-. discriminate.
    - assert (w = 3%nat) as ->.
      { simpl in Hw. destruct (_ && _) in Hw; congruence. }
      destruct p; [| discriminate]. simpl app.
      split_byte b1; split_byte b2. }
  destruct (Ascii.eqb_spec c "227") as [-> | H227].
  { destruct p as [| b1 [| b2 p]].
    - simpl app in *. intros _. simpl in Hw.
      destruct q as [| ? [| ? ?]]; try discriminate.
      destruct (_ && _) in Hw; [| discriminate]. injection Hw as <-. discriminate.
    - simpl app in *. simpl in Hw. destruct q as [| ? ?]; [discriminate |].
      destruct (_ && _) in Hw; [| discriminate]. injection Hw as <-. discriminate.
    - assert (w = 3%nat) as ->.
      { simpl in Hw. destruct (_ && _) in Hw; congruence. }
      destruct p; [| discriminate]. simpl app.
      split_byte b1; split_byte b2. }
  intros _. revert Hc H194 H225 H226 H227. unfold utf8.high.
  destruct c as [[] [] [] [] [] [] [] []]; intros Hc; try discriminate Hc;
    intros; try congruence; reflexivity.
Qed.

Lemma no_space_coerce l :
  l <> [] -> strings.cut_any strings.white_space l = None ->
  strings.cut_any strings.white_space (utf8.coerce 0 l) = None.
Proof.
  destruct l as [| c r]; [congruence |]. intros _ H. cbn [utf8.coerce].
  destruct (utf8.width (c :: r)) as [w |] eqn:Hw; [| reflexivity].
  destruct (width_Some c r w Hw) as [[-> Hc] | (Hc & p & q & -> & Hp & _)].
  - exact (no_space_ascii c r _ Hc H).
  - rewrite <- Hp, coerce_skip.
    exact (no_space_high c p q _ w Hw Hp Hc H).
Qed.

Lemma trim_left_cons p x :
  In p strings.white_space ->
  strings.trim_left (p ++ x) = strings.trim_left x.
Proof.
  intros Hp. unfold strings.trim_left.
  destruct p as [| a p]; [destruct (white_space_nonempty _ Hp eq_refl) |].
  rewrite length_app. cbn [length Nat.add strings.trim_prefix].
  rewrite (proj1 (cut_white_space (a :: p) x Hp)).
  apply trim_prefix_fuel; [exact white_space_nonempty | lia | lia].
Qed.

Lemma trim_left_coerce n : forall l,
  length l <= n ->
  strings.trim_left (utf8.coerce 0 l) = [] -> strings.trim_left l = [].
Proof.
  induction n as [| n IH]; intros l Hn.
  - destruct l; [reflexivity | simpl in Hn; lia].
  - destruct l as [| c r] eqn:El; [reflexivity |]. rewrite <- El in *.
    destruct (strings.cut_any strings.white_space l) as [x |] eqn:Hcut.
    + destruct (cut_any_Some _ _ _ Hcut) as (p & Hp & Hl).
      rewrite Hl, (proj2 (cut_white_space p x Hp)), !trim_left_cons by exact Hp.
      apply IH. subst l. rewrite Hl, length_app in Hn.
      destruct p; [destruct (white_space_nonempty _ Hp eq_refl) |].
      simpl in Hn. lia.
    + intros H. exfalso.
      assert (Hne : l <> []) by (rewrite El; discriminate).
      pose proof (no_space_coerce l Hne Hcut) as Hc.
      unfold strings.trim_left in H.
      rewrite trim_prefix_fixed in H by exact Hc.
      apply coerce_nil in H. contradiction.
Qed.

(** A string is strings.blank when [strings.TrimSpace] leaves nothing of it. *)
Lemma TrimSpace_blank s :
  strings.TrimSpace s = "" <-> strings.trim_left (strings.bytes_of s) = [].
Proof.
  unfold strings.TrimSpace. rewrite <- blank_iff. unfold strings.blank. split.
  - intros H. apply (f_equal strings.bytes_of) in H.
    rewrite bytes_of_bytes in H. exact H.
  - intros ->. reflexivity.
Qed.

(** What the decoder makes of an encoded string is strings.blank only if the
    string was. *)
Lemma coerced_blank s :
  strings.TrimSpace (trace.text (utf8.coerce 0 (trace.bytes s))) = "" ->
  strings.TrimSpace s = "".
Proof.
  rewrite !TrimSpace_blank. unfold trace.text, trace.bytes.
  change string_of_list_ascii with strings.of_bytes.
  change list_ascii_of_string with strings.bytes_of.
  rewrite bytes_of_bytes. apply (trim_left_coerce _ _ (le_n _)).
Qed.

Lemma coerced_empty s :
  trace.text (utf8.coerce 0 (trace.bytes s)) = "" -> s = "".
Proof.
  unfold trace.text, trace.bytes. intros H.
  apply (f_equal list_ascii_of_string) in H.
  rewrite list_ascii_of_string_of_list_ascii in H.
  apply coerce_nil in H.
  rewrite <- (string_of_list_ascii_of_string s), H. reflexivity.
Qed.



Lemma bytes_minus s : trace.bytes ("-" +:+ s) = "-"%char :: trace.bytes s.
Proof. reflexivity. Qed.

Lemma is_digit_string_cons d ds :
  json.is_digit d = true -> forallb json.is_digit ds = true ->
  trace.is_digit_string (d :: ds) = true.
Proof.
  intros Hd Hds. unfold trace.is_digit_string.
  rewrite bool_decide_eq_false_2 by discriminate.
  simpl. rewrite Hd, Hds. reflexivity.
Qed.

Lemma digit_is_plain c : json.is_digit c = true -> (utf8.byte c <? 32)%N = false.
Proof.
  destruct c as [[] [] [] [] [] [] [] []]; intros H; try discriminate H;
    reflexivity.
Qed.

Lemma digits_plain ds : forallb json.is_digit ds = true -> json.plain ds.
Proof.
  intros H. apply Forall_forall. intros c Hc. apply digit_is_plain.
  rewrite forallb_forall in H. apply H, list_elem_of_In, Hc.
Qed.

Lemma pretty_Z_literal n :
  n <> 0%Z -> json.number_literal (trace.bytes (pretty n)).
Proof.
  intros Hn. destruct n as [| p | p]; [congruence | |];
    destruct (pretty_positive_digits p) as (d & ds & Hs & Hd & Hds & _);
    destruct (nonzero_digit_facts d Hd) as (Hd' & _).
  - change (pretty (Z.pos p)) with (pretty (N.pos p)). rewrite Hs.
    split; [| split].
    + exists d, ds. auto.
    + intros rest Hrest. exact (proj1 (scan_digits d ds rest Hd Hds Hrest)).
    + constructor; [apply digit_is_plain, Hd' | apply digits_plain, Hds].
  - change (pretty (Z.neg p)) with ("-" +:+ pretty (N.pos p)).
    rewrite bytes_minus, Hs. split; [| split].
    + exists "-"%char, (d :: ds). auto.
    + intros rest Hrest. exact (proj2 (scan_digits d ds rest Hd Hds Hrest)).
    + constructor; [reflexivity |].
      constructor; [apply digit_is_plain, Hd' | apply digits_plain, Hds].
Qed.

Lemma ParseInt64_pretty n :
  n <> 0%Z -> trace.int64 n -> trace.ParseInt64 (trace.bytes (pretty n)) = Some n.
Proof.
  unfold trace.int64. intros Hn Hr. destruct n as [| p | p]; [congruence | |];
    destruct (pretty_positive_digits p) as (d & ds & Hs & Hd & Hds & Hv);
    destruct (nonzero_digit_facts d Hd) as (Hd' & _ & Hm).
  - change (pretty (Z.pos p)) with (pretty (N.pos p)). rewrite Hs.
    unfold trace.ParseInt64. rewrite Hm, is_digit_string_cons, Hv by assumption.
    replace (N.pos p <? 2 ^ 63)%N with true by (symmetry; apply N.ltb_lt; lia).
    reflexivity.
  - change (pretty (Z.neg p)) with ("-" +:+ pretty (N.pos p)).
    rewrite bytes_minus, Hs. unfold trace.ParseInt64.
    change (Ascii.eqb "-" "-") with true. cbv iota.
    rewrite is_digit_string_cons, Hv by assumption.
    replace (N.pos p <=? 2 ^ 63)%N with true by (symmetry; apply N.leb_le; lia).
    reflexivity.
Qed.

Lemma omitempty_int64_nonzero name n :
  n <> 0%Z ->
  trace.omitempty_int64 name n
  = trace.field name (json.Number (trace.bytes (pretty n))).
Proof.
  intros Hn. unfold trace.omitempty_int64.
  destruct (Z.eqb_spec n 0); [contradiction | reflexivity].
Qed.

(** ** The struct tags: what is written is read back *)

Lemma read_back_members_app a b :
  trace.read_back_members (a ++ b)
  = trace.read_back_members a ++ trace.read_back_members b.
Proof. apply map_app. Qed.

Lemma read_field_app {A} name (set : json.value -> A -> option A) a b cur :
  trace.read_field name set (a ++ b) cur
  = trace.read_field name set a cur ≫= trace.read_field name set b.
Proof.
  revert cur. induction a as [| [k v] a IH]; intros cur; [reflexivity |].
  simpl. destruct (trace.key_is name k); [| apply IH].
  destruct (set v cur) as [cur' |]; [apply IH | reflexivity].
Qed.

Section Slots.

Context {A : Type}.
Variable name : string.
Variable set : json.value -> A -> option A.

(** The field of another name leaves the one that is read as it is. *)
Lemma read_other name' ms rest cur :
  trace.slot name' ms ->
  trace.key_is name (utf8.coerce 0 (trace.bytes name')) = false ->
  trace.read_field name set (trace.read_back_members (ms ++ rest)) cur
  = trace.read_field name set (trace.read_back_members rest) cur.
Proof.
  intros [-> | (v & ->)] Hk; [reflexivity |].
  cbn [app trace.read_back_members map fst snd trace.read_field].
  rewrite Hk. reflexivity.
Qed.

Lemma read_other_last name' ms cur :
  trace.slot name' ms ->
  trace.key_is name (utf8.coerce 0 (trace.bytes name')) = false ->
  trace.read_field name set (trace.read_back_members ms) cur = Some cur.
Proof.
  intros Hs Hk. rewrite <- (app_nil_r ms), (read_other name' ms [] cur Hs Hk).
  reflexivity.
Qed.

(** The field itself, when it is there. *)
Lemma read_this v rest cur :
  trace.key_is name (utf8.coerce 0 (trace.bytes name)) = true ->
  trace.read_field name set
    (trace.read_back_members (trace.field name v ++ rest)) cur
  = set (json.read_back v) cur
      ≫= trace.read_field name set (trace.read_back_members rest).
Proof.
  intros Hk.
  cbn [trace.field app trace.read_back_members map fst snd trace.read_field].
  rewrite Hk. reflexivity.
Qed.

End Slots.

Lemma slot_field name v : trace.slot name (trace.field name v).
Proof. right. exists v. reflexivity. Qed.

Lemma slot_string name s : trace.slot name (trace.omitempty_string name s).
Proof.
  unfold trace.omitempty_string. destruct (String.eqb s "");
    [left; reflexivity | apply slot_field].
Qed.

Lemma slot_int64 name n : trace.slot name (trace.omitempty_int64 name n).
Proof.
  unfold trace.omitempty_int64. destruct (n =? 0)%Z;
    [left; reflexivity | apply slot_field].
Qed.

Lemma slot_bool name b : trace.slot name (trace.omitempty_bool name b).
Proof. destruct b; [apply slot_field | left; reflexivity]. Qed.

Lemma slot_ptr {A} name (enc : A -> json.value) p :
  trace.slot name (trace.omitempty_ptr name enc p).
Proof. destruct p; [apply slot_field | left; reflexivity]. Qed.

Lemma slot_slice {A} name (enc : A -> json.value) l :
  trace.slot name (trace.omitempty_slice name enc l).
Proof. destruct l; [left; reflexivity | apply slot_field]. Qed.

Create HintDb slots.

#[local] Hint Resolve slot_field slot_string slot_int64 slot_bool slot_ptr
  slot_slice : slots.

Lemma coerced_empty_string : trace.coerced "" = "".
Proof. reflexivity. Qed.

Section Fields.

Variable name : string.
Hypothesis Hname :
  trace.key_is name (utf8.coerce 0 (trace.bytes name)) = true.

(** What each kind of field reads from what it wrote, into the zero
    value. *)
Lemma read_string s rest cur :
  trace.read_field name trace.set_string
    (trace.read_back_members (trace.field name (trace.enc_string s) ++ rest)) cur
  = trace.read_field name trace.set_string (trace.read_back_members rest)
      (trace.coerced s).
Proof. rewrite read_this by exact Hname. reflexivity. Qed.

Lemma read_omitempty_string s rest :
  trace.read_field name trace.set_string
    (trace.read_back_members (trace.omitempty_string name s ++ rest)) ""
  = trace.read_field name trace.set_string (trace.read_back_members rest)
      (trace.coerced s).
Proof.
  unfold trace.omitempty_string. destruct (String.eqb_spec s "") as [-> | _].
  - reflexivity.
  - rewrite read_this by exact Hname. reflexivity.
Qed.

Lemma read_omitempty_int64 n rest :
  trace.int64 n ->
  trace.read_field name trace.set_int64
    (trace.read_back_members (trace.omitempty_int64 name n ++ rest)) 0%Z
  = trace.read_field name trace.set_int64 (trace.read_back_members rest) n.
Proof.
  intros Hn. unfold trace.omitempty_int64.
  destruct (Z.eqb_spec n 0) as [-> | Hz]; [reflexivity |].
  rewrite read_this by exact Hname. cbn [json.read_back trace.set_int64].
  rewrite ParseInt64_pretty by assumption. reflexivity.
Qed.

Lemma read_omitempty_bool b rest :
  trace.read_field name trace.set_bool
    (trace.read_back_members (trace.omitempty_bool name b ++ rest)) false
  = trace.read_field name trace.set_bool (trace.read_back_members rest) b.
Proof.
  destruct b; [| reflexivity].
  unfold trace.omitempty_bool. rewrite read_this by exact Hname. reflexivity.
Qed.

Lemma read_omitempty_ptr {A} (enc : A -> json.value) zero
    (dec : json.value -> A -> option A) (f : A -> A) p rest :
  (forall a, p = Some a ->
     json.read_back (enc a) <> json.Null
     /\ dec (json.read_back (enc a)) zero = Some (f a)) ->
  trace.read_field name (trace.set_ptr zero dec)
    (trace.read_back_members (trace.omitempty_ptr name enc p ++ rest)) None
  = trace.read_field name (trace.set_ptr zero dec)
      (trace.read_back_members rest) (option_map f p).
Proof.
  intros H. destruct p as [a |]; [| reflexivity].
  destruct (H a eq_refl) as [Hnull Hdec].
  unfold trace.omitempty_ptr. rewrite read_this by exact Hname.
  unfold trace.set_ptr.
  destruct (json.read_back (enc a)) eqn:Hv; try congruence;
    cbn [default]; rewrite Hdec; reflexivity.
Qed.

Lemma read_omitempty_slice {A} (enc : A -> json.value) zero
    (dec : json.value -> A -> option A) (f : A -> A) l rest :
  Forall (fun a => dec (json.read_back (enc a)) zero = Some (f a)) l ->
  trace.read_field name (trace.set_slice zero dec)
    (trace.read_back_members (trace.omitempty_slice name enc l ++ rest)) []
  = trace.read_field name (trace.set_slice zero dec)
      (trace.read_back_members rest) (map f l).
Proof.
  intros H. destruct l as [| a l]; [reflexivity |].
  unfold trace.omitempty_slice. rewrite read_this by exact Hname.
  cbn [json.read_back trace.set_slice].
  assert (Hm : mapM (fun x => dec x zero) (map json.read_back (map enc (a :: l)))
               = Some (map f (a :: l))).
  { induction H as [| b l' Hb Hl IH]; [reflexivity |].
    cbn [map mapM]. rewrite Hb. cbn [mbind option_bind].
    cbn [map] in IH. rewrite IH. reflexivity. }
  rewrite Hm. reflexivity.
Qed.

End Fields.

Lemma read_back_Object ms :
  json.read_back (json.Object ms) = json.Object (trace.read_back_members ms).
Proof. reflexivity. Qed.

Lemma read_nothing {A} name (set : json.value -> A -> option A) cur :
  trace.read_field name set (trace.read_back_members []) cur = Some cur.
Proof. reflexivity. Qed.

Lemma read_string_value s cur :
  trace.set_string (json.read_back (trace.enc_string s)) cur
  = Some (trace.coerced s).
Proof. reflexivity. Qed.

(** The name that a slot of an object carries. *)
Ltac slot_name ms :=
  lazymatch ms with
  | trace.field ?n _ => n
  | trace.omitempty_string ?n _ => n
  | trace.omitempty_int64 ?n _ => n
  | trace.omitempty_bool ?n _ => n
  | trace.omitempty_ptr ?n _ _ => n
  | trace.omitempty_slice ?n _ _ => n
  end.

Ltac key :=
  lazymatch goal with
  | |- trace.key_is _ _ = _ => vm_compute; reflexivity
  end.

(** One field is read from the members that its struct wrote: the
    members of the other names are passed, its own is decoded by [hit]. *)
Ltac read_step hit :=
  match goal with
  | |- context [trace.read_field ?n ?set
                  (trace.read_back_members (?ms ++ ?rest)) ?cur] =>
      let n' := slot_name ms in
      first
        [ rewrite (read_other n set n' ms rest cur
                     ltac:(auto with slots) ltac:(key))
        | hit ]
  | |- context [trace.read_field ?n ?set (trace.read_back_members []) ?cur] =>
      rewrite (read_nothing n set cur)
  end.

Ltac zero_fields :=
  cbn [trace.zero_TraceContext trace.zero_Source trace.zero_Actor
       trace.zero_Target trace.zero_APIDetails trace.zero_Action
       trace.zero_Decision trace.zero_Condition trace.zero_MatchedBinding
       trace.zero_Policy trace.zero_CI trace.zero_Environment
       trace.zero_AuthzError trace.zero_AuthzEvent
       trace.SchemaVersion trace.EventType trace.Timestamp trace.Trace
       trace.AuthzEvent_Actor trace.AuthzEvent_Target trace.AuthzEvent_Action
       trace.AuthzEvent_Decision trace.AuthzEvent_Policy
       trace.AuthzEvent_Environment trace.Error
       trace.TraceID trace.SpanID trace.ParentSpanID trace.RequestID
       trace.Channel trace.Name
       trace.Principal trace.PrincipalType trace.Groups trace.Actor_Source
       trace.Resource trace.ResourceType trace.Project trace.Location
       trace.Service trace.Protocol trace.Operation
       trace.Permission trace.Method trace.API
       trace.Outcome trace.Reason trace.EvaluatedBy trace.LatencyMS
       trace.Title trace.Expression trace.Result
       trace.Scope trace.ScopeID trace.Role trace.Member
       trace.MatchedBinding_Condition trace.PolicyHash trace.MatchedBindings
       trace.Provider trace.RunID trace.Job
       trace.Mode trace.Component trace.Cluster trace.Environment_CI
       trace.Kind trace.Message trace.Retryable].

(** The start of each proof: the members that the encoder wrote, closed
    by the empty list, under the fields that the decoder reads. *)
Ltac open_struct :=
  rewrite read_back_Object; cbn [trace.set_struct];
  match goal with
  | |- context [trace.read_back_members ?ms] => rewrite <- (app_nil_r ms)
  end;
  rewrite <- ?app_assoc.

Ltac hit_strings :=
  first [ rewrite read_string by key
        | rewrite read_omitempty_string by key
        | rewrite read_omitempty_bool by key ].

Lemma dec_enc_TraceContext x :
  trace.dec_TraceContext (json.read_back (trace.enc_TraceContext x))
    trace.zero_TraceContext
  = Some (trace.decoded_TraceContext x).
Proof.
  unfold trace.dec_TraceContext, trace.enc_TraceContext. open_struct.
  zero_fields. repeat read_step hit_strings. reflexivity.
Qed.

Lemma dec_enc_Source x :
  trace.dec_Source (json.read_back (trace.enc_Source x)) trace.zero_Source
  = Some (trace.decoded_Source x).
Proof.
  unfold trace.dec_Source, trace.enc_Source. open_struct.
  zero_fields. repeat read_step hit_strings. reflexivity.
Qed.

Lemma dec_enc_APIDetails x :
  trace.dec_APIDetails (json.read_back (trace.enc_APIDetails x))
    trace.zero_APIDetails
  = Some (trace.decoded_APIDetails x).
Proof.
  unfold trace.dec_APIDetails, trace.enc_APIDetails. open_struct.
  zero_fields. repeat read_step hit_strings. reflexivity.
Qed.

Lemma dec_enc_Condition x :
  trace.dec_Condition (json.read_back (trace.enc_Condition x))
    trace.zero_Condition
  = Some (trace.decoded_Condition x).
Proof.
  unfold trace.dec_Condition, trace.enc_Condition. open_struct.
  zero_fields. repeat read_step hit_strings. reflexivity.
Qed.

Lemma dec_enc_CI x :
  trace.dec_CI (json.read_back (trace.enc_CI x)) trace.zero_CI
  = Some (trace.decoded_CI x).
Proof.
  unfold trace.dec_CI, trace.enc_CI. open_struct.
  zero_fields. repeat read_step hit_strings. reflexivity.
Qed.

Lemma dec_enc_AuthzError x :
  trace.dec_AuthzError (json.read_back (trace.enc_AuthzError x))
    trace.zero_AuthzError
  = Some (trace.decoded_AuthzError x).
Proof.
  unfold trace.dec_AuthzError, trace.enc_AuthzError. open_struct.
  zero_fields. repeat read_step hit_strings. reflexivity.
Qed.

(** A pointer to a struct is read back through the struct's own lemma. *)
Ltac hit_ptr g lemma :=
  rewrite read_omitempty_ptr with (f := g)
    by (first [ key
              | intros ? _; split; [discriminate | apply lemma] ]).

Ltac hit_slice g lemma :=
  rewrite read_omitempty_slice with (f := g)
    by (first [ key | apply Forall_forall; intros ? _; apply lemma ]).

Lemma dec_enc_Actor x :
  trace.dec_Actor (json.read_back (trace.enc_Actor x)) trace.zero_Actor
  = Some (trace.decoded_Actor x).
Proof.
  unfold trace.dec_Actor, trace.enc_Actor. open_struct. zero_fields.
  repeat read_step
    ltac:(first [ hit_strings | hit_ptr trace.decoded_Source dec_enc_Source
                | hit_slice trace.coerced read_string_value ]).
  reflexivity.
Qed.

Lemma dec_enc_Target x :
  trace.dec_Target (json.read_back (trace.enc_Target x)) trace.zero_Target
  = Some (trace.decoded_Target x).
Proof.
  unfold trace.dec_Target, trace.enc_Target. open_struct. zero_fields.
  repeat read_step
    ltac:(first [ hit_strings
                | hit_ptr trace.coerced read_string_value ]).
  reflexivity.
Qed.

Lemma dec_enc_Action x :
  trace.dec_Action (json.read_back (trace.enc_Action x)) trace.zero_Action
  = Some (trace.decoded_Action x).
Proof.
  unfold trace.dec_Action, trace.enc_Action. open_struct. zero_fields.
  repeat read_step
    ltac:(first [ hit_strings
                | hit_ptr trace.decoded_APIDetails dec_enc_APIDetails ]).
  reflexivity.
Qed.

Lemma dec_enc_Decision x :
  trace.int64 (trace.LatencyMS x) ->
  trace.dec_Decision (json.read_back (trace.enc_Decision x)) trace.zero_Decision
  = Some (trace.decoded_Decision x).
Proof.
  intros Hn.
  unfold trace.dec_Decision, trace.enc_Decision. open_struct. zero_fields.
  repeat read_step
    ltac:(first [ hit_strings
                | rewrite read_omitempty_int64 by (first [key | exact Hn]) ]).
  reflexivity.
Qed.

Lemma dec_enc_MatchedBinding x :
  trace.dec_MatchedBinding (json.read_back (trace.enc_MatchedBinding x))
    trace.zero_MatchedBinding
  = Some (trace.decoded_MatchedBinding x).
Proof.
  unfold trace.dec_MatchedBinding, trace.enc_MatchedBinding. open_struct.
  zero_fields.
  repeat read_step
    ltac:(first [ hit_strings
                | hit_ptr trace.decoded_Condition dec_enc_Condition ]).
  reflexivity.
Qed.

Lemma dec_enc_Policy x :
  trace.dec_Policy (json.read_back (trace.enc_Policy x)) trace.zero_Policy
  = Some (trace.decoded_Policy x).
Proof.
  unfold trace.dec_Policy, trace.enc_Policy. open_struct. zero_fields.
  repeat read_step
    ltac:(first [ hit_strings | hit_slice trace.decoded_MatchedBinding dec_enc_MatchedBinding ]).
  reflexivity.
Qed.

Lemma dec_enc_Environment x :
  trace.dec_Environment (json.read_back (trace.enc_Environment x))
    trace.zero_Environment
  = Some (trace.decoded_Environment x).
Proof.
  unfold trace.dec_Environment, trace.enc_Environment. open_struct.
  zero_fields.
  repeat read_step
    ltac:(first [ hit_strings
                | hit_ptr trace.decoded_CI dec_enc_CI ]).
  reflexivity.
Qed.

Lemma dec_enc_AuthzEvent ev :
  trace.latency_fits ev ->
  trace.dec_AuthzEvent (json.read_back (trace.enc_AuthzEvent ev))
    trace.zero_AuthzEvent
  = Some (trace.decoded_AuthzEvent ev).
Proof.
  intros Hn.
  unfold trace.dec_AuthzEvent, trace.enc_AuthzEvent. open_struct. zero_fields.
  repeat read_step
    ltac:(first
      [ hit_strings
      | hit_ptr trace.decoded_TraceContext dec_enc_TraceContext
      | hit_ptr trace.decoded_Actor dec_enc_Actor
      | hit_ptr trace.decoded_Target dec_enc_Target
      | hit_ptr trace.decoded_Action dec_enc_Action
      | rewrite read_omitempty_ptr with (f := trace.decoded_Decision)
          by (first [ key
                    | intros d Hd; split;
                      [discriminate | apply dec_enc_Decision, Hn, Hd] ])
      | hit_ptr trace.decoded_Policy dec_enc_Policy
      | hit_ptr trace.decoded_Environment dec_enc_Environment
      | hit_ptr trace.decoded_AuthzError dec_enc_AuthzError ]).
  reflexivity.
Qed.

(** ** Marshal, then Unmarshal *)

(** A whole text: the rendered value and nothing after it. *)
Lemma parse_render v :
  json.numbers_ok v -> json.depth v <= json.maxNestingDepth ->
  json.parse (json.render v) = Some (json.read_back v).
Proof.
  intros Hok Hd. unfold json.parse.
  pose proof (parse_value_render v Hok json.maxNestingDepth [] Hd I) as H.
  rewrite app_nil_r in H. rewrite H. reflexivity.
Qed.

Lemma fits_le k k' v : trace.fits k v -> k <= k' -> trace.fits k' v.
Proof. unfold trace.fits. intros [H1 H2] Hk. split; [exact H1 | lia]. Qed.

Lemma fits_Str k s : trace.fits k (json.Str s).
Proof. split; simpl; [exact I | lia]. Qed.

Lemma fits_Bool k b : trace.fits k (json.Bool b).
Proof. split; simpl; [exact I | lia]. Qed.

Lemma fits_Object k ms :
  Forall (fun m => trace.fits k (snd m)) ms -> trace.fits (S k) (json.Object ms).
Proof.
  intros H. split.
  - simpl. induction H as [| m l [Hm _] _ IH]; simpl; auto.
  - simpl. apply le_n_S. induction H as [| m l [_ Hm] _ IH]; simpl; lia.
Qed.

Lemma fits_Array k l :
  Forall (trace.fits k) l -> trace.fits (S k) (json.Array l).
Proof.
  intros H. split.
  - simpl. induction H as [| m l' [Hm _] _ IH]; simpl; auto.
  - simpl. apply le_n_S. induction H as [| m l' [_ Hm] _ IH]; simpl; lia.
Qed.

Section Fit.

Variable k : nat.
Let all_fit (ms : trace.members) : Prop :=
  Forall (fun m => trace.fits k (snd m)) ms.

Lemma fit_field name v : trace.fits k v -> all_fit (trace.field name v).
Proof. intros H. constructor; [exact H | constructor]. Qed.

Lemma fit_string name s : all_fit (trace.omitempty_string name s).
Proof.
  unfold trace.omitempty_string. destruct (String.eqb s "");
    [constructor | apply fit_field, fits_Str].
Qed.

Lemma fit_int64 name n : all_fit (trace.omitempty_int64 name n).
Proof.
  unfold trace.omitempty_int64. destruct (Z.eqb_spec n 0); [constructor |].
  apply fit_field. split; [| simpl; lia].
  apply pretty_Z_literal. assumption.
Qed.

Lemma fit_bool name b : all_fit (trace.omitempty_bool name b).
Proof. destruct b; [apply fit_field, fits_Bool | constructor]. Qed.

Lemma fit_ptr {A} name (enc : A -> json.value) p :
  (forall a, trace.fits k (enc a)) -> all_fit (trace.omitempty_ptr name enc p).
Proof. intros H. destruct p; [apply fit_field, H | constructor]. Qed.

End Fit.

Lemma fit_slice {A} k name (enc : A -> json.value) l :
  (forall a, trace.fits k (enc a)) ->
  Forall (fun m => trace.fits (S k) (snd m)) (trace.omitempty_slice name enc l).
Proof.
  intros H. destruct l as [| a l]; [constructor |].
  apply fit_field, fits_Array, Forall_forall. intros v Hv.
  apply list_elem_of_In, in_map_iff in Hv as (b & <- & _). apply H.
Qed.

(** The members of a struct, slot by slot. *)
Ltac fit_members sub :=
  apply fits_Object;
  repeat (apply Forall_app; split);
  first [ apply fit_string | apply fit_bool | apply fit_int64
        | apply fit_field, fits_Str
        | apply fit_ptr; intros ?; sub
        | apply fit_slice; intros ?; sub ].

Lemma fits_TraceContext x : trace.fits 1 (trace.enc_TraceContext x).
Proof. unfold trace.enc_TraceContext. fit_members fail. Qed.

Lemma fits_Source x : trace.fits 1 (trace.enc_Source x).
Proof. unfold trace.enc_Source. fit_members fail. Qed.

Lemma fits_APIDetails x : trace.fits 1 (trace.enc_APIDetails x).
Proof. unfold trace.enc_APIDetails. fit_members fail. Qed.

Lemma fits_Condition x : trace.fits 1 (trace.enc_Condition x).
Proof. unfold trace.enc_Condition. fit_members fail. Qed.

Lemma fits_CI x : trace.fits 1 (trace.enc_CI x).
Proof. unfold trace.enc_CI. fit_members fail. Qed.

Lemma fits_AuthzError x : trace.fits 1 (trace.enc_AuthzError x).
Proof. unfold trace.enc_AuthzError. fit_members fail. Qed.

Lemma fits_Decision x : trace.fits 1 (trace.enc_Decision x).
Proof. unfold trace.enc_Decision. fit_members fail. Qed.

Lemma fits_Actor x : trace.fits 2 (trace.enc_Actor x).
Proof.
  unfold trace.enc_Actor.
  fit_members ltac:(first [apply fits_Source | apply fits_Str]).
Qed.

Lemma fits_Target x : trace.fits 2 (trace.enc_Target x).
Proof. unfold trace.enc_Target. fit_members ltac:(apply fits_Str). Qed.

Lemma fits_Action x : trace.fits 2 (trace.enc_Action x).
Proof. unfold trace.enc_Action. fit_members ltac:(apply fits_APIDetails). Qed.

Lemma fits_MatchedBinding x : trace.fits 2 (trace.enc_MatchedBinding x).
Proof.
  unfold trace.enc_MatchedBinding. fit_members ltac:(apply fits_Condition).
Qed.

Lemma fits_Policy x : trace.fits 4 (trace.enc_Policy x).
Proof.
  unfold trace.enc_Policy. fit_members ltac:(apply fits_MatchedBinding).
Qed.

Lemma fits_Environment x : trace.fits 2 (trace.enc_Environment x).
Proof. unfold trace.enc_Environment. fit_members ltac:(apply fits_CI). Qed.

Lemma fits_AuthzEvent ev : trace.fits 5 (trace.enc_AuthzEvent ev).
Proof.
  unfold trace.enc_AuthzEvent.
  fit_members ltac:(
    eapply fits_le;
    [ first [ apply fits_TraceContext | apply fits_Actor | apply fits_Target
            | apply fits_Action | apply fits_Decision | apply fits_Policy
            | apply fits_Environment | apply fits_AuthzError ]
    | lia ]).
Qed.

(** Every event is written as a text that reads back. *)
Lemma parse_Marshal ev :
  json.parse (trace.json_Marshal ev).1
  = Some (json.read_back (trace.enc_AuthzEvent ev)).
Proof.
  destruct (fits_AuthzEvent ev) as [Hok Hd].
  apply parse_render; [exact Hok |].
  unfold json.maxNestingDepth. lia.
Qed.

Lemma Unmarshal_Marshal ev :
  trace.latency_fits ev ->
  trace.json_Unmarshal (trace.json_Marshal ev).1
  = (trace.decoded_AuthzEvent ev, None).
Proof.
  intros H. unfold trace.json_Unmarshal. rewrite parse_Marshal.
  cbn [mbind option_bind]. rewrite (dec_enc_AuthzEvent ev H). reflexivity.
Qed.

(** ** The validator's verdict and the coercion of strings *)

(** White space is well-formed UTF-8: a blank text is written and read
    back as it is. *)
Lemma coerce_blank n : forall l,
  length l <= n -> strings.trim_left l = [] -> utf8.coerce 0 l = l.
Proof.
  induction n as [| n IH]; intros l Hn.
  - destruct l; [reflexivity | simpl in Hn; lia].
  - destruct l as [| c r] eqn:El; [reflexivity |]. rewrite <- El in *.
    destruct (strings.cut_any strings.white_space l) as [x |] eqn:Hcut.
    + destruct (cut_any_Some _ _ _ Hcut) as (p & Hp & Hl).
      rewrite Hl, (proj2 (cut_white_space p x Hp)), trim_left_cons by exact Hp.
      intros Hx. rewrite IH; [reflexivity | | exact Hx].
      rewrite Hl, length_app in Hn.
      destruct p; [destruct (white_space_nonempty _ Hp eq_refl) |].
      simpl in Hn. lia.
    + unfold strings.trim_left. rewrite trim_prefix_fixed by exact Hcut.
      rewrite El. discriminate.
Qed.

Lemma coerced_blank_iff s :
  strings.TrimSpace (trace.coerced s) = "" <-> strings.TrimSpace s = "".
Proof.
  split; [apply coerced_blank |]. intros H.
  assert (Hs : trace.coerced s = s).
  { unfold trace.coerced, trace.text, trace.bytes. apply TrimSpace_blank in H.
    change (strings.bytes_of s) with (list_ascii_of_string s) in H.
    rewrite (coerce_blank _ _ (le_n _) H).
    apply string_of_list_ascii_of_string. }
  rewrite Hs. exact H.
Qed.

Lemma coerced_nonblank s :
  spec.nonblank (trace.coerced s) <-> spec.nonblank s.
Proof. unfold spec.nonblank. rewrite coerced_blank_iff. reflexivity. Qed.

Lemma coerced_nonempty s : trace.coerced s <> "" <-> s <> "".
Proof.
  split; intros H Hs; apply H.
  - rewrite Hs. reflexivity.
  - apply coerced_empty. exact Hs.
Qed.

(** A text that comes back as ASCII was that ASCII text. *)
Lemma coerce_to_ascii l :
  forallb strings.is_ascii_byte (utf8.coerce 0 l) = true -> utf8.coerce 0 l = l.
Proof.
  induction l as [| c r IH]; [reflexivity |].
  destruct (utf8.byte c <? 128)%N eqn:Hc.
  - rewrite coerce_ascii by exact Hc. cbn [forallb].
    intros H. apply andb_true_iff in H as [_ H]. rewrite IH by exact H.
    reflexivity.
  - cbn [utf8.coerce]. destruct (utf8.width (c :: r)); cbn [forallb app utf8.replacement].
    + unfold strings.is_ascii_byte at 1. change (N_of_ascii c) with (utf8.byte c).
      rewrite Hc. discriminate.
    + discriminate.
Qed.

Lemma coerced_is s t :
  strings.isASCII t = true -> (trace.coerced s = t <-> s = t).
Proof.
  intros Ht. unfold trace.coerced, trace.text, trace.bytes. split.
  - intros H.
    assert (Hl : utf8.coerce 0 (list_ascii_of_string s) = list_ascii_of_string t).
    { rewrite <- H, list_ascii_of_string_of_list_ascii. reflexivity. }
    assert (Ha : utf8.coerce 0 (list_ascii_of_string s) = list_ascii_of_string s).
    { apply coerce_to_ascii. rewrite Hl. exact Ht. }
    rewrite <- (string_of_list_ascii_of_string s), <- Ha, Hl.
    apply string_of_list_ascii_of_string.
  - intros ->.
    assert (Ha : forall l, forallb strings.is_ascii_byte l = true ->
                           utf8.coerce 0 l = l).
    { induction l as [| c r IH]; [reflexivity |]. cbn [forallb].
      intros H. apply andb_true_iff in H as [Hc H].
      rewrite coerce_ascii by exact Hc. rewrite IH by exact H. reflexivity. }
    rewrite Ha by exact Ht. apply string_of_list_ascii_of_string.
Qed.

Lemma through_option_map {A} (f : A -> A) (o : option A) (P Q : A -> Prop) :
  (forall a, P (f a) <-> Q a) ->
  (exists a, option_map f o = Some a /\ P a) <-> (exists a, o = Some a /\ Q a).
Proof.
  intros H. destruct o as [a |]; simpl.
  - split; intros (b & [= <-] & Hb); eexists; (split; [reflexivity |]);
      apply H; exact Hb.
  - split; intros (b & [=] & _).
Qed.

(** The valid events, as [ValidateEvent] accepts them. *)
Lemma ValidateEvent_valid ev :
  trace.ValidateEvent trace.NewValidator ev = None <-> spec.valid ev.
Proof.
  unfold spec.valid.
  destruct (decide (trace.SchemaVersion ev = "1.0")) as [Hv | Hv].
  2:{ split; [| tauto]. unfold trace.ValidateEvent.
      destruct (String.eqb (trace.SchemaVersion ev) ""); [discriminate |].
      destruct (trace.map_index _ _) eqn:Hs; [| discriminate].
      apply supported_version in Hs. contradiction. }
  destruct (decide (trace.Timestamp ev = "")) as [Ht | Ht].
  { split; [| tauto]. unfold trace.ValidateEvent. rewrite Hv, Ht. simpl.
    destruct (String.eqb (trace.EventType ev) ""); discriminate. }
  destruct (decide (trace.EventType ev = "authz_check")) as [Hc | Hc].
  { rewrite (ValidateEvent_check ev Hv Ht Hc). split; [tauto |].
    intros (_ & _ & [[_ H] | [H _]]); [exact H | congruence]. }
  destruct (decide (trace.EventType ev = "authz_error")) as [He | He].
  { rewrite (ValidateEvent_error ev Hv Ht He). split; [tauto |].
    intros (_ & _ & [[H _] | [_ H]]); [congruence | exact H]. }
  split; [| tauto]. unfold trace.ValidateEvent. rewrite Hv.
  apply String.eqb_neq in Ht, Hc, He.
  unfold trace.EventTypeAuthzCheck, trace.EventTypeAuthzError.
  rewrite Ht, Hc, He. simpl.
  destruct (String.eqb (trace.EventType ev) ""); discriminate.
Qed.

Lemma decoded_valid ev : spec.valid (trace.decoded_AuthzEvent ev) <-> spec.valid ev.
Proof.
  unfold spec.valid, spec.check_fields, trace.decoded_AuthzEvent.
  cbn [trace.SchemaVersion trace.Timestamp trace.EventType
       trace.AuthzEvent_Actor trace.AuthzEvent_Target trace.AuthzEvent_Action
       trace.AuthzEvent_Decision trace.Error].
  rewrite !coerced_is by reflexivity.
  rewrite (through_option_map trace.decoded_Actor _
             (fun a => spec.nonblank (trace.Principal a))
             (fun a => spec.nonblank (trace.Principal a)))
    by (intros a; apply coerced_nonblank).
  rewrite (through_option_map trace.decoded_Target _
             (fun a => spec.nonblank (trace.Resource a))
             (fun a => spec.nonblank (trace.Resource a)))
    by (intros a; apply coerced_nonblank).
  rewrite (through_option_map trace.decoded_Action _
             (fun a => spec.nonblank (trace.Permission a))
             (fun a => spec.nonblank (trace.Permission a)))
    by (intros a; apply coerced_nonblank).
  rewrite (through_option_map trace.decoded_Decision _
             (fun d => trace.Outcome d = "ALLOW" \/ trace.Outcome d = "DENY")
             (fun d => trace.Outcome d = "ALLOW" \/ trace.Outcome d = "DENY"))
    by (intros d; cbn [trace.decoded_Decision trace.Outcome];
        rewrite !coerced_is by reflexivity; reflexivity).
  rewrite (through_option_map trace.decoded_AuthzError _
             (fun e => spec.nonblank (trace.Kind e)
                       /\ spec.nonblank (trace.Message e))
             (fun e => spec.nonblank (trace.Kind e)
                       /\ spec.nonblank (trace.Message e)))
    by (intros e; cbn [trace.decoded_AuthzError trace.Kind trace.Message];
        rewrite !coerced_nonblank; reflexivity).
  reflexivity.
Qed.

(** ** One event, one line *)

Lemma plain_app a b : json.plain a -> json.plain b -> json.plain (a ++ b).
Proof. unfold json.plain. intros Ha Hb. apply Forall_app. auto. Qed.

Lemma plain_cons c l :
  (utf8.byte c <? 32)%N = false -> json.plain l -> json.plain (c :: l).
Proof. intros Hc Hl. constructor; assumption. Qed.

Lemma plain_check l :
  forallb (fun c => negb (utf8.byte c <? 32)%N) l = true -> json.plain l.
Proof.
  intros H. apply Forall_forall. intros c Hc.
  rewrite forallb_forall in H. apply negb_true_iff, H, list_elem_of_In, Hc.
Qed.

Lemma high_plain p : Forall utf8.high p -> json.plain p.
Proof.
  intros H. eapply Forall_impl; [exact H |].
  intros c Hc. unfold utf8.high in Hc.
  apply N.ltb_ge in Hc. apply N.ltb_ge. lia.
Qed.

Lemma escaped_ascii_plain c :
  (utf8.byte c <? 128)%N = true ->
  json.plain (if json.htmlSafe c then [c] else json.escape_byte c).
Proof.
  intros H. apply plain_check. revert H.
  destruct c as [[] [] [] [] [] [] [] []]; intros H; try discriminate H;
    reflexivity.
Qed.

(** A string literal holds no control character. *)
Lemma escape_plain n : forall s, length s <= n -> json.plain (json.escape 0 s).
Proof.
  induction n as [| n IH]; intros s Hn.
  { destruct s; [constructor | simpl in Hn; lia]. }
  destruct s as [| c r]; [constructor |]. simpl in Hn.
  destruct (utf8.byte c <? 128)%N eqn:Hc.
  { rewrite escape_ascii by exact Hc.
    apply plain_app; [apply escaped_ascii_plain, Hc | apply IH; lia]. }
  cbn [json.escape]. rewrite Hc.
  destruct (utf8.width (c :: r)) as [w |] eqn:Hw.
  2:{ apply plain_app; [apply plain_check; reflexivity |].
      apply plain_app; [apply plain_check; reflexivity | apply IH; lia]. }
  destruct (width_Some c r w Hw) as [[_ H] | (Hh & p & q & Hr & Hp & Hhigh & _)];
    [congruence |].
  assert (Hgen : json.plain (c :: json.escape (pred w) r)).
  { rewrite Hr, <- Hp, escape_skip.
    apply plain_cons; [unfold utf8.high in Hh; apply N.ltb_ge in Hh;
                       apply N.ltb_ge; lia |].
    apply plain_app; [apply high_plain, Hhigh |].
    apply IH. rewrite Hr, length_app in Hn. lia. }
  destruct r as [| c1 [| c2 r']]; try exact Hgen.
  destruct (Ascii.eqb c "226" && Ascii.eqb c1 "128"
            && (Ascii.eqb c2 "168" || Ascii.eqb c2 "169"))%char eqn:Hsep;
    [| exact Hgen].
  apply plain_app; [apply plain_check; reflexivity |].
  apply plain_app; [| apply IH; simpl in Hn; lia].
  apply andb_true_iff in Hsep as [_ H3].
  apply orb_true_iff in H3 as [H3 | H3]; apply Ascii.eqb_eq in H3; subst c2;
    apply plain_check; reflexivity.
Qed.

Lemma quote_plain s : json.plain (json.quote s).
Proof.
  unfold json.quote. apply plain_app; [apply plain_check; reflexivity |].
  apply plain_app; [apply (escape_plain _ _ (le_n _)) |].
  apply plain_check; reflexivity.
Qed.

Lemma join_plain sep l :
  json.plain sep -> Forall json.plain l -> json.plain (json.join sep l).
Proof.
  intros Hsep H. induction H as [| x l Hx Hl IH]; [constructor |].
  destruct l as [| y l']; [exact Hx |].
  change (json.join sep (x :: y :: l')) with (x ++ sep ++ json.join sep (y :: l')).
  apply plain_app; [exact Hx |]. apply plain_app; [exact Hsep | exact IH].
Qed.

(** A rendered value holds no control character: no line feed, above
    all. *)
Lemma render_plain v : json.numbers_ok v -> json.plain (json.render v).
Proof.
  induction v as [| b | lit | s | l IH | ms IH] using value_induction;
    intros Hok.
  - apply plain_check; reflexivity.
  - destruct b; apply plain_check; reflexivity.
  - exact (proj2 (proj2 Hok)).
  - apply quote_plain.
  - cbn [json.render].
    apply plain_app; [apply plain_check; reflexivity |].
    apply plain_app; [| apply plain_check; reflexivity].
    apply join_plain; [apply plain_check; reflexivity |].
    apply Forall_map. apply numbers_ok_elements in Hok.
    revert Hok. clear -IH. induction IH as [| x l Hx _ IHl];
      intros Hok; [constructor |].
    inversion Hok; subst. constructor; [apply Hx; assumption | apply IHl; assumption].
  - cbn [json.render].
    apply plain_app; [apply plain_check; reflexivity |].
    apply plain_app; [| apply plain_check; reflexivity].
    apply join_plain; [apply plain_check; reflexivity |].
    apply Forall_map. apply numbers_ok_members in Hok.
    revert Hok. clear -IH. induction IH as [| x l Hx _ IHl];
      intros Hok; [constructor |].
    inversion Hok; subst. constructor; [| apply IHl; assumption].
    apply plain_app; [apply quote_plain |].
    apply plain_app; [apply plain_check; reflexivity | apply Hx; assumption].
Qed.

(** The text of an event: an object, from its brace to its brace. *)
Lemma Marshal_shape ev :
  exists body, (trace.json_Marshal ev).1 = "{"%char :: body ++ ["}"%char].
Proof.
  unfold trace.json_Marshal, trace.enc_AuthzEvent. cbn [fst json.render].
  eexists. reflexivity.
Qed.

Lemma Marshal_plain ev : json.plain (trace.json_Marshal ev).1.
Proof. apply render_plain, fits_AuthzEvent. Qed.

(** ** The writer on a sink that takes every write *)

Lemma File_Write_sound f p :
  trace.sound_sink f ->
  exists f', trace.File_Write f p = (f', length p, None)
    /\ trace.sound_sink f' /\ trace.content f' = trace.content f ++ p
    /\ trace.is_stdout f' = trace.is_stdout f.
Proof.
  intros [Hc Hr]. unfold trace.File_Write. rewrite Hc, Hr.
  eexists. split; [reflexivity |]. repeat split.
Qed.

Lemma bufio_Flush_sound b f :
  trace.sound_sink f -> trace.err b = None ->
  exists f', trace.bufio_Flush b f = ({| trace.buf := []; trace.err := None |}, f', None)
    /\ trace.sound_sink f' /\ trace.content f' = trace.content f ++ trace.buf b
    /\ trace.is_stdout f' = trace.is_stdout f.
Proof.
  intros Hf Hb. unfold trace.bufio_Flush. rewrite Hb.
  destruct b as [[| c l] e]; cbn [trace.buf trace.err] in *; subst e.
  - exists f. rewrite app_nil_r. auto.
  - destruct (File_Write_sound f (c :: l) Hf) as (f' & -> & H1 & H2 & H3).
    rewrite Nat.ltb_irrefl. exists f'. auto.
Qed.

Ltac finish :=
  unfold trace.sound_sink in *; repeat split; intros;
  cbn [length app trace.buf trace.err] in *;
  rewrite ?app_nil_r, ?Nat.sub_0_r, ?Nat.add_0_r in *;
  try tauto; try lia; try congruence; try (exfalso; lia).

Lemma bufio_Write_sound b f p :
  trace.sound_sink f -> trace.err b = None ->
  length (trace.buf b) <= trace.defaultBufSize ->
  exists b' f', trace.bufio_Write b f p = (b', f', length p, None)
    /\ trace.sound_sink f' /\ trace.err b' = None
    /\ length (trace.buf b') <= trace.defaultBufSize
    /\ trace.content f' ++ trace.buf b' = trace.content f ++ trace.buf b ++ p
    /\ trace.is_stdout f' = trace.is_stdout f
    /\ (length (trace.buf b) + length p <= trace.defaultBufSize ->
        f' = f /\ trace.buf b' = trace.buf b ++ p).
Proof.
  intros Hf Hb Hlen. unfold trace.bufio_Write.
  cbn [trace.write_loop]. unfold trace.Available. rewrite Hb.
  rewrite bool_decide_eq_true_2 by reflexivity. rewrite andb_true_r.
  destruct (Nat.ltb_spec (trace.defaultBufSize - length (trace.buf b)) (length p))
    as [Hbig | Hfit].
  2:{ cbn [trace.err]. rewrite Hb. eexists _, f. split; [reflexivity |].
      cbn [trace.buf trace.err]. rewrite length_app. finish. }
  destruct (trace.buf b) as [| c l] eqn:Hbuf.
  - (* nothing buffered: the data goes straight to the sink *)
    destruct (File_Write_sound f p Hf) as (f1 & -> & H1 & H2 & H3).
    rewrite drop_all. cbn [trace.buf trace.err length].
    change (trace.defaultBufSize - 0 <? 0)%nat with false. cbn [andb trace.err trace.buf].
    eexists _, f1. split; [rewrite Nat.add_0_r; reflexivity |].
    cbn [trace.buf trace.err length]. rewrite H2. finish.
  - (* the buffer is filled and flushed, the rest follows *)
    rewrite <- Hbuf in *.
    set (n := trace.defaultBufSize - length (trace.buf b)) in *.
    destruct (bufio_Flush_sound
                {| trace.buf := trace.buf b ++ take n p; trace.err := None |} f
                Hf eq_refl) as (f1 & -> & H1 & H2 & H3).
    cbn [trace.buf] in H2.
    cbn [trace.buf trace.err length].
    rewrite bool_decide_eq_true_2 by reflexivity. rewrite andb_true_r.
    destruct (Nat.ltb_spec (trace.defaultBufSize - 0) (length (drop n p)))
      as [Hbig2 | Hfit2].
    + destruct (File_Write_sound f1 (drop n p) H1) as (f2 & -> & H4 & H5 & H6).
      rewrite drop_all. cbn [trace.buf trace.err length].
      change (trace.defaultBufSize - 0 <? 0)%nat with false.
      cbn [andb trace.err trace.buf].
      eexists _, f2. split.
      { f_equal. f_equal. rewrite length_drop. cbn [length]. lia. }
      cbn [trace.buf trace.err length]. rewrite H5, H2, <- !app_assoc.
      cbn [app]. rewrite app_nil_r, take_drop. finish.
    + cbn [trace.err trace.buf].
      eexists _, f1. split.
      { f_equal. f_equal. rewrite length_drop. cbn [length]. lia. }
      cbn [trace.buf trace.err app]. rewrite H2, <- !app_assoc, take_drop.
      finish.
Qed.

Lemma bufio_WriteByte_sound b f c :
  trace.sound_sink f -> trace.err b = None ->
  length (trace.buf b) <= trace.defaultBufSize ->
  exists b' f', trace.bufio_WriteByte b f c = (b', f', None)
    /\ trace.sound_sink f' /\ trace.err b' = None
    /\ length (trace.buf b') <= trace.defaultBufSize
    /\ trace.content f' ++ trace.buf b' = trace.content f ++ trace.buf b ++ [c]
    /\ trace.is_stdout f' = trace.is_stdout f
    /\ (length (trace.buf b) < trace.defaultBufSize ->
        f' = f /\ trace.buf b' = trace.buf b ++ [c]).
Proof.
  intros Hf Hb Hlen. unfold trace.bufio_WriteByte, trace.Available. rewrite Hb.
  destruct (Nat.leb_spec (trace.defaultBufSize - length (trace.buf b)) 0)
    as [Hfull | Hroom].
  - destruct (bufio_Flush_sound b f Hf Hb) as (f1 & -> & H1 & H2 & H3).
    eexists _, f1. split; [reflexivity |].
    cbn [trace.buf trace.err app length]. rewrite H2, <- app_assoc.
    unfold trace.defaultBufSize in *. finish.
  - eexists _, f. split; [reflexivity |].
    cbn [trace.buf trace.err]. rewrite length_app. finish.
Qed.

(** One [Emit]: the line of the event is added to what the writer has
    taken; nothing reaches the sink while the buffer has room. *)
Lemma Writer_Emit_sound w ev :
  trace.sound w ->
  exists w', trace.Writer_Emit (Some w) ev = (Some w', None)
    /\ trace.sound w'
    /\ trace.written w' = trace.written w ++ trace.line ev
    /\ trace.is_stdout (trace.out w') = trace.is_stdout (trace.out w)
    /\ (length (trace.buf (trace.bw w)) + length (trace.line ev)
          <= trace.defaultBufSize ->
        trace.out w' = trace.out w).
Proof.
  intros (Hc & Hf & Hb & Hlen). unfold trace.Writer_Emit. rewrite Hc.
  cbn [trace.json_Marshal].
  destruct (bufio_Write_sound (trace.bw w) (trace.out w)
              (json.render (trace.enc_AuthzEvent ev)) Hf Hb Hlen)
    as (b1 & f1 & -> & Hf1 & Hb1 & Hlen1 & Hw1 & Hs1 & Hkeep1).
  destruct (bufio_WriteByte_sound b1 f1 "010" Hf1 Hb1 Hlen1)
    as (b2 & f2 & -> & Hf2 & Hb2 & Hlen2 & Hw2 & Hs2 & Hkeep2).
  eexists. split; [reflexivity |].
  unfold trace.sound, trace.written, trace.line.
  cbn [trace.out trace.bw trace.closed trace.json_Marshal fst].
  rewrite Hw2, app_assoc, Hw1, <- !app_assoc.
  split; [auto |]. split; [reflexivity |]. split; [congruence |].
  rewrite length_app. cbn [length]. intros Hroom.
  destruct Hkeep1 as [-> Hbuf1]; [lia |].
  destruct Hkeep2 as [-> _]; [rewrite Hbuf1, length_app; lia | reflexivity].
Qed.

Lemma Writer_Flush_sound w :
  trace.sound w ->
  exists w', trace.Writer_Flush (Some w) = (Some w', None)
    /\ trace.sound w' /\ trace.buf (trace.bw w') = []
    /\ trace.content (trace.out w') = trace.written w
    /\ trace.is_stdout (trace.out w') = trace.is_stdout (trace.out w).
Proof.
  intros (Hc & Hf & Hb & Hlen). unfold trace.Writer_Flush. rewrite Hc.
  destruct (bufio_Flush_sound (trace.bw w) (trace.out w) Hf Hb)
    as (f1 & -> & Hf1 & Hw1 & Hs1).
  eexists. split; [reflexivity |].
  unfold trace.sound, trace.written.
  cbn [trace.out trace.bw trace.closed trace.buf trace.err length].
  destruct Hf1. repeat split; try assumption; lia.
Qed.

Lemma Writer_Close_sound w :
  trace.sound w ->
  exists w', trace.Writer_Close (Some w) = (Some w', None)
    /\ trace.closed w' = true
    /\ trace.content (trace.out w') = trace.written w
    /\ trace.file_closed (trace.out w') = negb (trace.is_stdout (trace.out w)).
Proof.
  intros (Hc & Hf & Hb & Hlen). unfold trace.Writer_Close. rewrite Hc.
  destruct (bufio_Flush_sound (trace.bw w) (trace.out w) Hf Hb)
    as (f1 & -> & [Hopen Hroom] & Hw1 & Hs1).
  rewrite Hs1. destruct (trace.is_stdout (trace.out w)); cbn [negb].
  - eexists. split; [reflexivity |]. cbn [trace.out trace.closed]. auto.
  - unfold trace.File_Close. rewrite Hopen.
    eexists. split; [reflexivity |]. cbn [trace.out trace.closed trace.content
      trace.file_closed]. auto.
Qed.

(** The events, one after the other. *)
Lemma Emit_all_sound evs : forall w,
  trace.sound w ->
  exists w', trace.Emit_all (Some w) evs = (Some w', None)
    /\ trace.sound w'
    /\ trace.written w' = trace.written w ++ trace.jsonl evs
    /\ trace.is_stdout (trace.out w') = trace.is_stdout (trace.out w).
Proof.
  induction evs as [| ev evs IH]; intros w Hw.
  - exists w. unfold trace.jsonl. cbn [flat_map]. rewrite app_nil_r. auto.
  - destruct (Writer_Emit_sound w ev Hw) as (w1 & He & Hw1 & Hwr1 & Hs1 & _).
    destruct (IH w1 Hw1) as (w2 & Ha & Hw2 & Hwr2 & Hs2).
    exists w2. cbn [trace.Emit_all]. rewrite He, Ha.
    split; [reflexivity |]. split; [exact Hw2 |].
    split; [| congruence].
    rewrite Hwr2, Hwr1, <- app_assoc. reflexivity.
Qed.

Lemma NewWriter_on_sound f : trace.sound_sink f -> trace.sound (trace.NewWriter_on f).
Proof.
  intros Hf. unfold trace.sound, trace.NewWriter_on.
  cbn [trace.closed trace.out trace.bw trace.err trace.buf length].
  repeat split; try apply Hf. unfold trace.defaultBufSize. lia.
Qed.

(** ** Reading the trace back *)

Lemma plain_not_line_feed c :
  (utf8.byte c <? 32)%N = false ->
  Ascii.eqb c "010" = false /\ Ascii.eqb c "013" = false.
Proof.
  intros H. split; apply Ascii.eqb_neq; intros ->; vm_compute in H;
    discriminate H.
Qed.

Lemma break_line_plain l rest :
  json.plain l -> trace.break_line (l ++ "010"%char :: rest) = (l, Some rest).
Proof.
  induction 1 as [| c l Hc Hl IH]; [reflexivity |].
  cbn [app trace.break_line].
  rewrite (proj1 (plain_not_line_feed c Hc)), IH. reflexivity.
Qed.

Lemma dropCR_plain l : json.plain l -> trace.dropCR l = l.
Proof.
  intros H. unfold trace.dropCR. destruct (last l) as [c |] eqn:Hlast;
    [| reflexivity].
  apply last_Some in Hlast as (l' & ->).
  apply Forall_app in H as [_ H]. inversion H as [| ? ? Hc _]; subst.
  rewrite (proj2 (plain_not_line_feed c Hc)). reflexivity.
Qed.

(** The scanner gives the lines of a text whose lines are plain and
    short, one by one, and goes on with what follows them. *)
Lemma scan_lines_lines ls : forall rest fuel,
  Forall (fun l => json.plain l /\ length l < trace.MaxScanTokenSize) ls ->
  length ls <= fuel ->
  trace.scan_lines fuel (flat_map (fun l => l ++ ["010"%char]) ls ++ rest)
  = (let '(ls', e) := trace.scan_lines (fuel - length ls) rest in (ls ++ ls', e)).
Proof.
  induction ls as [| l ls IH]; intros rest fuel Hls Hfuel.
  - cbn [flat_map app length]. rewrite Nat.sub_0_r.
    destruct (trace.scan_lines fuel rest). reflexivity.
  - inversion Hls as [| ? ? [Hplain Hshort] Hrest]; subst.
    destruct fuel as [| fuel]; [simpl in Hfuel; lia |].
    cbn [flat_map length]. rewrite <- !app_assoc. cbn [app].
    change (trace.scan_lines (S fuel) (l ++ "010"%char :: ?x))
      with (match l ++ "010"%char :: x with
            | [] => ([], None)
            | _ :: _ =>
                let '(l0, rest0) := trace.break_line (l ++ "010"%char :: x) in
                if (trace.MaxScanTokenSize <=? length l0)%nat
                then ([], Some trace.ErrTooLong)
                else
                  match rest0 with
                  | None => ([trace.dropCR l0], None)
                  | Some r =>
                      let '(ls0, e) := trace.scan_lines fuel r in
                      (trace.dropCR l0 :: ls0, e)
                  end
            end).
    rewrite break_line_plain by exact Hplain.
    destruct (l ++ "010"%char :: flat_map (fun l0 => l0 ++ ["010"%char]) ls ++ rest)
      eqn:Hnil; [destruct l; discriminate Hnil |].
    apply Nat.leb_gt in Hshort. rewrite Hshort.
    rewrite (IH rest fuel Hrest) by (simpl in Hfuel; lia).
    cbn [Nat.sub]. destruct (trace.scan_lines (fuel - length ls) rest).
    rewrite dropCR_plain by exact Hplain. reflexivity.
Qed.

Lemma scan_lines_nil fuel : trace.scan_lines fuel [] = ([], None).
Proof. destruct fuel; reflexivity. Qed.

(** The text of an event is a line as it stands: the trim takes nothing
    off its braces. *)
Lemma TrimSpace_braces body :
  strings.TrimSpace (trace.text ("{"%char :: body ++ ["}"%char]))
  = trace.text ("{"%char :: body ++ ["}"%char]).
Proof.
  unfold strings.TrimSpace, trace.text.
  change (strings.bytes_of (string_of_list_ascii ?l))
    with (list_ascii_of_string (string_of_list_ascii l)).
  rewrite list_ascii_of_string_of_list_ascii.
  assert (Hl : strings.trim_left ("{"%char :: body ++ ["}"%char])
               = "{"%char :: body ++ ["}"%char]).
  { unfold strings.trim_left. apply trim_prefix_fixed. reflexivity. }
  rewrite Hl.
  assert (Hr : strings.trim_right ("{"%char :: body ++ ["}"%char])
               = "{"%char :: body ++ ["}"%char]).
  { unfold strings.trim_right.
    change ("{"%char :: body ++ ["}"%char]) with (("{"%char :: body) ++ ["}"%char]).
    rewrite rev_app_distr. cbn [rev app].
    rewrite trim_prefix_fixed by reflexivity.
    cbn [rev]. rewrite rev_app_distr, rev_involutive. reflexivity. }
  rewrite Hr. reflexivity.
Qed.

Lemma Marshal_line ev :
  let data := (trace.json_Marshal ev).1 in
  strings.TrimSpace (trace.text data) = trace.text data
  /\ trace.text data <> "" /\ trace.bytes (trace.text data) = data.
Proof.
  destruct (Marshal_shape ev) as (body & Hshape). cbn zeta. rewrite Hshape.
  split; [apply TrimSpace_braces |]. split; [discriminate |].
  apply list_ascii_of_string_of_list_ascii.
Qed.

(** One line of the trace under the validator: the event that was
    written is judged as it is read back. *)
Lemma validate_line ev k ls :
  trace.latency_fits ev ->
  trace.validate_lines trace.NewValidator k ((trace.json_Marshal ev).1 :: ls)
  = match trace.ValidateEvent trace.NewValidator (trace.decoded_AuthzEvent ev) with
    | Some e => Some (ValidationError (k + 1) (error_text e))
    | None => trace.validate_lines trace.NewValidator (k + 1) ls
    end.
Proof.
  intros Hfit. destruct (Marshal_line ev) as (Htrim & Hne & Hbytes).
  cbn [trace.validate_lines]. cbn zeta in Htrim, Hne, Hbytes.
  rewrite Htrim. apply String.eqb_neq in Hne. rewrite Hne, Hbytes.
  rewrite (Unmarshal_Marshal ev Hfit). reflexivity.
Qed.

Lemma validate_valid_lines evs : forall k ls,
  Forall (fun ev => trace.latency_fits ev /\ spec.valid ev) evs ->
  trace.validate_lines trace.NewValidator k
    (map (fun ev => (trace.json_Marshal ev).1) evs ++ ls)
  = trace.validate_lines trace.NewValidator (k + Z.of_nat (length evs)) ls.
Proof.
  induction evs as [| ev evs IH]; intros k ls Hevs.
  - cbn [map app length]. rewrite Z.add_0_r. reflexivity.
  - inversion Hevs as [| ? ? [Hfit Hvalid] Hrest]; subst.
    cbn [map app]. rewrite validate_line by exact Hfit.
    apply decoded_valid, ValidateEvent_valid in Hvalid. rewrite Hvalid.
    rewrite IH by exact Hrest. f_equal. cbn [length]. lia.
Qed.

Lemma jsonl_lines evs :
  trace.jsonl evs
  = flat_map (fun l => l ++ ["010"%char])
      (map (fun ev => (trace.json_Marshal ev).1) evs).
Proof.
  unfold trace.jsonl, trace.line.
  induction evs as [| ev evs IH]; [reflexivity |].
  cbn [flat_map map]. rewrite IH. reflexivity.
Qed.

Lemma holds_opens gunzip fs path data :
  trace.holds gunzip fs path data ->
  trace.openMaybeGzip gunzip fs path = inl (data, None).
Proof.
  unfold trace.openMaybeGzip.
  intros [[Hext ->] | (Hext & z & -> & Hz)].
  - apply String.eqb_neq in Hext. rewrite Hext. reflexivity.
  - rewrite Hext, Hz. reflexivity.
Qed.

(** The lines of the events are what the scanner makes of their trace. *)
Lemma scan_jsonl evs rest fuel :
  Forall trace.carried evs -> length evs <= fuel ->
  trace.scan_lines fuel (trace.jsonl evs ++ rest)
  = (let '(ls', e) := trace.scan_lines (fuel - length evs) rest in
     (map (fun ev => (trace.json_Marshal ev).1) evs ++ ls', e)).
Proof.
  intros Hevs Hfuel. rewrite jsonl_lines.
  rewrite scan_lines_lines; rewrite ?length_map; [reflexivity | | exact Hfuel].
  apply Forall_map. eapply Forall_impl; [exact Hevs |].
  intros ev [_ Hshort]. split; [apply Marshal_plain | exact Hshort].
Qed.

Lemma jsonl_length evs : length evs <= length (trace.jsonl evs).
Proof.
  unfold trace.jsonl. induction evs as [| ev evs IH]; [simpl; lia |].
  cbn [flat_map length]. rewrite length_app. unfold trace.line at 1.
  rewrite length_app. cbn [length]. lia.
Qed.

(** A trace of valid events is a valid file. *)
Lemma ValidateJSONLFile_jsonl gunzip fs path evs :
  trace.holds gunzip fs path (trace.jsonl evs) ->
  Forall (fun ev => trace.carried ev /\ spec.valid ev) evs ->
  trace.ValidateJSONLFile gunzip fs trace.NewValidator path = None.
Proof.
  intros Hholds Hevs. unfold trace.ValidateJSONLFile.
  rewrite (holds_opens _ _ _ _ Hholds).
  pose proof (scan_jsonl evs [] (length (trace.jsonl evs))) as Hscan.
  rewrite app_nil_r, scan_lines_nil in Hscan. rewrite Hscan.
  - rewrite validate_valid_lines; [reflexivity |].
    eapply Forall_impl; [exact Hevs |]. intros ev [[Hfit _] Hv]. auto.
  - eapply Forall_impl; [exact Hevs |]. intros ev [Hc _]. exact Hc.
  - apply jsonl_length.
Qed.

(** ** What the validator reports *)

Lemma jsonl_app a b : trace.jsonl (a ++ b) = trace.jsonl a ++ trace.jsonl b.
Proof. unfold trace.jsonl. apply flat_map_app. Qed.

(** The first event that is not valid, behind valid ones. *)
Lemma ValidateJSONLFile_first_invalid gunzip fs path pre ev post :
  trace.holds gunzip fs path (trace.jsonl (pre ++ ev :: post)) ->
  Forall (fun x => trace.carried x /\ spec.valid x) pre ->
  trace.carried ev -> ~ spec.valid ev ->
  exists e,
    trace.ValidateEvent trace.NewValidator (trace.decoded_AuthzEvent ev) = Some e
    /\ trace.ValidateJSONLFile gunzip fs trace.NewValidator path
       = Some (ValidationError (Z.of_nat (length pre) + 1) (error_text e)).
Proof.
  intros Hholds Hpre Hev Hbad.
  destruct (trace.ValidateEvent trace.NewValidator (trace.decoded_AuthzEvent ev))
    as [e |] eqn:He.
  2:{ exfalso. apply Hbad, decoded_valid, ValidateEvent_valid, He. }
  exists e. split; [reflexivity |].
  unfold trace.ValidateJSONLFile. rewrite (holds_opens _ _ _ _ Hholds).
  replace (pre ++ ev :: post) with ((pre ++ [ev]) ++ post)
    by (rewrite <- app_assoc; reflexivity).
  rewrite jsonl_app.
  rewrite scan_jsonl.
  - destruct (trace.scan_lines _ (trace.jsonl post)) as [ls' e'].
    rewrite map_app, <- app_assoc. cbn [map app].
    rewrite validate_valid_lines.
    + rewrite validate_line by apply Hev. rewrite He. reflexivity.
    + eapply Forall_impl; [exact Hpre |]. intros x [[Hfit _] Hv]. auto.
  - apply Forall_app. split; [| constructor; [exact Hev | constructor]].
    eapply Forall_impl; [exact Hpre |]. intros x [Hc _]. exact Hc.
  - pose proof (jsonl_length (pre ++ [ev])) as Hlen.
    rewrite (length_app (trace.jsonl _)). lia.
Qed.

Lemma break_line_app l rest :
  json.plain l ->
  exists r, trace.break_line (l ++ "010"%char :: rest) = (l, Some r).
Proof. intros H. exists rest. apply break_line_plain, H. Qed.

(** An event whose text does not fit the buffer of the scanner stops the
    reading, whatever the event is. *)
Lemma ValidateJSONLFile_too_long gunzip fs path pre ev post :
  trace.holds gunzip fs path (trace.jsonl (pre ++ ev :: post)) ->
  Forall (fun x => trace.carried x /\ spec.valid x) pre ->
  trace.MaxScanTokenSize <= length (trace.json_Marshal ev).1 ->
  trace.ValidateJSONLFile gunzip fs trace.NewValidator path
  = Some (Errorf_w "scanner error: " trace.ErrTooLong).
Proof.
  intros Hholds Hpre Hlong.
  unfold trace.ValidateJSONLFile. rewrite (holds_opens _ _ _ _ Hholds).
  rewrite jsonl_app. rewrite scan_jsonl.
  - assert (Hrest : trace.scan_lines
              (length (trace.jsonl pre ++ trace.jsonl (ev :: post)) - length pre)
              (trace.jsonl (ev :: post))
            = ([], Some trace.ErrTooLong)).
    { pose proof (jsonl_length (pre ++ ev :: post)) as Hlen.
      rewrite jsonl_app, length_app in Hlen. cbn [length] in Hlen.
      destruct (length (trace.jsonl pre ++ trace.jsonl (ev :: post)) - length pre)
        as [| fuel] eqn:Hfuel; [lia |].
      unfold trace.jsonl. cbn [flat_map]. unfold trace.line at 1.
      rewrite <- app_assoc. cbn [app].
      destruct ((trace.json_Marshal ev).1 ++ "010"%char :: flat_map trace.line post)
        as [| c s] eqn:Hs.
      { destruct (trace.json_Marshal ev).1; discriminate Hs. }
      cbn [trace.scan_lines]. rewrite <- Hs.
      rewrite break_line_plain by apply Marshal_plain.
      apply Nat.leb_le in Hlong. rewrite Hlong. reflexivity. }
    rewrite Hrest, app_nil_r.
    pose proof (validate_valid_lines pre 0 []) as Hv. rewrite app_nil_r in Hv.
    rewrite Hv; [reflexivity |].
    eapply Forall_impl; [exact Hpre |]. intros x [[Hfit _] Hx]. auto.
  - eapply Forall_impl; [exact Hpre |]. intros x [Hc _]. exact Hc.
  - rewrite length_app. pose proof (jsonl_length pre). lia.
Qed.

(** ** The events of the client *)

Lemma append_nonempty s t : t <> "" -> s +:+ t <> "".
Proof. intros Ht. destruct s; [exact Ht | discriminate]. Qed.

Lemma NowRFC3339Nano_nonempty t : trace.NowRFC3339Nano t <> "".
Proof.
  unfold trace.NowRFC3339Nano, trace.Format_RFC3339Nano.
  repeat apply append_nonempty. discriminate.
Qed.

Lemma Milliseconds_int64 d : trace.int64 d -> trace.int64 (Milliseconds d).
Proof.
  unfold trace.int64, Milliseconds. intros [Hlo Hhi].
  destruct (Z.le_gt_cases 0 d) as [Hd | Hd].
  - pose proof (Z.quot_pos d 1000000 Hd ltac:(lia)).
    pose proof (Z.quot_le_upper_bound d 1000000 d ltac:(lia) ltac:(lia)). lia.
  - assert (H : (- d ÷ 1000000 <= - d)%Z)
      by (apply Z.quot_le_upper_bound; lia).
    assert (H' : (0 <= - d ÷ 1000000)%Z) by (apply Z.quot_pos; lia).
    rewrite Z.quot_opp_l in H, H' by lia. lia.
Qed.

(** Which events of the client are valid. *)
Lemma authz_check_event_valid c principal resource permission allowed clk :
  spec.valid (authz_check_event c principal resource permission allowed clk)
  <-> spec.nonblank principal /\ spec.nonblank resource
      /\ spec.nonblank permission.
Proof.
  unfold spec.valid, spec.check_fields, authz_check_event.
  cbn [trace.SchemaVersion trace.Timestamp trace.EventType
       trace.AuthzEvent_Actor trace.AuthzEvent_Target trace.AuthzEvent_Action
       trace.AuthzEvent_Decision trace.Error].
  split.
  - intros (_ & _ & [[_ ((a & [= <-] & Ha) & (t & [= <-] & Ht)
                          & (x & [= <-] & Hx) & _)] | [H _]]);
      [auto | discriminate H].
  - intros (Hp & Hr & Hperm). split; [reflexivity |].
    split; [apply NowRFC3339Nano_nonempty |]. left. split; [reflexivity |].
    repeat split; try (eexists; split; [reflexivity | assumption]).
    eexists. split; [reflexivity |]. cbn [trace.Outcome].
    destruct allowed; auto.
Qed.

Lemma authz_error_event_valid c err clk :
  spec.valid (authz_error_event c err clk) <-> spec.nonblank (error_text err).
Proof.
  unfold spec.valid, authz_error_event.
  destruct (IsConnectivityError (Some err)); [| destruct (IsConfigError (Some err))];
    cbn [trace.SchemaVersion trace.Timestamp trace.EventType trace.Error];
    (split;
     [ intros (_ & _ & [[H _] | [_ (e & [= <-] & _ & Hm)]]);
       [discriminate H | exact Hm]
     | intros Hm; split; [reflexivity |];
       split; [apply NowRFC3339Nano_nonempty |]; right;
       split; [reflexivity |]; eexists; split; [reflexivity |];
       split; [discriminate | exact Hm] ]).
Qed.

Lemma authz_check_event_latency c principal resource permission allowed clk :
  trace.int64 (elapsed clk) ->
  trace.latency_fits
    (authz_check_event c principal resource permission allowed clk).
Proof.
  intros H d [= <-]. apply Milliseconds_int64, H.
Qed.

Lemma authz_error_event_latency c err clk :
  trace.latency_fits (authz_error_event c err clk).
Proof.
  unfold authz_error_event.
  destruct (IsConnectivityError (Some err)); [| destruct (IsConfigError (Some err))];
    intros d [=].
Qed.

Lemma traced_latency c ctx principal resource permission clk :
  trace.int64 (elapsed clk) ->
  trace.latency_fits (traced c ctx principal resource permission clk).
Proof.
  intros H. unfold traced.
  destruct (remote_call c ctx principal resource permission).
  - apply authz_check_event_latency, H.
  - apply authz_error_event_latency.
Qed.

(** Emitting and flushing on a writer with nothing buffered. *)
Lemma emit_and_flush w ev :
  trace.sound w -> trace.buf (trace.bw w) = [] ->
  exists w1 w2, trace.Writer_Emit (Some w) ev = (Some w1, None)
    /\ trace.Writer_Flush (Some w1) = (Some w2, None)
    /\ trace.sound w2 /\ trace.buf (trace.bw w2) = []
    /\ trace.content (trace.out w2) = trace.content (trace.out w) ++ trace.line ev
    /\ trace.is_stdout (trace.out w2) = trace.is_stdout (trace.out w).
Proof.
  intros Hw Hbuf.
  destruct (Writer_Emit_sound w ev Hw) as (w1 & He & Hw1 & Hwr1 & Hs1 & _).
  destruct (Writer_Flush_sound w1 Hw1) as (w2 & Hf & Hw2 & Hb2 & Hc2 & Hs2).
  exists w1, w2. repeat split; try assumption; try apply Hw2.
  - rewrite Hc2, Hwr1. unfold trace.written. rewrite Hbuf, app_nil_r.
    reflexivity.
  - congruence.
Qed.

(** Each call leaves one line more in the trace, and leaves it flushed. *)
Lemma CheckPermission_traced c ctx principal resource permission clk w :
  traceWriter c = Some w -> trace.sound w -> trace.buf (trace.bw w) = [] ->
  exists w',
    traceWriter (CheckPermission c ctx principal resource permission clk).2
    = Some w'
    /\ trace.sound w' /\ trace.buf (trace.bw w') = []
    /\ trace.content (trace.out w')
       = trace.content (trace.out w)
         ++ trace.line (traced c ctx principal resource permission clk).
Proof.
  intros Hc Hw Hbuf. unfold CheckPermission, traced.
  destruct (remote_call c ctx principal resource permission) as [perms | err].
  - destruct (emit_and_flush w
                (authz_check_event c principal resource permission
                   (length perms =? 1)%nat clk) Hw Hbuf)
      as (w1 & w2 & He & Hf & Hw2 & Hb2 & Hc2 & _).
    exists w2. cbn [snd]. unfold emitAuthzTrace. rewrite Hc, He, Hf.
    cbn [traceWriter with_traceWriter]. auto.
  - destruct (emit_and_flush w (authz_error_event c err clk) Hw Hbuf)
      as (w1 & w2 & He & Hf & Hw2 & Hb2 & Hc2 & _).
    exists w2.
    assert (Ht : traceWriter (emitErrorTrace c principal resource permission err clk)
                 = Some w2).
    { unfold emitErrorTrace. rewrite Hc, He, Hf. reflexivity. }
    destruct (IsConnectivityError (Some err));
      [destruct (String.eqb (mode c) AuthModePermissive) |];
      cbn [snd]; rewrite Ht; auto.
Qed.

(** ** The writer after a write that failed *)

Lemma bufio_Write_failed b f p e :
  trace.err b = Some e -> trace.bufio_Write b f p = (b, f, O, Some e).
Proof.
  intros Hb. unfold trace.bufio_Write. cbn [trace.write_loop].
  rewrite Hb. rewrite bool_decide_eq_false_2 by discriminate.
  rewrite andb_false_r. rewrite Hb. reflexivity.
Qed.

Lemma bufio_Flush_failed b f e :
  trace.err b = Some e -> trace.bufio_Flush b f = (b, f, Some e).
Proof. intros Hb. unfold trace.bufio_Flush. rewrite Hb. reflexivity. Qed.

(** The flush of a buffer that the device has no room for. *)
Lemma bufio_Flush_no_space b f k :
  trace.err b = None -> trace.file_closed f = false ->
  trace.room f = Some k -> k < length (trace.buf b) ->
  exists f',
    trace.bufio_Flush b f
    = ({| trace.buf := drop k (trace.buf b); trace.err := Some trace.ErrNoSpace |},
       f', Some trace.ErrNoSpace)
    /\ trace.content f' = trace.content f ++ take k (trace.buf b)
    /\ trace.file_closed f' = false
    /\ trace.is_stdout f' = trace.is_stdout f.
Proof.
  intros Hb Hc Hr Hk. unfold trace.bufio_Flush. rewrite Hb.
  destruct (trace.buf b) as [| c l] eqn:Hbuf; [simpl in Hk; lia |].
  unfold trace.File_Write. rewrite Hc, Hr.
  apply Nat.leb_gt in Hk. rewrite Hk.
  eexists. split; [reflexivity |]. auto.
Qed.

(** * The trace, written and read back *)

(** ** types.go: the JSON of an event *)

(** X1 (types.go, the struct tags under [json.Marshal] and
    [json.Unmarshal]): marshalling an event never fails, and
    unmarshalling the text gives, without error, the same event with
    every byte of its strings that is no part of a well-formed UTF-8
    sequence replaced by U+FFFD, whatever fields the event has, as long
    as the latency of its decision is an [int64]. *)
Theorem Unmarshal_after_Marshal (ev : trace.AuthzEvent) :
  trace.latency_fits ev ->
  (trace.json_Marshal ev).2 = None
  /\ trace.json_Unmarshal (trace.json_Marshal ev).1
     = (trace.decoded_AuthzEvent ev, None).
Proof. intros H. split; [reflexivity | apply Unmarshal_Marshal, H]. Qed.

Lemma Unmarshal_after_Marshal_witness :
  trace.latency_fits example.allow_event
  /\ trace.json_Unmarshal (trace.json_Marshal example.allow_event).1
     = (example.allow_event, None).
Proof.
  assert (H : trace.latency_fits example.allow_event).
  { intros d [= <-]. vm_compute. split; [discriminate | reflexivity]. }
  split; [exact H |].
  rewrite (proj2 (Unmarshal_after_Marshal example.allow_event H)).
  vm_compute. reflexivity.
Defined.

(** X2 (validator.go, [ValidateEvent], over the tags of types.go): the
    validator gives an event the same verdict before and after the trip
    through JSON: the event that is read back is accepted exactly when
    the event that was written is. *)
Theorem ValidateEvent_after_the_round_trip (ev : trace.AuthzEvent) :
  trace.latency_fits ev ->
  trace.ValidateEvent trace.NewValidator
    (trace.json_Unmarshal (trace.json_Marshal ev).1).1 = None
  <-> trace.ValidateEvent trace.NewValidator ev = None.
Proof.
  intros H. rewrite (Unmarshal_Marshal ev H). cbn [fst].
  rewrite !ValidateEvent_valid. apply decoded_valid.
Qed.

Lemma ValidateEvent_after_the_round_trip_witness :
  trace.latency_fits example.error_event
  /\ trace.ValidateEvent trace.NewValidator
       (trace.json_Unmarshal (trace.json_Marshal example.error_event).1).1
     = None.
Proof.
  assert (H : trace.latency_fits example.error_event).
  { intros d [=]. }
  split; [exact H |].
  apply (ValidateEvent_after_the_round_trip example.error_event H).
  vm_compute. reflexivity.
Defined.

(** X3 (writer.go, [Emit], over [json.Marshal]): the text of an event is
    one line: an object from its opening to its closing brace that holds
    no control character, so no line feed and no carriage return. *)
Theorem Marshal_is_one_line (ev : trace.AuthzEvent) :
  (exists body, (trace.json_Marshal ev).1 = "{"%char :: body ++ ["}"%char])
  /\ Forall (fun c => (utf8.byte c <? 32)%N = false) (trace.json_Marshal ev).1
  /\ forall rest,
       trace.break_line (trace.line ev ++ rest)
       = ((trace.json_Marshal ev).1, Some rest).
Proof.
  split; [apply Marshal_shape |]. split; [apply Marshal_plain |].
  intros rest. unfold trace.line. rewrite <- app_assoc.
  apply break_line_plain, Marshal_plain.
Qed.

(** ** writer.go: what reaches the sink *)

Lemma fresh_writer_sound : trace.sound example.fresh_writer.
Proof.
  unfold trace.sound, trace.sound_sink. cbn. repeat split.
  unfold trace.defaultBufSize. lia.
Defined.

(** X4 (writer.go, [Emit] and [Close]): on a sink that takes every
    write, emitting a list of events and closing the writer succeeds and
    leaves in the sink what the writer had taken before, followed by the
    lines of the events in their order, each the JSON of its event and a
    line feed; the file is closed, standard output is not. *)
Theorem Emit_then_Close_writes_the_lines (w : trace.Writer)
    (evs : list trace.AuthzEvent) :
  trace.sound w ->
  exists w1 w2,
    trace.Emit_all (Some w) evs = (Some w1, None)
    /\ trace.Writer_Close (Some w1) = (Some w2, None)
    /\ trace.content (trace.out w2) = trace.written w ++ trace.jsonl evs
    /\ trace.closed w2 = true
    /\ trace.file_closed (trace.out w2) = negb (trace.is_stdout (trace.out w)).
Proof.
  intros Hw.
  destruct (Emit_all_sound evs w Hw) as (w1 & He & Hw1 & Hwr & Hs).
  destruct (Writer_Close_sound w1 Hw1) as (w2 & Hc & Hcl & Hcont & Hfc).
  exists w1, w2. repeat split; try assumption; congruence.
Qed.

Lemma Emit_then_Close_writes_the_lines_witness :
  exists w1 w2,
    trace.Emit_all (Some example.fresh_writer)
      [example.allow_event; example.error_event] = (Some w1, None)
    /\ trace.Writer_Close (Some w1) = (Some w2, None)
    /\ trace.content (trace.out w2)
       = trace.written example.fresh_writer
         ++ trace.jsonl [example.allow_event; example.error_event]
    /\ trace.closed w2 = true
    /\ trace.file_closed (trace.out w2)
       = negb (trace.is_stdout (trace.out example.fresh_writer)).
Proof.
  apply (Emit_then_Close_writes_the_lines example.fresh_writer
           [example.allow_event; example.error_event]).
  exact fresh_writer_sound.
Defined.

(** X5 (writer.go, [Emit]: "does not flush automatically"): while the
    line of an event fits into what is left of the buffer of 4096 bytes,
    [Emit] succeeds and writes nothing to the sink: the line is added to
    the buffer, where it stays until [Flush] or [Close]. *)
Theorem Emit_only_buffers (w : trace.Writer) (ev : trace.AuthzEvent) :
  trace.sound w ->
  length (trace.buf (trace.bw w)) + length (trace.line ev)
    <= trace.defaultBufSize ->
  exists w',
    trace.Writer_Emit (Some w) ev = (Some w', None)
    /\ trace.out w' = trace.out w
    /\ trace.buf (trace.bw w') = trace.buf (trace.bw w) ++ trace.line ev.
Proof.
  intros Hw Hroom.
  destruct (Writer_Emit_sound w ev Hw) as (w' & He & _ & Hwr & _ & Hout).
  specialize (Hout Hroom). exists w'. split; [exact He |].
  split; [exact Hout |].
  unfold trace.written in Hwr. rewrite Hout, <- app_assoc in Hwr.
  apply app_inv_head in Hwr. exact Hwr.
Qed.

Lemma Emit_only_buffers_witness :
  exists w',
    trace.Writer_Emit (Some example.fresh_writer) example.allow_event
    = (Some w', None)
    /\ trace.out w' = trace.out example.fresh_writer
    /\ trace.buf (trace.bw w')
       = trace.buf (trace.bw example.fresh_writer)
         ++ trace.line example.allow_event.
Proof.
  apply (Emit_only_buffers example.fresh_writer example.allow_event).
  - exact fresh_writer_sound.
  - apply Nat.leb_le. vm_compute. reflexivity.
Defined.

(** X6 (writer.go, [Emit], [Flush] and [Close] over [bufio.Writer]): a
    writer does not recover from a write that failed.  Once the buffered
    writer holds an error, every [Emit] returns that error, wrapped, and
    every [Flush] returns it, both without a change to the writer or the
    sink; [Close] returns it, marks the writer closed and leaves the
    file open. *)
Theorem a_failed_write_is_final (w : trace.Writer) (e : error)
    (ev : trace.AuthzEvent) :
  trace.closed w = false -> trace.err (trace.bw w) = Some e ->
  trace.Writer_Emit (Some w) ev
  = (Some w, Some (Errorf_w "failed to write trace event: " e))
  /\ trace.Writer_Flush (Some w) = (Some w, Some e)
  /\ trace.Writer_Close (Some w)
     = (Some {| trace.out := trace.out w; trace.bw := trace.bw w;
                trace.closed := true |}, Some e).
Proof.
  intros Hc He. destruct w as [o b c]. cbn [trace.closed trace.bw trace.out] in *.
  subst c. unfold trace.Writer_Emit, trace.Writer_Flush, trace.Writer_Close.
  cbn [trace.closed trace.bw trace.out trace.json_Marshal].
  rewrite (bufio_Write_failed b o _ e He), (bufio_Flush_failed b o e He).
  auto.
Qed.

Lemma a_failed_write_is_final_witness :
  trace.Writer_Emit (Some example.broken_writer) example.allow_event
  = (Some example.broken_writer,
     Some (Errorf_w "failed to write trace event: " trace.ErrNoSpace))
  /\ trace.Writer_Flush (Some example.broken_writer)
     = (Some example.broken_writer, Some trace.ErrNoSpace)
  /\ trace.Writer_Close (Some example.broken_writer)
     = (Some {| trace.out := trace.out example.broken_writer;
                trace.bw := trace.bw example.broken_writer;
                trace.closed := true |}, Some trace.ErrNoSpace).
Proof.
  apply (a_failed_write_is_final example.broken_writer trace.ErrNoSpace
           example.allow_event); reflexivity.
Defined.

(** X7 (writer.go, [Close]): when the device has no room for what is
    buffered, [Close] writes the bytes that fit, which may end in the
    middle of a line, and returns the error of the write; it has marked
    the writer closed before, and it returns without closing the file:
    the next [Close] returns [nil] and the file stays open. *)
Theorem Close_on_a_full_device (w : trace.Writer) (k : nat) :
  trace.closed w = false -> trace.err (trace.bw w) = None ->
  trace.file_closed (trace.out w) = false ->
  trace.room (trace.out w) = Some k -> k < length (trace.buf (trace.bw w)) ->
  exists w',
    trace.Writer_Close (Some w) = (Some w', Some trace.ErrNoSpace)
    /\ trace.closed w' = true
    /\ trace.content (trace.out w')
       = trace.content (trace.out w) ++ take k (trace.buf (trace.bw w))
    /\ trace.file_closed (trace.out w') = false
    /\ trace.Writer_Close (Some w') = (Some w', None).
Proof.
  intros Hc He Ho Hr Hk.
  destruct (bufio_Flush_no_space (trace.bw w) (trace.out w) k He Ho Hr Hk)
    as (f' & Hf & Hcont & Hopen & _).
  unfold trace.Writer_Close at 1. rewrite Hc, Hf.
  eexists. split; [reflexivity |].
  cbn [trace.closed trace.out]. repeat split; assumption.
Qed.

Lemma Close_on_a_full_device_witness :
  exists w',
    trace.Writer_Close (Some example.full_disk_writer)
    = (Some w', Some trace.ErrNoSpace)
    /\ trace.closed w' = true
    /\ trace.content (trace.out w')
       = trace.content (trace.out example.full_disk_writer)
         ++ take 10 (trace.buf (trace.bw example.full_disk_writer))
    /\ trace.file_closed (trace.out w') = false
    /\ trace.Writer_Close (Some w') = (Some w', None).
Proof.
  apply (Close_on_a_full_device example.full_disk_writer 10);
    try reflexivity.
  apply Nat.ltb_lt. vm_compute. reflexivity.
Defined.

(** ** validator.go: reading what the writer wrote *)

Lemma valid_carried_events evs :
  Forall (fun ev => trace.carried ev
                    /\ trace.ValidateEvent trace.NewValidator ev = None) evs ->
  Forall (fun ev => trace.carried ev /\ spec.valid ev) evs.
Proof.
  intros H. eapply Forall_impl; [exact H |].
  intros ev [Hc Hv]. split; [exact Hc |]. apply ValidateEvent_valid, Hv.
Qed.

(** X8 (writer.go [Emit] and [Close], validator.go [ValidateJSONLFile]
    and [openMaybeGzip]): the round trip through a file.  Events that
    [ValidateEvent] accepts, emitted to a writer whose file holds a
    trace of such events or nothing, make a file that
    [ValidateJSONLFile] accepts once the writer is closed, read as it is
    or, under a name in [.gz], through gzip; this for events whose
    latency is an [int64] and whose JSON is shorter than the 65536 bytes
    of the scanner's buffer. *)
Theorem an_emitted_trace_validates
    (gunzip : list ascii -> option trace.stream)
    (w : trace.Writer) (old evs : list trace.AuthzEvent) :
  trace.sound w -> trace.written w = trace.jsonl old ->
  Forall (fun ev => trace.carried ev
                    /\ trace.ValidateEvent trace.NewValidator ev = None)
    (old ++ evs) ->
  exists w1 w2,
    trace.Emit_all (Some w) evs = (Some w1, None)
    /\ trace.Writer_Close (Some w1) = (Some w2, None)
    /\ forall fs path,
         trace.holds gunzip fs path (trace.content (trace.out w2)) ->
         trace.ValidateJSONLFile gunzip fs trace.NewValidator path = None.
Proof.
  intros Hw Hold Hevs.
  destruct (Emit_all_sound evs w Hw) as (w1 & He & Hw1 & Hwr & _).
  destruct (Writer_Close_sound w1 Hw1) as (w2 & Hc & _ & Hcont & _).
  exists w1, w2. split; [exact He |]. split; [exact Hc |].
  intros fs path Hholds.
  rewrite Hcont, Hwr, Hold, <- jsonl_app in Hholds.
  apply (ValidateJSONLFile_jsonl gunzip fs path (old ++ evs) Hholds).
  apply valid_carried_events, Hevs.
Qed.

Lemma example_events_carried :
  Forall (fun ev => trace.carried ev
                    /\ trace.ValidateEvent trace.NewValidator ev = None)
    ([] ++ [example.allow_event; example.error_event]).
Proof.
  apply Forall_cons. split.
  { split; [split |].
    - intros d [= <-]. vm_compute. split; [discriminate | reflexivity].
    - apply Nat.ltb_lt. vm_compute. reflexivity.
    - vm_compute. reflexivity. }
  apply Forall_cons. split; [| constructor].
  split; [split |].
  - intros d [=].
  - apply Nat.ltb_lt. vm_compute. reflexivity.
  - vm_compute. reflexivity.
Defined.

Lemma an_emitted_trace_validates_witness :
  exists w1 w2,
    trace.Emit_all (Some example.fresh_writer)
      [example.allow_event; example.error_event] = (Some w1, None)
    /\ trace.Writer_Close (Some w1) = (Some w2, None)
    /\ trace.ValidateJSONLFile example.stored
         (example.trace_files (trace.content (trace.out w2)))
         trace.NewValidator "authz.jsonl" = None
    /\ trace.ValidateJSONLFile example.stored
         (example.trace_files (trace.content (trace.out w2)))
         trace.NewValidator "authz.jsonl.gz" = None.
Proof.
  destruct (an_emitted_trace_validates example.stored example.fresh_writer []
              [example.allow_event; example.error_event]
              fresh_writer_sound eq_refl example_events_carried)
    as (w1 & w2 & He & Hc & Hv).
  exists w1, w2. split; [exact He |]. split; [exact Hc |]. split; apply Hv.
  - left. split; [vm_compute; discriminate | vm_compute; reflexivity].
  - right. split; [vm_compute; reflexivity |].
    eexists. split; vm_compute; reflexivity.
Defined.

(** X9 (validator.go, [ValidateJSONLFile]): the file of a trace whose
    first events are valid and whose next event is not is rejected with
    a [ValidationError] that carries the number of the line of that
    event, counted from one, and the message of [ValidateEvent] on the
    event as it is read back; what follows that line is not looked at. *)
Theorem the_first_invalid_event_is_reported
    (gunzip : list ascii -> option trace.stream) (fs : trace.Files)
    (path : string) (pre post : list trace.AuthzEvent) (ev : trace.AuthzEvent) :
  trace.holds gunzip fs path (trace.jsonl (pre ++ ev :: post)) ->
  Forall (fun x => trace.carried x
                   /\ trace.ValidateEvent trace.NewValidator x = None) pre ->
  trace.carried ev ->
  trace.ValidateEvent trace.NewValidator ev <> None ->
  exists e,
    trace.ValidateEvent trace.NewValidator
      (trace.json_Unmarshal (trace.json_Marshal ev).1).1 = Some e
    /\ trace.ValidateJSONLFile gunzip fs trace.NewValidator path
       = Some (ValidationError (Z.of_nat (length pre) + 1) (error_text e)).
Proof.
  intros Hholds Hpre Hev Hbad.
  rewrite (Unmarshal_Marshal ev (proj1 Hev)). cbn [fst].
  apply (ValidateJSONLFile_first_invalid gunzip fs path pre ev post Hholds);
    [apply valid_carried_events, Hpre | exact Hev |].
  intros Hv. apply Hbad, ValidateEvent_valid, Hv.
Qed.

Lemma the_first_invalid_event_is_reported_witness :
  trace.ValidateJSONLFile example.stored
    (example.trace_files
       (trace.jsonl [example.allow_event; example.anonymous_event;
                     example.error_event]))
    trace.NewValidator "authz.jsonl.gz"
  = Some (ValidationError 2 "missing actor.principal").
Proof.
  destruct (the_first_invalid_event_is_reported example.stored
              (example.trace_files
                 (trace.jsonl [example.allow_event; example.anonymous_event;
                               example.error_event]))
              "authz.jsonl.gz" [example.allow_event] [example.error_event]
              example.anonymous_event) as (e & He & Hv).
  - right. split; [vm_compute; reflexivity |].
    eexists. split; vm_compute; reflexivity.
  - apply Forall_cons. split; [| constructor]. split; [split |].
    + intros d [= <-]. vm_compute. split; [discriminate | reflexivity].
    + apply Nat.ltb_lt. vm_compute. reflexivity.
    + vm_compute. reflexivity.
  - split.
    + intros d [= <-]. vm_compute. split; [discriminate | reflexivity].
    + apply Nat.ltb_lt. vm_compute. reflexivity.
  - vm_compute. discriminate.
  - rewrite Hv. vm_compute in He. injection He as <-. reflexivity.
Defined.

(** X10 (validator.go, [ValidateJSONLFile] over [bufio.Scanner]): an
    event whose JSON has 65536 bytes or more cannot be read back.  The
    file of a trace with such an event behind valid ones is rejected
    with the scanner's error "token too long", whether [ValidateEvent]
    accepts the event or not. *)
Theorem an_oversized_event_stops_the_scanner
    (gunzip : list ascii -> option trace.stream) (fs : trace.Files)
    (path : string) (pre post : list trace.AuthzEvent) (ev : trace.AuthzEvent) :
  trace.holds gunzip fs path (trace.jsonl (pre ++ ev :: post)) ->
  Forall (fun x => trace.carried x
                   /\ trace.ValidateEvent trace.NewValidator x = None) pre ->
  trace.MaxScanTokenSize <= length (trace.json_Marshal ev).1 ->
  trace.ValidateJSONLFile gunzip fs trace.NewValidator path
  = Some (wrapError "scanner error: bufio.Scanner: token too long"
            trace.ErrTooLong).
Proof.
  intros Hholds Hpre Hlong.
  rewrite (ValidateJSONLFile_too_long gunzip fs path pre ev post Hholds);
    [reflexivity | apply valid_carried_events, Hpre | exact Hlong].
Qed.

Lemma an_oversized_event_stops_the_scanner_witness :
  trace.ValidateJSONLFile example.stored
    (example.trace_files (trace.jsonl [example.oversized_event]))
    trace.NewValidator "authz.jsonl"
  = Some (wrapError "scanner error: bufio.Scanner: token too long"
            trace.ErrTooLong).
Proof.
  apply (an_oversized_event_stops_the_scanner example.stored _ _ []
           [] example.oversized_event).
  - change (trace.jsonl ([] ++ [example.oversized_event]))
      with (trace.jsonl [example.oversized_event]).
    generalize (trace.jsonl [example.oversized_event]). intros data.
    left. split; [vm_compute; discriminate | vm_compute; reflexivity].
  - constructor.
  - apply Nat.leb_le. vm_compute. reflexivity.
Defined.

(** ** client.go: the trace of the client *)

(** X11 (client.go, [CheckPermission] with [emitAuthzTrace] and
    [emitErrorTrace]): with a trace writer on a sink that takes every
    write, each call adds exactly one line to the sink, the line of an
    [authz_check] event when the evaluator answered and of an
    [authz_error] event when the call failed, and leaves nothing in the
    buffer: the trace is flushed when the call returns.  Nothing else of
    the client changes. *)
Theorem CheckPermission_writes_one_line (c : Client) (ctx : Context)
    (principal resource permission : string) (clk : Clock) (w : trace.Writer) :
  traceWriter c = Some w -> trace.sound w -> trace.buf (trace.bw w) = [] ->
  let c' := (CheckPermission c ctx principal resource permission clk).2 in
  (exists w',
     traceWriter c' = Some w'
     /\ trace.sound w' /\ trace.buf (trace.bw w') = []
     /\ trace.content (trace.out w')
        = trace.content (trace.out w)
          ++ trace.line (traced c ctx principal resource permission clk))
  /\ client c' = client c /\ conn c' = conn c /\ mode c' = mode c
  /\ timeout c' = timeout c.
Proof.
  intros Hc Hw Hbuf. cbn zeta.
  split; [apply CheckPermission_traced; assumption |].
  unfold CheckPermission, emitAuthzTrace, emitErrorTrace. rewrite Hc.
  destruct (remote_call c ctx principal resource permission) as [perms | err].
  - destruct (trace.Writer_Emit _ _) as [w1 e1].
    destruct (trace.Writer_Flush w1) as [w2 e2]. auto.
  - destruct (trace.Writer_Emit _ _) as [w1 e1].
    destruct (trace.Writer_Flush w1) as [w2 e2].
    destruct (IsConnectivityError (Some err));
      [destruct (String.eqb (mode c) AuthModePermissive) |]; auto.
Qed.

Lemma CheckPermission_writes_one_line_witness :
  exists w',
    traceWriter (CheckPermission example.strict_client example.ctx
                   example.principal example.resource example.permission
                   example.clock).2 = Some w'
    /\ trace.content (trace.out w') = trace.line example.allow_event.
Proof.
  destruct (CheckPermission_writes_one_line example.strict_client example.ctx
              example.principal example.resource example.permission
              example.clock example.fresh_writer eq_refl fresh_writer_sound
              eq_refl) as [(w' & Ht & _ & _ & Hcont) _].
  exists w'. split; [exact Ht |]. rewrite Hcont. reflexivity.
Defined.

Lemma traced_valid c ctx principal resource permission clk :
  match remote_call c ctx principal resource permission with
  | Response _ =>
      spec.nonblank principal /\ spec.nonblank resource
      /\ spec.nonblank permission
  | Failure err => spec.nonblank (error_text err)
  end ->
  spec.valid (traced c ctx principal resource permission clk).
Proof.
  unfold traced.
  destruct (remote_call c ctx principal resource permission); intros H.
  - apply authz_check_event_valid, H.
  - apply authz_error_event_valid, H.
Qed.

(** X12 (client.go [CheckPermission], writer.go [Emit] and [Flush],
    validator.go [ValidateJSONLFile]): the round trip of the events of
    the client.  When the trace so far is valid, a call whose principal,
    resource and permission are not blank, if the evaluator answers, or
    whose error has a text that is not blank, if the call fails, leaves
    a trace file that [ValidateJSONLFile] accepts, plain or compressed;
    this for a duration that is an [int64] and an event whose JSON is
    shorter than 65536 bytes. *)
Theorem the_trace_of_a_call_validates
    (gunzip : list ascii -> option trace.stream) (c : Client) (ctx : Context)
    (principal resource permission : string) (clk : Clock) (w : trace.Writer)
    (old : list trace.AuthzEvent) :
  traceWriter c = Some w -> trace.sound w -> trace.buf (trace.bw w) = [] ->
  trace.content (trace.out w) = trace.jsonl old ->
  Forall (fun ev => trace.carried ev
                    /\ trace.ValidateEvent trace.NewValidator ev = None) old ->
  trace.int64 (elapsed clk) ->
  match remote_call c ctx principal resource permission with
  | Response _ =>
      spec.nonblank principal /\ spec.nonblank resource
      /\ spec.nonblank permission
  | Failure err => spec.nonblank (error_text err)
  end ->
  length (trace.json_Marshal
            (traced c ctx principal resource permission clk)).1
    < trace.MaxScanTokenSize ->
  exists w',
    traceWriter (CheckPermission c ctx principal resource permission clk).2
    = Some w'
    /\ forall fs path,
         trace.holds gunzip fs path (trace.content (trace.out w')) ->
         trace.ValidateJSONLFile gunzip fs trace.NewValidator path = None.
Proof.
  intros Hc Hw Hbuf Hold Hvalid Hclk Hin Hshort.
  destruct (CheckPermission_traced c ctx principal resource permission clk w
              Hc Hw Hbuf) as (w' & Ht & _ & _ & Hcont).
  exists w'. split; [exact Ht |]. intros fs path Hholds.
  rewrite Hcont, Hold in Hholds.
  replace (trace.line (traced c ctx principal resource permission clk))
    with (trace.jsonl [traced c ctx principal resource permission clk])
    in Hholds by (unfold trace.jsonl; cbn [flat_map]; apply app_nil_r).
  rewrite <- jsonl_app in Hholds.
  apply (ValidateJSONLFile_jsonl gunzip fs path _ Hholds).
  apply Forall_app. split; [apply valid_carried_events, Hvalid |].
  constructor; [| constructor]. split.
  - split; [apply traced_latency, Hclk | exact Hshort].
  - apply traced_valid, Hin.
Qed.

Lemma the_trace_of_a_call_validates_witness :
  exists w',
    traceWriter (CheckPermission example.strict_client example.ctx
                   example.principal example.resource example.permission
                   example.clock).2 = Some w'
    /\ trace.ValidateJSONLFile example.stored
         (example.trace_files (trace.content (trace.out w')))
         trace.NewValidator "authz.jsonl" = None
    /\ trace.ValidateJSONLFile example.stored
         (example.trace_files (trace.content (trace.out w')))
         trace.NewValidator "authz.jsonl.gz" = None.
Proof.
  destruct (the_trace_of_a_call_validates example.stored
              example.strict_client example.ctx example.principal
              example.resource example.permission example.clock
              example.fresh_writer []) as (w' & Ht & Hv).
  - reflexivity.
  - exact fresh_writer_sound.
  - reflexivity.
  - reflexivity.
  - constructor.
  - vm_compute. split; [discriminate | reflexivity].
  - vm_compute. repeat split; discriminate.
  - apply Nat.ltb_lt. vm_compute. reflexivity.
  - exists w'. split; [exact Ht |]. split; apply Hv.
    + left. split; [vm_compute; discriminate | vm_compute; reflexivity].
    + right. split; [vm_compute; reflexivity |].
      eexists. split; vm_compute; reflexivity.
Defined.

Lemma blank_principal_rejected c principal resource permission allowed clk :
  strings.TrimSpace principal = "" ->
  trace.ValidateEvent trace.NewValidator
    (trace.decoded_AuthzEvent
       (authz_check_event c principal resource permission allowed clk))
  = Some (errorString "missing actor.principal").
Proof.
  intros Hblank. unfold trace.ValidateEvent, authz_check_event.
  cbn [trace.decoded_AuthzEvent trace.SchemaVersion trace.EventType
       trace.Timestamp trace.AuthzEvent_Actor option_map trace.nil_or_blank
       trace.decoded_Actor trace.Principal].
  change (trace.coerced trace.SchemaV1_0) with "1.0".
  change (trace.coerced trace.EventTypeAuthzCheck) with "authz_check".
  rewrite (proj2 (supported_version "1.0") eq_refl).
  assert (Ht : String.eqb (trace.coerced (trace.NowRFC3339Nano (now clk))) ""
               = false).
  { apply String.eqb_neq, coerced_nonempty, NowRFC3339Nano_nonempty. }
  rewrite Ht. rewrite (proj2 (coerced_blank_iff principal) Hblank).
  reflexivity.
Qed.

(** X13 (client.go [CheckPermission], validator.go): the client writes
    events that the validator rejects.  A call with a blank principal
    (the empty string, or white space only) that the evaluator answers
    returns its decision as ever, and adds a line to the trace that
    makes [ValidateJSONLFile] fail on that line with "missing
    actor.principal". *)
Theorem a_call_without_principal_breaks_the_trace
    (gunzip : list ascii -> option trace.stream) (c : Client) (ctx : Context)
    (principal resource permission : string) (clk : Clock) (w : trace.Writer)
    (old : list trace.AuthzEvent) (perms : list string) :
  traceWriter c = Some w -> trace.sound w -> trace.buf (trace.bw w) = [] ->
  trace.content (trace.out w) = trace.jsonl old ->
  Forall (fun ev => trace.carried ev
                    /\ trace.ValidateEvent trace.NewValidator ev = None) old ->
  trace.int64 (elapsed clk) ->
  remote_call c ctx principal resource permission = Response perms ->
  strings.TrimSpace principal = "" ->
  length (trace.json_Marshal
            (traced c ctx principal resource permission clk)).1
    < trace.MaxScanTokenSize ->
  (CheckPermission c ctx principal resource permission clk).1
  = ((length perms =? 1)%nat, None)
  /\ exists w',
       traceWriter (CheckPermission c ctx principal resource permission clk).2
       = Some w'
       /\ forall fs path,
            trace.holds gunzip fs path (trace.content (trace.out w')) ->
            trace.ValidateJSONLFile gunzip fs trace.NewValidator path
            = Some (ValidationError (Z.of_nat (length old) + 1)
                      "missing actor.principal").
Proof.
  intros Hc Hw Hbuf Hold Hvalid Hclk Hcall Hblank Hshort.
  split; [unfold CheckPermission; rewrite Hcall; reflexivity |].
  destruct (CheckPermission_traced c ctx principal resource permission clk w
              Hc Hw Hbuf) as (w' & Ht & _ & _ & Hcont).
  exists w'. split; [exact Ht |]. intros fs path Hholds.
  rewrite Hcont, Hold in Hholds.
  replace (trace.line (traced c ctx principal resource permission clk))
    with (trace.jsonl [traced c ctx principal resource permission clk])
    in Hholds by (unfold trace.jsonl; cbn [flat_map]; apply app_nil_r).
  rewrite <- jsonl_app in Hholds.
  pose proof (traced_latency c ctx principal resource permission clk Hclk)
    as Hfit.
  assert (Hbad : trace.ValidateEvent trace.NewValidator
                   (trace.decoded_AuthzEvent
                      (traced c ctx principal resource permission clk))
                 = Some (errorString "missing actor.principal")).
  { unfold traced. rewrite Hcall. apply blank_principal_rejected, Hblank. }
  destruct (ValidateJSONLFile_first_invalid gunzip fs path old
              (traced c ctx principal resource permission clk) [] Hholds)
    as (e & He & Hres).
  - apply valid_carried_events, Hvalid.
  - split; [exact Hfit | exact Hshort].
  - intros Hv. apply decoded_valid, ValidateEvent_valid in Hv. congruence.
  - rewrite Hres. rewrite Hbad in He. injection He as <-. reflexivity.
Qed.

Lemma a_call_without_principal_breaks_the_trace_witness :
  exists w',
    traceWriter (CheckPermission example.strict_client example.ctx
                   "" example.resource example.permission example.clock).2
    = Some w'
    /\ trace.ValidateJSONLFile example.stored
         (example.trace_files (trace.content (trace.out w')))
         trace.NewValidator "authz.jsonl"
       = Some (ValidationError 1 "missing actor.principal").
Proof.
  destruct (a_call_without_principal_breaks_the_trace example.stored
              example.strict_client example.ctx "" example.resource
              example.permission example.clock example.fresh_writer []
              [example.permission]) as (_ & w' & Ht & Hv).
  - reflexivity.
  - exact fresh_writer_sound.
  - reflexivity.
  - reflexivity.
  - constructor.
  - vm_compute. split; [discriminate | reflexivity].
  - reflexivity.
  - reflexivity.
  - apply Nat.ltb_lt. vm_compute. reflexivity.
  - exists w'. split; [exact Ht |]. apply Hv.
    left. split; [vm_compute; discriminate | vm_compute; reflexivity].
Defined.

(** X14 (client.go, [CheckPermission]; mode.go): the client compares its
    mode with "permissive" and with nothing else.  Under every other
    mode, [off] and any string that is none of the three modes included,
    a call returns what it returns under [strict]: the client itself
    never skips a check; two clients with the same evaluator and timeout
    whose modes are both not "permissive" give the same decisions. *)
Theorem every_mode_but_permissive_is_strict (c c' : Client) (ctx : Context)
    (principal resource permission : string) (clk clk' : Clock) :
  client c = client c' -> timeout c = timeout c' ->
  mode c <> AuthModePermissive -> mode c' <> AuthModePermissive ->
  (CheckPermission c ctx principal resource permission clk).1
  = (CheckPermission c' ctx principal resource permission clk').1.
Proof.
  intros Hstub Htime Hm Hm'. unfold CheckPermission, remote_call.
  rewrite Hstub, Htime.
  destruct (client c' _ _) as [perms | err]; [reflexivity |].
  apply String.eqb_neq in Hm, Hm'. rewrite Hm, Hm'.
  destruct (IsConnectivityError (Some err)); reflexivity.
Qed.

Lemma every_mode_but_permissive_is_strict_witness :
  (CheckPermission
     (example.new_client (example.fails_with example.unavailable) AuthModeOff)
     example.ctx example.principal example.resource example.permission
     example.clock).1
  = (CheckPermission
       (example.new_client (example.fails_with example.unavailable)
          AuthModeStrict)
       example.ctx example.principal example.resource example.permission
       example.clock).1.
Proof.
  apply (every_mode_but_permissive_is_strict
           (example.new_client (example.fails_with example.unavailable)
              AuthModeOff)
           (example.new_client (example.fails_with example.unavailable)
              AuthModeStrict));
    first [reflexivity | vm_compute; discriminate].
Defined.

(** ** writer.go and client.go: opening the trace *)

Section Opening.

Variable Map_unicode_ToLower : string -> string.
Variable Stdout : trace.File.
Variable OpenFile : string -> trace.File + error.

(** X15 (writer.go, [NewWriterFromEnv], [Emit], [Flush], [Close];
    client.go, [CheckPermission]): tracing that is off costs nothing and
    fails nowhere.  Without [IAM_TRACE_OUTPUT], or with it empty,
    [NewWriterFromEnv] returns a [nil] writer and no error; [Emit],
    [Flush] and [Close] on the [nil] writer return [nil]; and a call of
    [CheckPermission] leaves a client without a writer as it was. *)
Theorem tracing_off_is_a_no_op (env : os.Env) :
  os.Getenv env trace.EnvTraceOutput = "" ->
  trace.NewWriterFromEnv Map_unicode_ToLower Stdout OpenFile env = (None, None)
  /\ (forall ev, trace.Writer_Emit None ev = (None, None))
  /\ trace.Writer_Flush None = (None, None)
  /\ trace.Writer_Close None = (None, None)
  /\ forall c ctx principal resource permission clk,
       traceWriter c = None ->
       (CheckPermission c ctx principal resource permission clk).2 = c.
Proof.
  intros Henv. unfold trace.NewWriterFromEnv. rewrite Henv.
  repeat split.
  intros c ctx principal resource permission clk Hc.
  unfold CheckPermission, emitAuthzTrace, emitErrorTrace. rewrite Hc.
  destruct (remote_call c ctx principal resource permission) as [perms | err];
    [reflexivity |].
  destruct (IsConnectivityError (Some err));
    [destruct (String.eqb (mode c) AuthModePermissive) |]; reflexivity.
Qed.

(** X16 (client.go, [NewClient]; writer.go, [NewWriterFromEnv] and
    [NewWriter]): a trace file that cannot be opened turns tracing off
    without a word.  When [IAM_TRACE_OUTPUT] names a file and opening it
    fails, [NewWriterFromEnv] returns the error of the open, wrapped,
    and no writer; [NewClient] drops that error: once the connection is
    made it returns a client and no error, with the mode as given, a
    timeout of two seconds and no trace writer. *)
Theorem NewClient_drops_the_trace_error
    (dial : string -> ClientConn + error)
    (stub : ClientConn -> IAMPolicyClient) (env : os.Env)
    (host dest : string) (m : AuthMode) (cc : ClientConn) (e : error) :
  dial host = inl cc ->
  os.Getenv env trace.EnvTraceOutput = dest -> dest <> "" ->
  strings.ToLower Map_unicode_ToLower dest <> "stdout" ->
  OpenFile dest = inr e ->
  trace.NewWriterFromEnv Map_unicode_ToLower Stdout OpenFile env
  = (None, Some (wrapError ("failed to open trace file: " +:+ error_text e) e))
  /\ NewClient Map_unicode_ToLower dial stub Stdout OpenFile env host m
     = (Some {| client := stub cc; conn := Some cc; mode := m;
                timeout := 2 * Second; traceWriter := None |}, None).
Proof.
  intros Hdial Henv Hdest Hout Hopen.
  assert (Hw : trace.NewWriterFromEnv Map_unicode_ToLower Stdout OpenFile env
               = (None, Some (wrapError
                    ("failed to open trace file: " +:+ error_text e) e))).
  { unfold trace.NewWriterFromEnv, trace.NewWriter. rewrite Henv.
    apply String.eqb_neq in Hdest, Hout. rewrite Hdest, Hout, Hopen.
    reflexivity. }
  split; [exact Hw |].
  unfold NewClient. rewrite Hdial, Hw. reflexivity.
Qed.

End Opening.

Lemma tracing_off_is_a_no_op_witness :
  trace.NewWriterFromEnv strings.lower_ascii example.stdout example.read_only ∅
  = (None, None).
Proof.
  apply (tracing_off_is_a_no_op strings.lower_ascii example.stdout
           example.read_only ∅).
  reflexivity.
Defined.

Lemma NewClient_drops_the_trace_error_witness :
  NewClient strings.lower_ascii example.dials example.fails_with_conn
    example.stdout example.read_only example.trace_env "localhost:8080"
    AuthModeStrict
  = (Some {| client := example.fails_with_conn {| conn_closed := false |};
             conn := Some {| conn_closed := false |};
             mode := AuthModeStrict; timeout := 2 * Second;
             traceWriter := None |}, None).
Proof.
  apply (NewClient_drops_the_trace_error strings.lower_ascii example.stdout
           example.read_only example.dials example.fails_with_conn
           example.trace_env "localhost:8080" "/var/log/authz.jsonl"
           AuthModeStrict {| conn_closed := false |}
           (errorString "open /var/log/authz.jsonl: permission denied")).
  - reflexivity.
  - vm_compute. reflexivity.
  - discriminate.
  - vm_compute. discriminate.
  - reflexivity.
Defined.

(** ** config.go *)

Lemma ParseAuthMode_values Map_unicode_ToLower s :
  ParseAuthMode Map_unicode_ToLower s = AuthModeOff
  \/ ParseAuthMode Map_unicode_ToLower s = AuthModePermissive
  \/ ParseAuthMode Map_unicode_ToLower s = AuthModeStrict.
Proof.
  unfold ParseAuthMode.
  destruct (String.eqb _ "permissive"); [auto |].
  destruct (String.eqb _ "strict"); auto.
Qed.

(** X17 (config.go, [LoadFromEnv] and [getEnvWithDefault]; mode.go,
    [ParseAuthMode] and [String]): what the configuration is, whatever
    the environment holds.  The host is never empty: an
    [IAM_EMULATOR_HOST] that is unset or empty gives "localhost:8080",
    any other value is taken as it is.  The mode is one of the three
    modes, [off] when [IAM_MODE] is unset or empty, and parsing its
    string gives it back.  Tracing is on for the value "true" and for no
    other, not for "TRUE" and not for "1". *)
Theorem LoadFromEnv_is_total (Map_unicode_ToLower : string -> string)
    (env : os.Env) :
  let cfg := LoadFromEnv Map_unicode_ToLower env in
  Host cfg <> ""
  /\ (os.Getenv env "IAM_EMULATOR_HOST" = "" -> Host cfg = "localhost:8080")
  /\ (os.Getenv env "IAM_EMULATOR_HOST" <> "" ->
      Host cfg = os.Getenv env "IAM_EMULATOR_HOST")
  /\ (Mode cfg = AuthModeOff \/ Mode cfg = AuthModePermissive
      \/ Mode cfg = AuthModeStrict)
  /\ (os.Getenv env "IAM_MODE" = "" -> Mode cfg = AuthModeOff)
  /\ ParseAuthMode Map_unicode_ToLower (AuthMode_String (Mode cfg)) = Mode cfg
  /\ (Trace cfg = true <-> env !! "IAM_TRACE" = Some "true").
Proof.
  cbn zeta. unfold LoadFromEnv. cbn [Host Mode Trace].
  unfold getEnvWithDefault.
  split.
  { destruct (String.eqb_spec (os.Getenv env "IAM_EMULATOR_HOST") "");
      cbn [negb]; [discriminate | assumption]. }
  split.
  { intros ->. reflexivity. }
  split.
  { intros H. apply String.eqb_neq in H. rewrite H. reflexivity. }
  split; [apply ParseAuthMode_values |].
  split.
  { intros ->. reflexivity. }
  split.
  { destruct (ParseAuthMode_values Map_unicode_ToLower (os.Getenv env "IAM_MODE"))
      as [-> | [-> | ->]]; reflexivity. }
  unfold os.Getenv. rewrite String.eqb_eq.
  destruct (env !! "IAM_TRACE") as [v |]; simpl.
  - split; [intros H; f_equal; exact H | intros [= H]; exact H].
  - split; discriminate.
Qed.

(** ** principal.go *)

Section Metadata.

Variable Map_unicode_ToLower : string -> string.

Lemma joined_values kvs : forall (md : gmap string (list string)) k,
  default [] (fold_left
                (fun md kv =>
                   let key := strings.ToLower Map_unicode_ToLower kv.1 in
                   <[key := default [] (md !! key) ++ [kv.2]]> md) kvs md !! k)
  = default [] (md !! k)
    ++ map snd (filter (fun kv => strings.ToLower Map_unicode_ToLower kv.1 = k) kvs).
Proof.
  induction kvs as [| [k' v] kvs IH]; intros md k.
  - cbn. rewrite app_nil_r. reflexivity.
  - cbn [fold_left]. rewrite IH. cbn zeta. cbn [fst snd].
    rewrite filter_cons. cbn [fst].
    destruct (decide (strings.ToLower Map_unicode_ToLower k' = k)) as [<- | Hne].
    + rewrite lookup_insert_eq. cbn [map snd].
      change (default [] (Some ?x)) with x.
      rewrite <- app_assoc. reflexivity.
    + rewrite lookup_insert_ne by exact Hne. reflexivity.
Qed.

Lemma FromOutgoingContext_Get ctx key :
  MD_Get Map_unicode_ToLower (FromOutgoingContext Map_unicode_ToLower ctx) key
  = outgoing_values Map_unicode_ToLower ctx (strings.ToLower Map_unicode_ToLower key).
Proof.
  unfold MD_Get, FromOutgoingContext, outgoing_values, MD.
  rewrite (joined_values (outgoing ctx) ∅ (strings.ToLower Map_unicode_ToLower key)).
  rewrite lookup_empty. reflexivity.
Qed.

(** X18 (principal.go, [InjectPrincipalToContext] and
    [ExtractPrincipalFromContext]): the principal across a call, and
    that injection never overrides.  Read from the metadata that the
    context sends, the principal is the first value of the key
    "x-emulator-principal": for a context that carries none, the
    principal that was injected (none for the empty principal, which is
    not injected); for a context that carries one already, under the key
    in any case, that first one, and the injected principal comes behind
    it. *)
Theorem injected_principal_is_extracted (ctx : Context) (principal : string) :
  ExtractPrincipalFromContext Map_unicode_ToLower
    (Some (FromOutgoingContext Map_unicode_ToLower
             (InjectPrincipalToContext ctx principal)))
  = match outgoing_values Map_unicode_ToLower ctx PrincipalMetadataKey with
    | first :: _ => first
    | [] => principal
    end
  /\ outgoing_values Map_unicode_ToLower
       (InjectPrincipalToContext ctx principal) PrincipalMetadataKey
     = outgoing_values Map_unicode_ToLower ctx PrincipalMetadataKey
       ++ (if String.eqb principal "" then [] else [principal]).
Proof.
  assert (Hkey : strings.ToLower Map_unicode_ToLower PrincipalMetadataKey = PrincipalMetadataKey)
    by reflexivity.
  assert (Hvals : outgoing_values Map_unicode_ToLower
                    (InjectPrincipalToContext ctx principal)
                    PrincipalMetadataKey
                  = outgoing_values Map_unicode_ToLower ctx PrincipalMetadataKey
                    ++ (if String.eqb principal "" then [] else [principal])).
  { unfold InjectPrincipalToContext, outgoing_values.
    destruct (String.eqb principal ""); [rewrite app_nil_r; reflexivity |].
    cbn [outgoing]. rewrite filter_app, map_app. f_equal. }
  split; [| exact Hvals].
  unfold ExtractPrincipalFromContext.
  rewrite FromOutgoingContext_Get, Hkey, Hvals.
  destruct (outgoing_values Map_unicode_ToLower ctx PrincipalMetadataKey)
    as [| q l]; [| reflexivity].
  cbn [app]. destruct (String.eqb_spec principal "") as [-> | _]; reflexivity.
Qed.

End Metadata.

(** ** validator.go: the lines of a file *)

Lemma break_line_row l rest :
  ~ In "010"%char l ->
  trace.break_line (l ++ "010"%char :: rest) = (l, Some rest).
Proof.
  induction l as [| c l IH]; intros H; [reflexivity |].
  cbn [app trace.break_line].
  destruct (Ascii.eqb_spec c "010") as [-> | _]; [exfalso; apply H; left; reflexivity |].
  rewrite IH; [reflexivity |]. intros Hin. apply H. right. exact Hin.
Qed.

Lemma scan_lines_rows ls : forall fuel,
  Forall (fun l => ~ In "010"%char l /\ length l < trace.MaxScanTokenSize) ls ->
  length ls <= fuel ->
  trace.scan_lines fuel (flat_map (fun l => l ++ ["010"%char]) ls)
  = (map trace.dropCR ls, None).
Proof.
  induction ls as [| l ls IH]; intros fuel Hls Hfuel.
  - cbn [flat_map map]. apply scan_lines_nil.
  - inversion Hls as [| ? ? [Hlf Hshort] Hrest]; subst.
    destruct fuel as [| fuel]; [simpl in Hfuel; lia |].
    cbn [flat_map map]. rewrite <- app_assoc. cbn [app].
    destruct (l ++ "010"%char :: flat_map (fun l0 => l0 ++ ["010"%char]) ls)
      as [| c s] eqn:Hs; [destruct l; discriminate Hs |].
    cbn [trace.scan_lines]. rewrite <- Hs.
    rewrite break_line_row by exact Hlf.
    apply Nat.leb_gt in Hshort. rewrite Hshort.
    rewrite (IH fuel Hrest) by (simpl in Hfuel; lia). reflexivity.
Qed.

Lemma validate_row v k l ls data :
  strings.TrimSpace (trace.text l) = trace.text data -> data <> [] ->
  trace.validate_lines v k (l :: ls)
  = match trace.json_Unmarshal data with
    | (_, Some e) =>
        Some (ValidationError (k + 1) ("invalid JSON: " +:+ error_text e))
    | (ev, None) =>
        match trace.ValidateEvent v ev with
        | Some e => Some (ValidationError (k + 1) (error_text e))
        | None => trace.validate_lines v (k + 1) ls
        end
    end.
Proof.
  intros Htrim Hne. cbn [trace.validate_lines]. rewrite Htrim.
  assert (Hs : String.eqb (trace.text data) "" = false).
  { apply String.eqb_neq. intros H. apply Hne.
    apply (f_equal trace.bytes) in H. unfold trace.bytes, trace.text in H.
    rewrite list_ascii_of_string_of_list_ascii in H. exact H. }
  rewrite Hs. unfold trace.bytes, trace.text.
  rewrite list_ascii_of_string_of_list_ascii. reflexivity.
Qed.

Lemma validate_blank_row v k l ls :
  strings.TrimSpace (trace.text l) = "" ->
  trace.validate_lines v k (l :: ls) = trace.validate_lines v (k + 1) ls.
Proof. intros H. cbn [trace.validate_lines]. rewrite H. reflexivity. Qed.

Lemma Marshal_nonempty ev : (trace.json_Marshal ev).1 <> [].
Proof. destruct (Marshal_shape ev) as (body & ->). discriminate. Qed.

(** X19 (validator.go, [ValidateJSONLFile] over [bufio.Scanner] and
    [strings.TrimSpace]): blank lines, white space around an event and
    carriage returns before the line feeds do not matter.  A file whose
    every line is, once its carriage return and the white space around
    it are taken off, empty or the JSON of an event that [ValidateEvent]
    accepts, is accepted. *)
Theorem white_space_in_a_trace_is_skipped
    (gunzip : list ascii -> option trace.stream) (fs : trace.Files)
    (path : string) (rows : list (list ascii * option trace.AuthzEvent)) :
  trace.holds gunzip fs path
    (flat_map (fun row => row.1 ++ ["010"%char]) rows) ->
  Forall
    (fun row =>
       trace.row_reads row
       /\ forall ev, row.2 = Some ev ->
            trace.latency_fits ev
            /\ trace.ValidateEvent trace.NewValidator ev = None) rows ->
  trace.ValidateJSONLFile gunzip fs trace.NewValidator path = None.
Proof.
  intros Hholds Hrows. unfold trace.ValidateJSONLFile.
  rewrite (holds_opens _ _ _ _ Hholds).
  assert (Hflat : flat_map (fun row : list ascii * option trace.AuthzEvent =>
                              row.1 ++ ["010"%char]) rows
                  = flat_map (fun l => l ++ ["010"%char]) (map fst rows)).
  { clear. induction rows as [| r rows IH]; [reflexivity |].
    cbn [flat_map map]. rewrite IH. reflexivity. }
  rewrite Hflat, scan_lines_rows.
  - assert (Hv : forall k,
      trace.validate_lines trace.NewValidator k
        (map trace.dropCR (map fst rows)) = None).
    { clear Hholds Hflat.
      induction Hrows as [| [l o] rows' [(_ & _ & Htrim) Hev] _ IH];
        intros k; [reflexivity |].
      cbn [map fst snd] in *. destruct o as [ev |].
      - destruct (Hev ev eq_refl) as [Hfit Hvalid].
        rewrite (validate_row _ k _ _ (trace.json_Marshal ev).1 Htrim
                   (Marshal_nonempty ev)).
        rewrite (Unmarshal_Marshal ev Hfit).
        apply ValidateEvent_valid, decoded_valid, ValidateEvent_valid in Hvalid.
        rewrite Hvalid. apply IH.
      - rewrite (validate_blank_row _ k _ _ Htrim). apply IH. }
    rewrite Hv. reflexivity.
  - apply Forall_map. eapply Forall_impl; [exact Hrows |].
    intros row [(Hlf & Hshort & _) _]. auto.
  - rewrite length_map. clear.
    induction rows as [| r rows IH]; [simpl; lia |].
    cbn [map flat_map length]. rewrite !length_app. cbn [length]. lia.
Qed.

Lemma no_line_feed_check l :
  forallb (fun c => negb (Ascii.eqb c "010")) l = true -> ~ In "010"%char l.
Proof.
  intros H Hin. rewrite forallb_forall in H. specialize (H _ Hin).
  discriminate H.
Qed.

Lemma white_space_in_a_trace_is_skipped_witness :
  trace.ValidateJSONLFile example.stored
    (example.trace_files
       (flat_map (fun row => row.1 ++ ["010"%char]) example.edited_rows))
    trace.NewValidator "authz.jsonl"
  = None.
Proof.
  apply (white_space_in_a_trace_is_skipped example.stored _ _
           example.edited_rows).
  - generalize (flat_map
                  (fun row : list ascii * option trace.AuthzEvent =>
                     row.1 ++ ["010"%char]) example.edited_rows).
    intros data.
    left. split; [vm_compute; discriminate | vm_compute; reflexivity].
  - apply Forall_cons. split.
    { split.
      - split; [apply no_line_feed_check; vm_compute; reflexivity |].
        split; [apply Nat.ltb_lt; vm_compute; reflexivity |].
        vm_compute. reflexivity.
      - intros ev [= <-]. split; [| vm_compute; reflexivity].
        intros d [= <-]. vm_compute. split; [discriminate | reflexivity]. }
    apply Forall_cons. split.
    { split.
      - split; [apply no_line_feed_check; vm_compute; reflexivity |].
        split; [apply Nat.ltb_lt; vm_compute; reflexivity |].
        vm_compute. reflexivity.
      - intros ev [=]. }
    apply Forall_cons. split; [| constructor].
    split.
    + split; [apply no_line_feed_check; vm_compute; reflexivity |].
      split; [apply Nat.ltb_lt; vm_compute; reflexivity |].
      vm_compute. reflexivity.
    + intros ev [= <-]. split; [| vm_compute; reflexivity].
      intros d [=].
Defined.

(** ** client.go: what the trace says, and a run of calls *)


Lemma traced_of_the_same c c' ctx principal resource permission clk :
  client c' = client c -> timeout c' = timeout c -> mode c' = mode c ->
  traced c' ctx principal resource permission clk
  = traced c ctx principal resource permission clk.
Proof.
  intros Hs Ht Hm. unfold traced, remote_call.
  rewrite Hs, Ht. destruct (client c _ _) as [perms | err].
  - unfold authz_check_event. rewrite Hm. reflexivity.
  - unfold authz_error_event. rewrite Hm. reflexivity.
Qed.

Lemma after_calls_traced calls : forall c w,
  traceWriter c = Some w -> trace.sound w -> trace.buf (trace.bw w) = [] ->
  exists w',
    traceWriter (after_calls c calls) = Some w'
    /\ trace.sound w' /\ trace.buf (trace.bw w') = []
    /\ trace.content (trace.out w')
       = trace.content (trace.out w)
         ++ trace.jsonl
              (map (fun x => traced c (call_ctx x) (call_principal x)
                               (call_resource x) (call_permission x)
                               (call_clock x)) calls)
    /\ conn (after_calls c calls) = conn c.
Proof.
  induction calls as [| x calls IH]; intros c w Hc Hw Hbuf.
  - exists w. unfold trace.jsonl. cbn [map flat_map after_calls fold_left].
    rewrite app_nil_r. auto.
  - destruct (CheckPermission_writes_one_line c (call_ctx x)
                (call_principal x) (call_resource x) (call_permission x)
                (call_clock x) w Hc Hw Hbuf)
      as [(w1 & Hc1 & Hw1 & Hbuf1 & Hcont1) (Hs & Hconn & Hm & Ht)].
    destruct (IH _ w1 Hc1 Hw1 Hbuf1) as (w2 & Hc2 & Hw2 & Hbuf2 & Hcont2 & Hconn2).
    exists w2. unfold after_calls in *. cbn [fold_left].
    split; [exact Hc2 |]. split; [exact Hw2 |]. split; [exact Hbuf2 |].
    split; [| congruence].
    rewrite Hcont2, Hcont1, <- app_assoc. f_equal.
    unfold trace.jsonl. cbn [map flat_map]. f_equal. f_equal.
    apply map_ext. intros y. apply traced_of_the_same; assumption.
Qed.

(** X21 (client.go, [CheckPermission] and [Close]): a run of calls and
    the end of the client.  With a trace writer on a sink that takes
    every write, a list of calls leaves in the sink the line of the
    event of each call, in the order of the calls, all of them flushed.
    [Client.Close] closes the connection and nothing else: it neither
    closes the trace writer nor its file, which stay open. *)
Theorem the_trace_of_a_run (c : Client) (w : trace.Writer)
    (calls : list Call) :
  traceWriter c = Some w -> trace.sound w -> trace.buf (trace.bw w) = [] ->
  exists w',
    traceWriter (after_calls c calls) = Some w'
    /\ trace.buf (trace.bw w') = []
    /\ trace.content (trace.out w')
       = trace.content (trace.out w)
         ++ trace.jsonl
              (map (fun x => traced c (call_ctx x) (call_principal x)
                               (call_resource x) (call_permission x)
                               (call_clock x)) calls)
    /\ traceWriter (Client_Close (after_calls c calls)).1 = Some w'
    /\ trace.closed w' = false
    /\ trace.file_closed (trace.out w') = false.
Proof.
  intros Hc Hw Hbuf.
  destruct (after_calls_traced calls c w Hc Hw Hbuf)
    as (w' & Hc' & (Hopen & (Hfile & _) & _) & Hbuf' & Hcont & _).
  exists w'. repeat split; try assumption.
  unfold Client_Close. destruct (conn (after_calls c calls)) as [cc |];
    [| exact Hc'].
  destruct (ClientConn_Close cc) as [cc' e]. exact Hc'.
Qed.

Lemma the_trace_of_a_run_witness :
  exists w',
    traceWriter (after_calls example.strict_client example.two_calls) = Some w'
    /\ trace.content (trace.out w')
       = trace.jsonl [example.allow_event;
                      authz_check_event example.strict_client ""
                        example.resource example.permission true example.clock]
    /\ trace.file_closed (trace.out w') = false.
Proof.
  destruct (the_trace_of_a_run example.strict_client example.fresh_writer
              example.two_calls eq_refl fresh_writer_sound eq_refl)
    as (w' & Hc & _ & Hcont & _ & _ & Hfile).
  exists w'. split; [exact Hc |]. split; [| exact Hfile].
  rewrite Hcont. reflexivity.
Defined.

(** ** The handler of the README *)

(** X22 (README, [Server.GetSecret], over [ExtractPrincipalFromContext]
    and [CheckPermission]): what a request gets, by the mode and the
    evaluator.  Without a client the handler proceeds.  With a client,
    it proceeds exactly when the evaluator grants one permission, or
    when the call fails with a connectivity error and the client is
    permissive; it answers PermissionDenied exactly when the evaluator
    answers with another number of permissions; and it answers Internal
    exactly when the call fails and the client does not fail open, so an
    evaluator that cannot be reached gives Internal under a strict
    client, not PermissionDenied.  The principal that is checked is the
    first value of the principal key in the incoming metadata. *)
Theorem what_a_request_gets (Map_unicode_ToLower : string -> string)
    (c : Client) (incoming : option MD) (ctx : Context) (name : string)
    (clk : Clock) :
  let principal := ExtractPrincipalFromContext Map_unicode_ToLower incoming in
  let got :=
    (GetSecret Map_unicode_ToLower {| iamClient := Some c |} incoming ctx name
       clk).1 in
  (forall s, iamClient s = None ->
     GetSecret Map_unicode_ToLower s incoming ctx name clk = (Proceeds, s))
  /\ match remote_call c ctx principal name "secretmanager.secrets.get" with
     | Response perms =>
         if (length perms =? 1)%nat then got = Proceeds
         else got = Refuses codes.PermissionDenied "Permission denied"
     | Failure err =>
         if IsConnectivityError (Some err)
            && String.eqb (mode c) AuthModePermissive
         then got = Proceeds
         else got = Refuses codes.Internal "IAM check failed"
     end.
Proof.
  cbn zeta. split.
  - intros s Hs. unfold GetSecret. rewrite Hs. reflexivity.
  - unfold GetSecret, CheckPermission. cbn [iamClient].
    destruct (remote_call c ctx _ name "secretmanager.secrets.get")
      as [perms | err].
    + destruct (length perms =? 1)%nat; reflexivity.
    + destruct (IsConnectivityError (Some err));
        [destruct (String.eqb (mode c) AuthModePermissive) |]; reflexivity.
Qed.
